(** * Java structure validator: parser and comparator

    A shallow embedding of [parser.ts] (comment stripping, class body
    extraction, attribute and method parsers) and of the two versions of
    [compare.ts] (the tree-shaped comparator and the older comparator that
    returns a list of error strings), with the properties of the
    specification stated over them.

    JavaScript strings are sequences of UTF-16 code units; they are modelled
    as lists of code units ([N]).  The regular expressions of the source are
    written in a small regular-expression syntax and executed by a
    backtracking matcher that follows the ECMAScript priorities (greedy and
    lazy repetition, optional groups, alternatives in order, captures,
    lookahead, [$] under the [m] flag). *)

From Stdlib Require Import String Ascii.
From Stdlib Require Import NArith Arith Bool Lia List Permutation.
From Stdlib Require Decimal.
Import ListNotations.

Set Implicit Arguments.

(* ================================================================= *)
(** ** Strings *)

Definition char := N.
Definition jstring := list char.

(** A literal of the source, as code units. *)
Definition str (s : string) : jstring :=
  map N_of_ascii (list_ascii_of_string s).
Arguments str s%_string.

Definition char_eqb (a b : char) : bool := N.eqb a b.
Arguments char_eqb : simpl never.

Fixpoint jstring_eqb (a b : jstring) : bool :=
  match a, b with
  | [], [] => true
  | x :: a', y :: b' => char_eqb x y && jstring_eqb a' b'
  | _, _ => false
  end.

Definition slash : char := 47%N.
Definition star : char := 42%N.
Definition lbrace : char := 123%N.
Definition rbrace : char := 125%N.
Definition pipe : char := 124%N.
Definition semicolon : char := 59%N.
Definition comma : char := 44%N.
Definition space : char := 32%N.

(** ECMAScript LineTerminator: LF, CR, LS, PS. *)
Definition is_line_terminator (c : char) : bool :=
  N.eqb c 10 || N.eqb c 13 || N.eqb c 8232 || N.eqb c 8233.

(** [.] without the [s] flag. *)
Definition dot (c : char) : bool := negb (is_line_terminator c).

(** [[\s\S]]. *)
Definition any (c : char) : bool := true.

(** [\s]: WhiteSpace and LineTerminator code units. *)
Definition is_space (c : char) : bool :=
  N.eqb c 9 || N.eqb c 10 || N.eqb c 11 || N.eqb c 12 || N.eqb c 13 ||
  N.eqb c 32 || N.eqb c 160 || N.eqb c 5760 ||
  (N.leb 8192 c && N.leb c 8202) ||
  N.eqb c 8232 || N.eqb c 8233 || N.eqb c 8239 || N.eqb c 8287 ||
  N.eqb c 12288 || N.eqb c 65279.

(** [\w]: [A-Za-z0-9_]. *)
Definition is_word (c : char) : bool :=
  (N.leb 65 c && N.leb c 90) || (N.leb 97 c && N.leb c 122) ||
  (N.leb 48 c && N.leb c 57) || N.eqb c 95.

(** [[\w<>[\]]]: the characters of a type token. *)
Definition is_type_char (c : char) : bool :=
  is_word c || N.eqb c 60 || N.eqb c 62 || N.eqb c 91 || N.eqb c 93.

(** [[^)]]. *)
Definition not_rparen (c : char) : bool := negb (N.eqb c 41).

(** [prefix_rest l s]: the rest of [s] after the literal [l], if [s]
    starts with [l]. *)
Fixpoint prefix_rest (l s : jstring) : option jstring :=
  match l with
  | [] => Some s
  | x :: l' =>
      match s with
      | y :: s' => if char_eqb x y then prefix_rest l' s' else None
      | [] => None
      end
  end.

(** [String.prototype.trim]: white space and line terminators are removed
    at both ends. *)
Fixpoint trimStart (s : jstring) : jstring :=
  match s with
  | c :: s' => if is_space c then trimStart s' else s
  | [] => []
  end.

Definition trim (s : jstring) : jstring :=
  rev (trimStart (rev (trimStart s))).

(** [Array.prototype.join]. *)
Fixpoint join (sep : jstring) (l : list jstring) : jstring :=
  match l with
  | [] => []
  | [x] => x
  | x :: l' => x ++ sep ++ join sep l'
  end.

(** [String.prototype.split] with a one-character separator; the result is
    never empty. *)
Fixpoint split_char (sep : char) (s : jstring) : list jstring :=
  match s with
  | [] => [[]]
  | c :: s' =>
      if char_eqb c sep then [] :: split_char sep s'
      else match split_char sep s' with
           | w :: ws => (c :: w) :: ws
           | [] => [[c]]
           end
  end.

(** Decimal rendering of a number inside a template string. *)
Fixpoint uint_codes (d : Decimal.uint) : jstring :=
  match d with
  | Decimal.Nil => []
  | Decimal.D0 d => 48%N :: uint_codes d
  | Decimal.D1 d => 49%N :: uint_codes d
  | Decimal.D2 d => 50%N :: uint_codes d
  | Decimal.D3 d => 51%N :: uint_codes d
  | Decimal.D4 d => 52%N :: uint_codes d
  | Decimal.D5 d => 53%N :: uint_codes d
  | Decimal.D6 d => 54%N :: uint_codes d
  | Decimal.D7 d => 55%N :: uint_codes d
  | Decimal.D8 d => 56%N :: uint_codes d
  | Decimal.D9 d => 57%N :: uint_codes d
  end.

Definition num (n : nat) : jstring := uint_codes (Nat.to_uint n).

(* ================================================================= *)
(** ** Regular expressions *)

Module Regex.

(** The fragment used by the source: every repetition is over a character
    class, the only repeated group is an optional one. *)
Inductive regex : Type :=
| Lit (l : jstring)                  (* literal text *)
| Star (greedy : bool) (p : char -> bool)   (* [p*] or [p*?] *)
| Plus (greedy : bool) (p : char -> bool)   (* [p+] or [p+?] *)
| Cat (r1 r2 : regex)
| Or (r1 r2 : regex)                 (* [r1|r2] *)
| Opt (r : regex)                    (* [(?:r)?] *)
| Group (i : nat) (r : regex)        (* i-th capturing group *)
| Ahead (r : regex)                  (* [(?=r)] *)
| Eol.                               (* [$] with the [m] flag *)

(** Capture [i] is [nth i c None]; [None] is [undefined]. *)
Definition caps := list (option jstring).

Fixpoint set_cap (i : nat) (v : jstring) (c : caps) : caps :=
  match i, c with
  | O, _ :: c' => Some v :: c'
  | O, [] => [Some v]
  | S i', x :: c' => x :: set_cap i' v c'
  | S i', [] => None :: set_cap i' v []
  end.

Definition cap (i : nat) (c : caps) : option jstring := nth i c None.

(** What was consumed between the input [s] and its suffix [s']. *)
Definition consumed (s s' : jstring) : jstring :=
  firstn (length s - length s') s.

Definition at_eol (s : jstring) : bool :=
  match s with
  | [] => true
  | c :: _ => is_line_terminator c
  end.

Section Matcher.
Variable A : Type.

(** Greedy [p*]: the longest run first, shorter ones on backtracking. *)
Fixpoint star_greedy (p : char -> bool) (s : jstring)
    (k : jstring -> option A) : option A :=
  match s with
  | x :: s' =>
      if p x then
        match star_greedy p s' k with
        | Some a => Some a
        | None => k s
        end
      else k s
  | [] => k []
  end.

(** Lazy [p*?]: the shortest run first. *)
Fixpoint star_lazy (p : char -> bool) (s : jstring)
    (k : jstring -> option A) : option A :=
  match k s with
  | Some a => Some a
  | None =>
      match s with
      | x :: s' => if p x then star_lazy p s' k else None
      | [] => None
      end
  end.

Definition star_run (greedy : bool) :=
  if greedy then star_greedy else star_lazy.
End Matcher.

(** Backtracking matcher in continuation-passing style: [run r s c k] tries
    the ways [r] matches a prefix of [s] in priority order and returns the
    first for which the continuation [k] succeeds. *)
Fixpoint run (A : Type) (r : regex) (s : jstring) (c : caps)
    (k : jstring -> caps -> option A) {struct r} : option A :=
  match r with
  | Lit l =>
      match prefix_rest l s with
      | Some s' => k s' c
      | None => None
      end
  | Star g p => star_run g p s (fun s' => k s' c)
  | Plus g p =>
      match s with
      | x :: s' => if p x then star_run g p s' (fun s'' => k s'' c) else None
      | [] => None
      end
  | Cat r1 r2 => run r1 s c (fun s' c' => run r2 s' c' k)
  | Or r1 r2 =>
      match run r1 s c k with
      | Some a => Some a
      | None => run r2 s c k
      end
  | Opt r1 =>
      match run r1 s c k with
      | Some a => Some a
      | None => k s c
      end
  | Group i r1 => run r1 s c (fun s' c' => k s' (set_cap i (consumed s s') c'))
  | Ahead r1 =>
      match run r1 s c (fun _ c' => Some c') with
      | Some c' => k s c'
      | None => None
      end
  | Eol => if at_eol s then k s c else None
  end.

(** A match of [r] at the start of [s]: the rest of the input and the
    captures (capture 0 is the whole match). *)
Definition match_at (r : regex) (s : jstring) : option (jstring * caps) :=
  run r s [] (fun s' c => Some (s', set_cap 0 (consumed s s') c)).

(** Length of the match of [r] at the start of [s]. *)
Definition match_len (r : regex) (s : jstring) : option nat :=
  match match_at r s with
  | Some (s', _) => Some (length s - length s')
  | None => None
  end.

(** [s.replace(r, "")] for a global [r]: matches are searched from left to
    right, each search starting where the previous match ended (one
    character further after an empty match).  [skip] is the number of
    characters of the current match still to be dropped. *)
Fixpoint replace_empty (r : regex) (skip : nat) (s : jstring) : jstring :=
  match s with
  | [] => []
  | x :: s' =>
      match skip with
      | S n => replace_empty r n s'
      | O =>
          match match_len r s with
          | Some (S n) => replace_empty r n s'
          | _ => x :: replace_empty r 0 s'
          end
      end
  end.

End Regex.
Import Regex.

(* ================================================================= *)
(** ** parser.ts *)

Inductive Modifier := Mpublic | Mprivate | Mprotected | Mdefault.

Definition modifier_str (m : Modifier) : jstring :=
  match m with
  | Mpublic => str "public"
  | Mprivate => str "private"
  | Mprotected => str "protected"
  | Mdefault => str "default"
  end.

Record AttributeInfo := mkAttribute {
  attr_modifier : Modifier;
  attr_type : jstring;
  attr_name : jstring
}.

Record ParameterInfo := mkParameter {
  param_type : jstring;
  param_name : jstring
}.

Record MethodInfo := mkMethod {
  meth_modifier : Modifier;
  returnType : jstring;
  methodName : jstring;
  parameters : list ParameterInfo
}.

Record ClassInfo := mkClass {
  class_name : jstring;
  class_extends : option jstring;
  attributes : list AttributeInfo;
  methods : list MethodInfo
}.

Record ParseResult := mkParseResult {
  classes : list ClassInfo;
  errors : list jstring
}.

(** [/\/\/.*$/gm] *)
Definition lineCommentRegex : regex :=
  Cat (Lit (str "//")) (Cat (Star true dot) Eol).

(** [/\/\*[\s\S]*?\*\//g] *)
Definition blockCommentRegex : regex :=
  Cat (Lit (str "/*")) (Cat (Star false any) (Lit (str "*/"))).

Definition removeComments (source : jstring) : jstring :=
  let withoutLineComments := replace_empty lineCommentRegex 0 source in
  replace_empty blockCommentRegex 0 withoutLineComments.

(** [/class\s+(\w+)(?:\s+extends\s+(\w+))?\s*\{/g] *)
Definition classRegex : regex :=
  Cat (Lit (str "class"))
 (Cat (Plus true is_space)
 (Cat (Group 1 (Plus true is_word))
 (Cat (Opt (Cat (Plus true is_space)
           (Cat (Lit (str "extends"))
           (Cat (Plus true is_space)
                (Group 2 (Plus true is_word))))))
 (Cat (Star true is_space)
      (Lit (str "{")))))).

(** [(?:(public|private|protected)\s+)?], the optional modifier of both
    member patterns. *)
Definition modifierPrefix : regex :=
  Opt (Cat (Group 1 (Or (Lit (str "public"))
                    (Or (Lit (str "private")) (Lit (str "protected")))))
           (Plus true is_space)).

(** [/(?:(public|private|protected)\s+)?([\w<>[\]]+)\s+(\w+)\s*;/g] *)
Definition attributeRegex : regex :=
  Cat modifierPrefix
 (Cat (Group 2 (Plus true is_type_char))
 (Cat (Plus true is_space)
 (Cat (Group 3 (Plus true is_word))
 (Cat (Star true is_space)
      (Lit (str ";")))))).

(** The method pattern: the attribute pattern up to the name and [\s*],
    then [\(], group 4 = zero or more characters other than the closing
    parenthesis, [\)] and the lookahead [(?=\s*\{)]; flag [g]. *)
Definition methodRegex : regex :=
  Cat modifierPrefix
 (Cat (Group 2 (Plus true is_type_char))
 (Cat (Plus true is_space)
 (Cat (Group 3 (Plus true is_word))
 (Cat (Star true is_space)
 (Cat (Lit (str "("))
 (Cat (Group 4 (Star true not_rparen))
 (Cat (Lit (str ")"))
      (Ahead (Cat (Star true is_space) (Lit (str "{"))))))))))).

(** The loop [while ((match = regex.exec(s)) !== null)] over a global
    regex: the successive matches from left to right, each search starting
    at [lastIndex], the end of the previous match.  A match is given by its
    captures and by the input that follows it.  [skip] counts the characters
    up to [lastIndex].  (None of the patterns above matches the empty
    string.) *)
Fixpoint exec_all (r : regex) (skip : nat) (s : jstring)
    : list (caps * jstring) :=
  match s with
  | [] => []
  | _ :: s' =>
      match skip with
      | S n => exec_all r n s'
      | O =>
          match match_at r s with
          | Some (rest, c) =>
              (c, rest) :: exec_all r (pred (length s - length rest)) s'
          | None => exec_all r 0 s'
          end
      end
  end.

(** A capture that always takes part in the match. *)
Definition cap_str (i : nat) (c : caps) : jstring :=
  match cap i c with
  | Some v => v
  | None => []
  end.

Record ClassDecl := mkClassDecl {
  decl_name : jstring;
  extendsFrom : option jstring;
  body : jstring
}.

(** The brace loop of [extractClassBodies], run over [rest], the source
    after the opening brace at [startIdx]:
    [while (endIdx < javaSource.length && braceCount > 0)
       { endIdx++; if (javaSource[endIdx] === "{") braceCount++;
                   if (javaSource[endIdx] === "}") braceCount--; }].
    The result is [endIdx - (startIdx + 1)] when the loop ends with
    [braceCount === 0], and [None] when the source ends first. *)
Fixpoint braceLoop (rest : jstring) (braceCount : nat) : option nat :=
  match rest with
  | [] => None
  | x :: rest' =>
      let braceCount :=
        if char_eqb x lbrace then S braceCount else braceCount in
      let braceCount :=
        if char_eqb x rbrace then pred braceCount else braceCount in
      if Nat.eqb braceCount 0 then Some 0
      else option_map S (braceLoop rest' braceCount)
  end.

Definition dquote : char := 34%N.

(** [`Error: Unmatched braces in class "${className}"`] *)
Definition unmatched_message (className : jstring) : jstring :=
  str "Error: Unmatched braces in class " ++ [dquote] ++ className ++ [dquote].

(** The body of the loop of [extractClassBodies] for one match: the class
    pushed, or the line written with [console.error]. *)
Definition extractClass (m : caps * jstring) : ClassDecl + jstring :=
  let (c, rest) := m in
  let className := cap_str 1 c in
  let extendsFrom := cap 2 c in
  match braceLoop rest 1 with
  | Some n =>
      let classBody := trim (firstn n rest) in
      inl (mkClassDecl className extendsFrom classBody)
  | None => inr (unmatched_message className)
  end.

Fixpoint lefts (A B : Type) (l : list (A + B)) : list A :=
  match l with
  | [] => []
  | inl a :: l' => a :: lefts l'
  | inr _ :: l' => lefts l'
  end.

Fixpoint rights (A B : Type) (l : list (A + B)) : list B :=
  match l with
  | [] => []
  | inl _ :: l' => rights l'
  | inr b :: l' => b :: rights l'
  end.

(** [extractClassBodies]: the classes returned and, second, the lines
    written to the console. *)
Definition extractClassBodies (javaSource : jstring)
    : list ClassDecl * list jstring :=
  let results := map extractClass (exec_all classRegex 0 javaSource) in
  (lefts results, rights results).

(** [(match[1] as ...) || "default"] *)
Definition modifier_of (o : option jstring) : Modifier :=
  match o with
  | Some v =>
      if jstring_eqb v (str "public") then Mpublic
      else if jstring_eqb v (str "private") then Mprivate
      else if jstring_eqb v (str "protected") then Mprotected
      else Mdefault
  | None => Mdefault
  end.

Definition parseJavaAttributes (classBody : jstring) : list AttributeInfo :=
  flat_map
    (fun m : caps * jstring =>
       let c := fst m in
       let modifier := modifier_of (cap 1 c) in
       let type := cap_str 2 c in
       let name := cap_str 3 c in
       if negb (jstring_eqb type (str "return"))
       then [mkAttribute modifier type name] else [])
    (exec_all attributeRegex 0 classBody).

(** [String.prototype.split(/\s+/)]: the pieces between the maximal runs of
    white space; [in_sep] holds inside such a run. *)
Fixpoint split_ws_from (in_sep : bool) (s : jstring) : list jstring :=
  match s with
  | [] => [[]]
  | x :: s' =>
      if is_space x then
        if in_sep then split_ws_from true s' else [] :: split_ws_from true s'
      else
        match split_ws_from false s' with
        | w :: ws => (x :: w) :: ws
        | [] => [[x]]
        end
  end.

Definition split_ws (s : jstring) : list jstring := split_ws_from false s.

Definition is_empty (s : jstring) : bool :=
  match s with [] => true | _ => false end.

(** The body of the loop over [params] in [parseJavaMethods]. *)
Definition parseParameter (param : jstring) : list ParameterInfo :=
  let parts := split_ws param in
  let parts :=
    match parts with
    | p0 :: parts' => if jstring_eqb p0 (str "final") then parts' else parts
    | [] => parts
    end in
  if Nat.ltb (length parts) 2 then []
  else
    let type := join (str " ") (removelast parts) in
    let name := last parts [] in
    if negb (is_empty type) && negb (is_empty name)
    then [mkParameter type name] else [].

Definition parseParameters (paramsStr : jstring) : list ParameterInfo :=
  if is_empty paramsStr then []
  else
    let params :=
      filter (fun p => negb (is_empty p))
             (map trim (split_char comma paramsStr)) in
    flat_map parseParameter params.

Definition parseJavaMethods (classBody : jstring) : list MethodInfo :=
  map
    (fun m : caps * jstring =>
       let c := fst m in
       let modifier := modifier_of (cap 1 c) in
       let returnType := cap_str 2 c in
       let methodName := cap_str 3 c in
       let paramsStr := trim (cap_str 4 c) in
       mkMethod modifier returnType methodName (parseParameters paramsStr))
    (exec_all methodRegex 0 classBody).

(** [parseJavaClasses], with the console lines of [extractClassBodies]. *)
Definition parseJavaClasses (javaSource : jstring)
    : ParseResult * list jstring :=
  let (classes, console) := extractClassBodies javaSource in
  match classes with
  | [] => (mkParseResult [] [str "No class declarations found."], console)
  | _ =>
      let parsedClasses :=
        map (fun classDecl =>
               mkClass (decl_name classDecl) (extendsFrom classDecl)
                       (parseJavaAttributes (body classDecl))
                       (parseJavaMethods (body classDecl)))
            classes in
      (mkParseResult parsedClasses [], console)
  end.

(** [parseJavaFile].  Nothing in the [try] block throws (every function
    above is total), so the [catch] branch is never taken. *)
Definition parseJavaFile (source : jstring) : ParseResult * list jstring :=
  let uncommentedSource := removeComments source in
  parseJavaClasses uncommentedSource.

(* ================================================================= *)
(** ** compare.ts *)

Definition BoxA : jstring := str "Teacher".
Definition BoxB : jstring := str "Student".

Definition red : jstring := str "text-red-500".
Definition yellow : jstring := str "text-yellow-500".
Definition green : jstring := str "text-green-500".

(** [new Set(l)] spread into an array: the distinct strings of [l] in the
    order of their first occurrence. *)
Definition set_add (acc : list jstring) (x : jstring) : list jstring :=
  if existsb (jstring_eqb x) acc then acc else acc ++ [x].

Definition Set_of (l : list jstring) : list jstring :=
  fold_left set_add l [].

Definition option_eqb (a b : option jstring) : bool :=
  match a, b with
  | Some x, Some y => jstring_eqb x y
  | None, None => true
  | _, _ => false
  end.

(** [c.name === className] *)
Definition has_name (className : jstring) (c : ClassInfo) : bool :=
  jstring_eqb (class_name c) className.

(** The signature strings of the two reducers. *)
Definition attributeSignature (attr : AttributeInfo) : jstring :=
  modifier_str (attr_modifier attr) ++ [pipe] ++ attr_type attr.

Definition paramTypes (method : MethodInfo) : jstring :=
  join [comma] (map param_type (parameters method)).

Definition methodSignature (method : MethodInfo) : jstring :=
  modifier_str (meth_modifier method) ++ [pipe] ++ returnType method
    ++ [pipe] ++ paramTypes method.

(** An element of a destructured array; the signature strings always
    split into enough pieces (lemmas [split_attributeSignature] and
    [split_methodSignature]). *)
Definition piece (i : nat) (l : list jstring) : jstring := nth i l [].

(** [modifier !== "default" ? `${modifier} ` : ""] *)
Definition tempMod (modifier : jstring) : jstring :=
  if negb (jstring_eqb modifier (str "default"))
  then modifier ++ str " " else [].

Module CompareTree.

Record AttributeComparison := mkComparison {
  message : jstring;
  color : jstring;
  count : option nat
}.

Definition MethodComparison := AttributeComparison.

Record InheritanceComparison := mkInheritance {
  inh_message : jstring;
  inh_color : jstring
}.

(** The fields [type] (always ["class"]) and [children] (never set) are
    left out. *)
Record ClassComparison := mkClassComparison {
  name : jstring;
  node_color : jstring;
  node_attributes : list AttributeComparison;
  node_methods : list MethodComparison;
  inheritance : option InheritanceComparison;
  node_extends : option jstring
}.

Record AttributeSignature := mkAttributeSignature {
  as_modifier : jstring;
  as_type : jstring;
  as_count : nat
}.

Record MethodSignature := mkMethodSignature {
  ms_modifier : jstring;
  ms_returnType : jstring;
  ms_parameters : jstring;
  ms_count : nat
}.

Definition checkAttributeSignature (attributes : list AttributeInfo)
    : list AttributeSignature :=
  map (fun signature =>
         let parts := split_char pipe signature in
         let sigMod := piece 0 parts in
         let sigType := piece 1 parts in
         let count :=
           length (filter (fun attr =>
                     jstring_eqb (modifier_str (attr_modifier attr)) sigMod
                     && jstring_eqb (attr_type attr) sigType) attributes) in
         mkAttributeSignature sigMod sigType count)
      (Set_of (map attributeSignature attributes)).

Definition checkMethodSignature (methods : list MethodInfo)
    : list MethodSignature :=
  map (fun signature =>
         let parts := split_char pipe signature in
         let sigMod := piece 0 parts in
         let sigReturn := piece 1 parts in
         let sigParam := piece 2 parts in
         let count :=
           length (filter (fun method =>
                     jstring_eqb (modifier_str (meth_modifier method)) sigMod
                     && jstring_eqb (returnType method) sigReturn
                     && jstring_eqb (paramTypes method) sigParam) methods) in
         mkMethodSignature sigMod sigReturn sigParam count)
      (Set_of (map methodSignature methods)).

(** [`${head} ${modifier} ${type}`], the start of every attribute message. *)
Definition attr_label (head : string) (sg : AttributeSignature) : jstring :=
  str head ++ str " " ++ as_modifier sg ++ str " " ++ as_type sg.

(** [`${head} ${tempMod}${returnType}(${parameters})`] *)
Definition method_label (head : string) (sg : MethodSignature) : jstring :=
  str head ++ str " " ++ tempMod (ms_modifier sg) ++ ms_returnType sg
    ++ str "(" ++ ms_parameters sg ++ str ")".

(** [` (Count: ${count})`] *)
Definition count_suffix (count : nat) : jstring :=
  str " (Count: " ++ num count ++ str ")".

(** [` (${BoxA} [${count}] x ${BoxB} [${matching.count}])`] *)
Definition versus_suffix (count matching_count : nat) : jstring :=
  str " (" ++ BoxA ++ str " [" ++ num count ++ str "] x " ++ BoxB
    ++ str " [" ++ num matching_count ++ str "])".

(** The entries pushed when the class is not found in [b]. *)
Definition addedAttribute (sg : AttributeSignature) : AttributeComparison :=
  mkComparison (attr_label "+" sg ++ count_suffix (as_count sg)) red
               (Some (as_count sg)).

Definition addedMethod (sg : MethodSignature) : MethodComparison :=
  mkComparison (method_label "+" sg ++ count_suffix (ms_count sg)) red
               (Some (ms_count sg)).

(** The four branches on [matching] and the two counts. *)
Definition gradeEntry (label : string -> jstring) (count : nat)
    (matching : option nat) : AttributeComparison :=
  match matching with
  | None => mkComparison (label "-"%string) red None
  | Some matching_count =>
      if Nat.ltb matching_count count then
        mkComparison (label "-"%string ++ versus_suffix count matching_count)
                     red None
      else if Nat.ltb count matching_count then
        mkComparison (label "~"%string ++ versus_suffix count matching_count)
                     yellow None
      else
        mkComparison (label "+"%string ++ count_suffix count) green (Some count)
  end.

Definition compareAttribute (bAttrSignature : list AttributeSignature)
    (sg : AttributeSignature) : AttributeComparison :=
  let matching :=
    find (fun attr => jstring_eqb (as_modifier attr) (as_modifier sg)
                      && jstring_eqb (as_type attr) (as_type sg))
         bAttrSignature in
  gradeEntry (fun head => attr_label head sg) (as_count sg)
             (option_map as_count matching).

Definition compareMethod (bMethodSignature : list MethodSignature)
    (sg : MethodSignature) : MethodComparison :=
  let matching :=
    find (fun method =>
            jstring_eqb (ms_modifier method) (ms_modifier sg)
            && jstring_eqb (ms_returnType method) (ms_returnType sg)
            && jstring_eqb (ms_parameters method) (ms_parameters sg))
         bMethodSignature in
  gradeEntry (fun head => method_label head sg) (ms_count sg)
             (option_map ms_count matching).

(** [x ? `extends '${x}'` : "didn't extend"]; the empty string is falsy. *)
Definition extends_text (e : option jstring) : jstring :=
  match e with
  | Some ((_ :: _) as x) => str "extends '" ++ x ++ str "'"
  | _ => str "didn't extend"
  end.

Definition inheritance_message (aExtends bExtends : option jstring) : jstring :=
  str "| " ++ BoxA ++ str " " ++ extends_text aExtends ++ str " vs "
    ++ BoxB ++ str " " ++ extends_text bExtends.

(** The node built by one iteration of the loop, from the records found
    for [className]. *)
Definition classNode (className : jstring) (aClass : ClassInfo)
    (bClass : option ClassInfo) : ClassComparison :=
  match bClass with
  | None =>
      mkClassComparison className red
        (map addedAttribute (checkAttributeSignature (attributes aClass)))
        (map addedMethod (checkMethodSignature (methods aClass)))
        None (class_extends aClass)
  | Some bClass =>
      let differs :=
        negb (option_eqb (class_extends aClass) (class_extends bClass)) in
      let aAttrSignature := checkAttributeSignature (attributes aClass) in
      let bAttrSignature := checkAttributeSignature (attributes bClass) in
      let aMethodSignature := checkMethodSignature (methods aClass) in
      let bMethodSignature := checkMethodSignature (methods bClass) in
      mkClassComparison className
        (if differs then red else green)
        (map (compareAttribute bAttrSignature) aAttrSignature)
        (map (compareMethod bMethodSignature) aMethodSignature)
        (if differs
         then Some (mkInheritance
                      (inheritance_message (class_extends aClass)
                                           (class_extends bClass)) red)
         else None)
        (class_extends aClass)
  end.

(** One iteration: [None] stands for the TypeError that reading
    [aClass.extends] would raise if [a.find] returned [undefined]. *)
Definition compareClass (a b : list ClassInfo) (className : jstring)
    : option ClassComparison :=
  match find (has_name className) a with
  | None => None
  | Some aClass =>
      Some (classNode className aClass (find (has_name className) b))
  end.

Fixpoint compareLoop (a b : list ClassInfo) (teacherClassNames : list jstring)
    : option (list ClassComparison) :=
  match teacherClassNames with
  | [] => Some []
  | className :: names =>
      match compareClass a b className with
      | None => None
      | Some node =>
          match compareLoop a b names with
          | None => None
          | Some comparisonTree => Some (node :: comparisonTree)
          end
      end
  end.

Definition compareParsedClasses (a b : list ClassInfo)
    : option (list ClassComparison) :=
  let teacherClassNames := Set_of (map class_name a) in
  compareLoop a b teacherClassNames.

End CompareTree.

(* ================================================================= *)
(** ** The comparator that returns error strings

    The older [compareParsedClasses], whose result is
    [{ Identical: boolean; errors: string[] }]. *)

Module CompareFlat.

(** [[[sigMod, sigType], count]] *)
Definition AttributeSignature := (jstring * jstring * nat)%type.

(** [[[sigMod, sigReturn, sigParam], count]] *)
Definition MethodSignature := (jstring * jstring * jstring * nat)%type.

Definition checkAttributeSignature (attributes : list AttributeInfo)
    : list AttributeSignature :=
  map (fun signature =>
         let parts := split_char pipe signature in
         let sigMod := piece 0 parts in
         let sigType := piece 1 parts in
         let count :=
           length (filter (fun attr =>
                     jstring_eqb (modifier_str (attr_modifier attr)) sigMod
                     && jstring_eqb (attr_type attr) sigType) attributes) in
         (sigMod, sigType, count))
      (Set_of (map attributeSignature attributes)).

Definition checkMethodSignature (methods : list MethodInfo)
    : list MethodSignature :=
  map (fun signature =>
         let parts := split_char pipe signature in
         let sigMod := piece 0 parts in
         let sigReturn := piece 1 parts in
         let sigParam := piece 2 parts in
         let count :=
           length (filter (fun method =>
                     jstring_eqb (modifier_str (meth_modifier method)) sigMod
                     && jstring_eqb (returnType method) sigReturn
                     && jstring_eqb (paramTypes method) sigParam) methods) in
         (sigMod, sigReturn, sigParam, count))
      (Set_of (map methodSignature methods)).

(** [JSON.stringify(x) !== JSON.stringify(y)] on arrays of such tuples:
    [JSON.stringify] is injective on arrays of strings and natural numbers,
    so the test is structural inequality. *)
Fixpoint attr_sigs_eqb (x y : list AttributeSignature) : bool :=
  match x, y with
  | [], [] => true
  | (m1, t1, c1) :: x', (m2, t2, c2) :: y' =>
      jstring_eqb m1 m2 && jstring_eqb t1 t2 && Nat.eqb c1 c2
      && attr_sigs_eqb x' y'
  | _, _ => false
  end.

Fixpoint method_sigs_eqb (x y : list MethodSignature) : bool :=
  match x, y with
  | [], [] => true
  | (m1, r1, p1, c1) :: x', (m2, r2, p2, c2) :: y' =>
      jstring_eqb m1 m2 && jstring_eqb r1 r2 && jstring_eqb p1 p2
      && Nat.eqb c1 c2 && method_sigs_eqb x' y'
  | _, _ => false
  end.

(** [`${BoxA}:[${x}] ${BoxB}:[${y}]`] *)
Definition both (x y : nat) : jstring :=
  BoxA ++ str ":[" ++ num x ++ str "] " ++ BoxB ++ str ":[" ++ num y
    ++ str "]".

Definition classNumberMismatch (a b : list ClassInfo) : jstring :=
  str "Class number mismatch " ++ both (length a) (length b).

(** The errors pushed for one attribute signature of [a]. *)
Definition attributeErrors (className : jstring)
    (bAttrSignature : list AttributeSignature) (entry : AttributeSignature)
    : list jstring :=
  let '(sig0, sig1, count) := entry in
  let matching :=
    find (fun x : AttributeSignature =>
            let '(x0, x1, _) := x in
            jstring_eqb x0 sig0 && jstring_eqb x1 sig1) bAttrSignature in
  match matching with
  | None =>
      [str "Attribute '" ++ sig0 ++ str " " ++ sig1
         ++ str "' missing from class " ++ className ++ str " in " ++ BoxB
         ++ str " result."]
  | Some (_, _, matching1) =>
      if negb (Nat.eqb matching1 count) then
        [str "Attribute '" ++ sig0 ++ str " " ++ sig1
           ++ str "' count mismatch for class " ++ className ++ str ": "
           ++ both count matching1]
      else []
  end.

(** The errors pushed for one method signature of [a]. *)
Definition methodErrors (className : jstring)
    (bMethodSignature : list MethodSignature) (entry : MethodSignature)
    : list jstring :=
  let '(mod_, ret, params, count) := entry in
  let matching :=
    find (fun x : MethodSignature =>
            let '(x0, x1, x2, _) := x in
            jstring_eqb x0 mod_ && jstring_eqb x1 ret && jstring_eqb x2 params)
         bMethodSignature in
  let label :=
    str "Method with signature '" ++ mod_ ++ str " " ++ ret ++ str "("
      ++ params ++ str ")'" in
  match matching with
  | None =>
      [label ++ str " missing from class " ++ className ++ str " in " ++ BoxB
         ++ str " result."]
  | Some (_, _, _, matching1) =>
      if negb (Nat.eqb matching1 count) then
        [label ++ str " count mismatch for class " ++ className ++ str ": "
           ++ both count matching1]
      else []
  end.

(** The errors pushed by one iteration of the loop over the class names of
    [a]. *)
Definition classErrors (className : jstring) (aClass : ClassInfo)
    (bClass : option ClassInfo) : list jstring :=
  match bClass with
  | None =>
      [str "Class " ++ className ++ str " not found in " ++ BoxB
         ++ str " result."]
  | Some bClass =>
      let aAttributes := attributes aClass in
      let bAttributes := attributes bClass in
      let aAttrSignature := checkAttributeSignature aAttributes in
      let bAttrSignature := checkAttributeSignature bAttributes in
      let attributePart :=
        if negb (attr_sigs_eqb aAttrSignature bAttrSignature) then
          (str "Attribute mismatch for class " ++ className ++ str ": "
             ++ both (length aAttributes) (length bAttributes))
          :: flat_map (attributeErrors className bAttrSignature) aAttrSignature
        else [] in
      let aMethods := methods aClass in
      let bMethods := methods bClass in
      let aMethodSignature := checkMethodSignature aMethods in
      let bMethodSignature := checkMethodSignature bMethods in
      let methodPart :=
        if negb (method_sigs_eqb aMethodSignature bMethodSignature) then
          (str "Method mismatch for class " ++ className ++ str ": "
             ++ both (length aMethods) (length bMethods))
          :: flat_map (methodErrors className bMethodSignature) aMethodSignature
        else [] in
      attributePart ++ methodPart
  end.

(** [None] stands for the TypeError raised when [aClass] is [undefined]. *)
Fixpoint compareLoop (a b : list ClassInfo) (teacherClassNames : list jstring)
    : option (list jstring) :=
  match teacherClassNames with
  | [] => Some []
  | className :: names =>
      match find (has_name className) a with
      | None => None
      | Some aClass =>
          match compareLoop a b names with
          | None => None
          | Some errors =>
              Some (classErrors className aClass (find (has_name className) b)
                      ++ errors)
          end
      end
  end.

Record Result := mkResult {
  Identical : bool;
  result_errors : list jstring
}.

Definition compareParsedClasses (a b : list ClassInfo) : option Result :=
  let teacherClassNames := Set_of (map class_name a) in
  let errors :=
    if negb (Nat.eqb (length a) (length b))
    then [classNumberMismatch a b] else [] in
  match compareLoop a b teacherClassNames with
  | None => None
  | Some more =>
      let errors := errors ++ more in
      Some (mkResult (Nat.eqb (length errors) 0) errors)
  end.

End CompareFlat.

(* ================================================================= *)
(** ** Notions used in the statements *)

Definition is_some (A : Type) (o : option A) : bool :=
  match o with Some _ => true | None => false end.

(** [s] starts with the two characters [a], [b]. *)
Definition starts2 (a b : char) (s : jstring) : bool :=
  is_some (prefix_rest [a; b] s).

(** The two characters [a], [b] occur next to each other in [s]. *)
Fixpoint occurs2 (a b : char) (s : jstring) : bool :=
  match s with
  | [] => false
  | _ :: s' => starts2 a b s || occurs2 a b s'
  end.

(** The rest of a line from its first line terminator on. *)
Fixpoint drop_line (s : jstring) : jstring :=
  match s with
  | x :: s' => if dot x then drop_line s' else s
  | [] => []
  end.

(** The input after the line comment that starts [s], if one does. *)
Definition line_rest (s : jstring) : option jstring :=
  option_map drop_line (prefix_rest [slash; slash] s).

(** The input after the first [*/] of [s]. *)
Fixpoint close_rest (s : jstring) : option jstring :=
  match prefix_rest [star; slash] s with
  | Some rest => Some rest
  | None =>
      match s with
      | _ :: s' => close_rest s'
      | [] => None
      end
  end.

(** The input after the block comment that starts [s], if one does. *)
Definition block_rest (s : jstring) : option jstring :=
  match prefix_rest [slash; star] s with
  | Some s1 => close_rest s1
  | None => None
  end.

(** A block comment starts somewhere in [s]. *)
Fixpoint has_block (s : jstring) : bool :=
  match s with
  | [] => false
  | _ :: s' => is_some (block_rest s) || has_block s'
  end.

(** [Subseq u s]: [u] is [s] with some characters deleted. *)
Inductive Subseq : jstring -> jstring -> Prop :=
| Subseq_nil : Subseq [] []
| Subseq_keep x u s : Subseq u s -> Subseq (x :: u) (x :: s)
| Subseq_drop x u s : Subseq u s -> Subseq u (x :: s).

(** Number of newline characters. *)
Definition newlines (s : jstring) : nat :=
  length (filter (fun c => N.eqb c 10) s).

(** The two passes of [removeComments]. *)
Definition withoutLineComments (source : jstring) : jstring :=
  replace_empty lineCommentRegex 0 source.

Definition withoutBlockComments (s : jstring) : jstring :=
  replace_empty blockCommentRegex 0 s.

(** The nodes of a comparison tree for the class name [n]. *)
Definition nodes_named (n : jstring) (out : list CompareTree.ClassComparison)
    : list CompareTree.ClassComparison :=
  filter (fun node => jstring_eqb (CompareTree.name node) n) out.

(** The class names of a list of records. *)
Definition class_names (a : list ClassInfo) : list jstring :=
  map class_name a.

(** The class headers of a source, in the order of the loop of
    [extractClassBodies]. *)
Definition headers (javaSource : jstring) : list (caps * jstring) :=
  exec_all classRegex 0 javaSource.

Definition header_name (m : caps * jstring) : jstring := cap_str 1 (fst m).

(** The brace depth after the header returns to zero before the source
    ends. *)
Definition balanced (m : caps * jstring) : bool :=
  is_some (braceLoop (snd m) 1).

Definition unbalanced (m : caps * jstring) : bool := negb (balanced m).

(** What the matcher computes, as a relation: [Matches r s c s' c'] holds
    when [r] matches the part of [s] before its suffix [s'] and turns the
    captures [c] into [c'], whatever the priority of that way of matching. *)
Inductive Matches : regex -> jstring -> caps -> jstring -> caps -> Prop :=
| Matches_Lit l s s' c :
    s = l ++ s' -> Matches (Lit l) s c s' c
| Matches_Star g p xs s s' c :
    s = xs ++ s' -> forallb p xs = true -> Matches (Star g p) s c s' c
| Matches_Plus g p x xs s s' c :
    s = x :: xs ++ s' -> p x = true -> forallb p xs = true ->
    Matches (Plus g p) s c s' c
| Matches_Cat r1 r2 s c s1 c1 s2 c2 :
    Matches r1 s c s1 c1 -> Matches r2 s1 c1 s2 c2 ->
    Matches (Cat r1 r2) s c s2 c2
| Matches_Or_left r1 r2 s c s' c' :
    Matches r1 s c s' c' -> Matches (Or r1 r2) s c s' c'
| Matches_Or_right r1 r2 s c s' c' :
    Matches r2 s c s' c' -> Matches (Or r1 r2) s c s' c'
| Matches_Opt_taken r s c s' c' :
    Matches r s c s' c' -> Matches (Opt r) s c s' c'
| Matches_Opt_skipped r s c :
    Matches (Opt r) s c s c
| Matches_Group i r s c s' c' :
    Matches r s c s' c' ->
    Matches (Group i r) s c s' (set_cap i (consumed s s') c')
| Matches_Ahead r s c s' c' :
    Matches r s c s' c' -> Matches (Ahead r) s c s c'
| Matches_Eol s c :
    at_eol s = true -> Matches Eol s c s c.

(** No lookahead in [r]. *)
Fixpoint ahead_free (r : regex) : bool :=
  match r with
  | Cat r1 r2 | Or r1 r2 => ahead_free r1 && ahead_free r2
  | Opt r1 | Group _ r1 => ahead_free r1
  | Ahead _ => false
  | _ => true
  end.

(** [s] is empty or its first character is not in the class [p]. *)
Definition head_not (p : char -> bool) (s : jstring) : Prop :=
  match s with
  | [] => True
  | x :: _ => p x = false
  end.

(** [s] is empty or its last character is not in the class [p]. *)
Definition last_not (p : char -> bool) (s : jstring) : Prop :=
  head_not p (rev s).

(** The counts of the two reducers: the attributes with the modifier [m]
    and the type [t], the methods with the modifier [m], the return type
    [r] and the parameter types [ps]. *)
Definition attribute_count (m t : jstring) (attrs : list AttributeInfo) : nat :=
  length (filter (fun attr =>
            jstring_eqb (modifier_str (attr_modifier attr)) m
            && jstring_eqb (attr_type attr) t) attrs).

Definition method_count (m r ps : jstring) (meths : list MethodInfo) : nat :=
  length (filter (fun method =>
            jstring_eqb (modifier_str (meth_modifier method)) m
            && jstring_eqb (returnType method) r
            && jstring_eqb (paramTypes method) ps) meths).

(** A count of the candidate, as the lookup in its signature list gives
    it: nothing when there is no member of the shape. *)
Definition found_count (n : nat) : option nat :=
  if Nat.eqb n 0 then None else Some n.

(** The entry of the specification for an attribute of the reference
    class: graded by the number of attributes of its shape in the two
    classes. *)
Definition attribute_entry (aAttributes bAttributes : list AttributeInfo)
    (attr : AttributeInfo) : CompareTree.AttributeComparison :=
  let m := modifier_str (attr_modifier attr) in
  let t := attr_type attr in
  CompareTree.gradeEntry
    (fun head => str head ++ str " " ++ m ++ str " " ++ t)
    (attribute_count m t aAttributes)
    (found_count (attribute_count m t bAttributes)).

Definition method_entry (aMethods bMethods : list MethodInfo)
    (method : MethodInfo) : CompareTree.MethodComparison :=
  let m := modifier_str (meth_modifier method) in
  let r := returnType method in
  let ps := paramTypes method in
  CompareTree.gradeEntry
    (fun head => str head ++ str " " ++ tempMod m ++ r ++ str "(" ++ ps
                   ++ str ")")
    (method_count m r ps aMethods)
    (found_count (method_count m r ps bMethods)).

(** The added entries of a class that the candidate does not have. *)
Definition added_attribute_entry (aAttributes : list AttributeInfo)
    (attr : AttributeInfo) : CompareTree.AttributeComparison :=
  let m := modifier_str (attr_modifier attr) in
  let t := attr_type attr in
  let k := attribute_count m t aAttributes in
  CompareTree.mkComparison
    (str "+ " ++ m ++ str " " ++ t ++ str " (Count: " ++ num k ++ str ")")
    red (Some k).

Definition added_method_entry (aMethods : list MethodInfo)
    (method : MethodInfo) : CompareTree.MethodComparison :=
  let m := modifier_str (meth_modifier method) in
  let r := returnType method in
  let ps := paramTypes method in
  let k := method_count m r ps aMethods in
  CompareTree.mkComparison
    (str "+ " ++ tempMod m ++ r ++ str "(" ++ ps ++ str ")"
       ++ str " (Count: " ++ num k ++ str ")")
    red (Some k).

(** [s] does not contain the delimiter [|] of the signature strings. *)
Definition pipe_free (s : jstring) : Prop := ~ In pipe s.

Definition clean_attribute (attr : AttributeInfo) : Prop :=
  pipe_free (attr_type attr).

Definition clean_method (method : MethodInfo) : Prop :=
  pipe_free (returnType method) /\
  Forall (fun param => pipe_free (param_type param)) (parameters method).

(** No type string of the class (attribute type, return type, parameter
    type) contains the delimiter. *)
Definition clean_class (c : ClassInfo) : Prop :=
  Forall clean_attribute (attributes c) /\ Forall clean_method (methods c).

(** ** Class records used as examples *)

Definition publicInt (name : string) : AttributeInfo :=
  mkAttribute Mpublic (str "int") (str name).

Definition privateString (name : string) : AttributeInfo :=
  mkAttribute Mprivate (str "String") (str name).

(** [class X { public int a; }] *)
Definition classX : ClassInfo :=
  mkClass (str "X") None [publicInt "a"] [].

(** [class X { public int a; private String s; }] *)
Definition classX_extra : ClassInfo :=
  mkClass (str "X") None [publicInt "a"; privateString "s"] [].

(** [class X { }] *)
Definition classX_empty : ClassInfo :=
  mkClass (str "X") None [] [].

(** [class Y { }] *)
Definition classY : ClassInfo :=
  mkClass (str "Y") None [] [].

(** [class Foo extends Base { public int a; public int b;
    void run(int n) { } }] *)
Definition classFoo : ClassInfo :=
  mkClass (str "Foo") (Some (str "Base")) [publicInt "a"; publicInt "b"]
    [mkMethod Mdefault (str "void") (str "run")
       [mkParameter (str "int") (str "n")]].

(** [class Foo { private String s; }], a later declaration of [Foo]. *)
Definition classFoo_later : ClassInfo :=
  mkClass (str "Foo") None [privateString "s"] [].

(** A class whose method body has a condition with the operator [|], and
    a teacher's and a student's file with such conditions. *)
Definition cutSource : jstring :=
  str "class X { void f() { if (a) { } else if (a | b) { } } }".

Definition cutSource_teacher : jstring :=
  str "class X { void f() { if (a) { } else if (a|b > c) { } } }".

Definition cutSource_student : jstring :=
  str "class X { void f() { if (a) { } else if (a c) { } } }".

(** A class with a local variable in a method body, and what
    [extractClassBodies] makes of it. *)
Definition localSource : jstring :=
  str "class Foo { void f() { int y; return y; } }".

Definition localDecl : ClassDecl :=
  mkClassDecl (str "Foo") None (str "void f() { int y; return y; }").

(** [classFoo] with other names for its members and its parameter. *)
Definition classFoo_renamed : ClassInfo :=
  mkClass (str "Foo") (Some (str "Base")) [publicInt "x"; publicInt "y"]
    [mkMethod Mdefault (str "void") (str "go")
       [mkParameter (str "int") (str "k")]].

(** [classX_extra] with its attributes in the other order. *)
Definition classX_extra_shuffled : ClassInfo :=
  mkClass (str "X") None [privateString "s"; publicInt "a"] [].

(* ================================================================= *)
(** ** App.tsx: pooling the classes of the files of one side *)

Record FileData := mkFileData {
  content : jstring;
  fileName : jstring
}.

(** [files.map((file) => parseJavaFile(file.content))
         .reduce((acc, result) => acc.concat(result.classes), [])] *)
Definition combineClasses (files : list FileData) : list ClassInfo :=
  fold_left (fun acc result => acc ++ classes result)
    (map (fun file => fst (parseJavaFile (content file))) files) [].

(* ================================================================= *)
(** ** Further notions used in the statements *)

(** Number of opening and of closing braces. *)
Definition opens (s : jstring) : nat :=
  length (filter (fun c => char_eqb c lbrace) s).

Definition closes (s : jstring) : nat :=
  length (filter (fun c => char_eqb c rbrace) s).

(** The text [l] occurs in [s]. *)
Fixpoint occurs (l s : jstring) : bool :=
  is_some (prefix_rest l s) ||
  match s with
  | [] => false
  | _ :: s' => occurs l s'
  end.

(** What the comparator reads of a member: not its name, and not the
    names of the parameters. *)
Definition attributeShape (attr : AttributeInfo) : Modifier * jstring :=
  (attr_modifier attr, attr_type attr).

Definition methodShape (method : MethodInfo)
    : Modifier * jstring * list jstring :=
  (meth_modifier method, returnType method,
   map param_type (parameters method)).

(** Two records of one class that differ at most in the names of the
    members and of the parameters. *)
Definition same_shapes (c c' : ClassInfo) : Prop :=
  class_name c = class_name c' /\
  class_extends c = class_extends c' /\
  map attributeShape (attributes c) = map attributeShape (attributes c') /\
  map methodShape (methods c) = map methodShape (methods c').

(** Two records of one class that differ at most in the order of the
    members. *)
Definition permuted_members (c c' : ClassInfo) : Prop :=
  class_name c = class_name c' /\
  class_extends c = class_extends c' /\
  Permutation (attributes c) (attributes c') /\
  Permutation (methods c) (methods c').

(** A non-empty run of the characters of a type token, of a word. *)
Definition type_token (s : jstring) : Prop :=
  s <> [] /\ forallb is_type_char s = true.

Definition word_token (s : jstring) : Prop :=
  s <> [] /\ forallb is_word s = true.

(** No white space in [s]. *)
Definition space_free (s : jstring) : Prop :=
  forallb (fun x => negb (is_space x)) s = true.

Definition rparen : char := 41%N.

(** [Removes comment s removed out]: [out] is [s] without its comments and
    [removed] lists the comments, in their order.  The text is read from
    left to right: where a comment starts, the comment is dropped as a
    whole; any other character is kept.  [comment c rest] says that [c],
    when [rest] follows it, is a comment. *)
Inductive Removes (comment : jstring -> jstring -> Prop)
    : jstring -> list jstring -> jstring -> Prop :=
| Removes_nil : Removes comment [] [] []
| Removes_comment c rest removed out :
    comment c rest -> Removes comment rest removed out ->
    Removes comment (c ++ rest) (c :: removed) out
| Removes_keep x s removed out :
    (forall c rest, comment c rest -> c ++ rest <> x :: s) ->
    Removes comment s removed out ->
    Removes comment (x :: s) removed (x :: out).

(** The text of an access modifier in front of a declaration: nothing
    for [default], else the keyword and the white space [ws] after it. *)
Definition modifier_text (m : Modifier) (ws : jstring) : jstring :=
  match m with
  | Mdefault => []
  | _ => modifier_str m ++ ws
  end.

(** [s] ends with [suffix]. *)
Definition ends_with (suffix s : jstring) : bool :=
  is_some (prefix_rest (rev suffix) (rev s)).

(** [pre] ends with one of the three access modifiers followed by white
    space; [word] is [pre] without the white space at its end. *)
Definition after_modifier (pre : jstring) : bool :=
  let word := rev (trimStart (rev pre)) in
  negb (Nat.eqb (length word) (length pre))
  && (ends_with (str "public") word || ends_with (str "private") word
      || ends_with (str "protected") word).

(** The same, as a proposition about the ways to cut [pre]. *)
Definition no_modifier_before (pre : jstring) : Prop :=
  forall p m ws,
    m <> Mdefault -> ws <> [] -> forallb is_space ws = true ->
    pre <> p ++ modifier_str m ++ ws.

(** A line comment: [//] and the characters up to the end of the line;
    the line terminator is not part of it. *)
Definition line_comment (c rest : jstring) : Prop :=
  exists text,
    c = slash :: slash :: text /\ forallb dot text = true /\
    at_eol rest = true.

(** A block comment: [/*], a text without [*/], and [*/]. *)
Definition block_comment (c rest : jstring) : Prop :=
  exists text,
    c = slash :: star :: text ++ [star; slash] /\
    occurs2 star slash text = false.

(* ================================================================= *)
(** * Properties *)

Unset Implicit Arguments.

(** ** Strings *)

Lemma char_eqb_eq (a b : char) : char_eqb a b = true <-> a = b.
Proof. apply N.eqb_eq. Qed.

Lemma char_eqb_refl (a : char) : char_eqb a a = true.
Proof. apply N.eqb_refl. Qed.

Lemma jstring_eqb_eq (a b : jstring) : jstring_eqb a b = true <-> a = b.
Proof.
  revert b; induction a as [|x a IH]; intros [|y b]; simpl; split;
    try congruence; try reflexivity.
  - intros H. apply andb_true_iff in H as [H1 H2].
    apply char_eqb_eq in H1. apply IH in H2. congruence.
  - intros H. injection H as -> ->. rewrite char_eqb_refl. simpl.
    now apply IH.
Qed.

Lemma jstring_eqb_refl (a : jstring) : jstring_eqb a a = true.
Proof. now apply jstring_eqb_eq. Qed.

Lemma jstring_eqb_neq (a b : jstring) : jstring_eqb a b = false <-> a <> b.
Proof.
  split.
  - intros H E. apply jstring_eqb_eq in E. congruence.
  - intros H. destruct (jstring_eqb a b) eqn:E; [|reflexivity].
    apply jstring_eqb_eq in E. contradiction.
Qed.

(** ** Global replacement *)

Lemma replace_empty_skip r n s :
  replace_empty r n s = replace_empty r 0 (skipn n s).
Proof.
  revert n; induction s as [|x s IH]; intros [|n]; simpl; try reflexivity.
  apply IH.
Qed.

Lemma replace_empty_match r s pre rest c :
  match_at r s = Some (rest, c) -> s = pre ++ rest -> pre <> [] ->
  replace_empty r 0 s = replace_empty r 0 rest.
Proof.
  intros Hm -> Hpre. destruct pre as [|x pre]; [congruence|].
  simpl. unfold match_len. simpl in Hm. rewrite Hm.
  replace (length (x :: pre ++ rest) - length rest) with (S (length pre)).
  - rewrite replace_empty_skip.
    now rewrite skipn_app, skipn_all, Nat.sub_diag.
  - cbn [length]. rewrite length_app. lia.
Qed.

Lemma replace_empty_keep r x s :
  match_at r (x :: s) = None ->
  replace_empty r 0 (x :: s) = x :: replace_empty r 0 s.
Proof. intros Hm. simpl. unfold match_len. now rewrite Hm. Qed.

(** ** The two comment patterns *)

Lemma star_greedy_eol (A : Type) (f : jstring -> A) s :
  star_greedy dot s (fun s' => if at_eol s' then Some (f s') else None)
  = Some (f (drop_line s)).
Proof.
  induction s as [|x s IH]; simpl; [reflexivity|].
  destruct (dot x) eqn:E.
  - now rewrite IH.
  - unfold dot in E. apply negb_false_iff in E. now rewrite E.
Qed.

Lemma drop_line_suffix s : exists pre, s = pre ++ drop_line s.
Proof.
  induction s as [|x s [pre IH]]; simpl.
  - now exists [].
  - destruct (dot x).
    + exists (x :: pre). simpl. now rewrite <- IH.
    + now exists [].
Qed.

Lemma match_at_line s :
  match_at lineCommentRegex s
  = option_map (fun rest => (rest, [Some (consumed s rest)])) (line_rest s).
Proof.
  unfold match_at, lineCommentRegex, line_rest. cbn [run star_run].
  change (str "//") with [slash; slash].
  destruct (prefix_rest [slash; slash] s) as [s1|]; [|reflexivity].
  apply (star_greedy_eol _ (fun s' => (s', [Some (consumed s s')]))).
Qed.

Lemma prefix_rest_app l s rest :
  prefix_rest l s = Some rest -> s = l ++ rest.
Proof.
  revert s; induction l as [|x l IH]; intros s; simpl.
  - now intros [= ->].
  - destruct s as [|y s]; [discriminate|].
    destruct (char_eqb x y) eqn:E; [|discriminate].
    apply char_eqb_eq in E as ->. intros H. now rewrite (IH _ H).
Qed.

Lemma prefix_rest_app_same l rest : prefix_rest l (l ++ rest) = Some rest.
Proof.
  induction l as [|x l IH]; simpl; [reflexivity|].
  now rewrite char_eqb_refl.
Qed.

Lemma line_rest_suffix s rest :
  line_rest s = Some rest -> exists x pre, s = (x :: pre) ++ rest.
Proof.
  unfold line_rest.
  destruct (prefix_rest [slash; slash] s) as [s1|] eqn:E; [|discriminate].
  intros [= <-]. apply prefix_rest_app in E as ->.
  destruct (drop_line_suffix s1) as [pre H].
  exists slash, (slash :: pre). simpl. now rewrite <- H.
Qed.

Lemma star_lazy_close (A : Type) (f : jstring -> A) s :
  star_lazy any s
    (fun s' => match prefix_rest [star; slash] s' with
               | Some s'' => Some (f s'')
               | None => None
               end)
  = option_map f (close_rest s).
Proof.
  induction s as [|x s IH]; [reflexivity|].
  cbn [star_lazy close_rest any].
  destruct (prefix_rest [star; slash] (x :: s)); [reflexivity|].
  exact IH.
Qed.

Lemma match_at_block s :
  match_at blockCommentRegex s
  = option_map (fun rest => (rest, [Some (consumed s rest)])) (block_rest s).
Proof.
  unfold match_at, blockCommentRegex, block_rest. cbn [run star_run].
  change (str "/*") with [slash; star]. change (str "*/") with [star; slash].
  destruct (prefix_rest [slash; star] s) as [s1|]; [|reflexivity].
  apply (star_lazy_close _ (fun s' => (s', [Some (consumed s s')]))).
Qed.

Lemma close_rest_suffix s rest :
  close_rest s = Some rest -> exists pre, s = pre ++ star :: slash :: rest.
Proof.
  induction s as [|x s IH]; cbn [close_rest].
  - simpl. discriminate.
  - destruct (prefix_rest [star; slash] (x :: s)) eqn:E.
    + intros [= ->]. apply prefix_rest_app in E. now exists [].
    + intros H. destruct (IH H) as [pre ->]. now exists (x :: pre).
Qed.

Lemma block_rest_suffix s rest :
  block_rest s = Some rest ->
  exists mid, s = slash :: star :: mid ++ star :: slash :: rest.
Proof.
  unfold block_rest.
  destruct (prefix_rest [slash; star] s) as [s1|] eqn:E; [|discriminate].
  intros H. apply prefix_rest_app in E as ->.
  apply close_rest_suffix in H as [mid ->]. now exists mid.
Qed.


(** The unfolding equations of the two passes. *)
Lemma withoutLineComments_match s rest :
  line_rest s = Some rest ->
  withoutLineComments s = withoutLineComments rest.
Proof.
  intros H. destruct (line_rest_suffix _ _ H) as (x & pre & E).
  unfold withoutLineComments.
  eapply replace_empty_match with (pre := x :: pre); try eassumption.
  - rewrite match_at_line, H. reflexivity.
  - discriminate.
Qed.

Lemma withoutLineComments_keep x s :
  line_rest (x :: s) = None ->
  withoutLineComments (x :: s) = x :: withoutLineComments s.
Proof.
  intros H. apply replace_empty_keep. now rewrite match_at_line, H.
Qed.

Lemma withoutBlockComments_match s rest :
  block_rest s = Some rest ->
  withoutBlockComments s = withoutBlockComments rest.
Proof.
  intros H. destruct (block_rest_suffix _ _ H) as (mid & E).
  unfold withoutBlockComments.
  eapply replace_empty_match
    with (pre := slash :: star :: mid ++ [star; slash]).
  - rewrite match_at_block, H. reflexivity.
  - rewrite E. simpl. now rewrite <- app_assoc.
  - discriminate.
Qed.

Lemma withoutBlockComments_keep x s :
  block_rest (x :: s) = None ->
  withoutBlockComments (x :: s) = x :: withoutBlockComments s.
Proof.
  intros H. apply replace_empty_keep. now rewrite match_at_block, H.
Qed.

Lemma removeComments_passes s :
  removeComments s = withoutBlockComments (withoutLineComments s).
Proof. reflexivity. Qed.

(** Induction on the length of the input, the scheme of every proof about
    the two passes. *)
Lemma length_induction (P : jstring -> Prop) :
  (forall s, (forall t, length t < length s -> P t) -> P s) ->
  forall s, P s.
Proof.
  intros H s. remember (length s) as n eqn:E.
  revert s E. induction n as [n IH] using lt_wf_ind.
  intros s ->. apply H. intros t Ht. now apply (IH (length t)).
Qed.

(** ** Occurrences of two-character marks *)

Lemma starts2_cons a b x s :
  starts2 a b (x :: s) = true ->
  x = a /\ exists s', s = b :: s'.
Proof.
  unfold starts2. simpl.
  destruct (char_eqb a x) eqn:E1; [|discriminate].
  destruct s as [|y s]; [discriminate|].
  destruct (char_eqb b y) eqn:E2; [|discriminate].
  apply char_eqb_eq in E1, E2. subst. eauto.
Qed.

Lemma starts2_same a b s : starts2 a b (a :: b :: s) = true.
Proof. unfold starts2. simpl. now rewrite !char_eqb_refl. Qed.

Lemma occurs2_app_r a b pre s :
  occurs2 a b (pre ++ s) = false -> occurs2 a b s = false.
Proof.
  induction pre as [|x pre IH]; simpl; [easy|].
  intros H. apply orb_false_iff in H as [_ H]. now apply IH.
Qed.

Lemma occurs2_mark a b pre s : occurs2 a b (pre ++ a :: b :: s) = true.
Proof.
  induction pre as [|x pre IH].
  - cbn [app occurs2]. now rewrite starts2_same.
  - cbn [app occurs2]. rewrite IH. apply orb_true_r.
Qed.

Lemma line_rest_not_slash x s : x <> slash -> line_rest (x :: s) = None.
Proof.
  intros H. unfold line_rest. simpl.
  destruct (char_eqb slash x) eqn:E; [|reflexivity].
  apply char_eqb_eq in E. congruence.
Qed.

Lemma block_rest_not_slash x s : x <> slash -> block_rest (x :: s) = None.
Proof.
  intros H. unfold block_rest. simpl.
  destruct (char_eqb slash x) eqn:E; [|reflexivity].
  apply char_eqb_eq in E. congruence.
Qed.

Lemma line_rest_starts s : line_rest s = None -> starts2 slash slash s = false.
Proof.
  unfold line_rest, starts2.
  now destruct (prefix_rest [slash; slash] s).
Qed.

Lemma starts_line_rest s : starts2 slash slash s = false -> line_rest s = None.
Proof.
  unfold line_rest, starts2.
  now destruct (prefix_rest [slash; slash] s).
Qed.

(** After the first pass no [//] is left. *)
Lemma withoutLineComments_clean s :
  occurs2 slash slash (withoutLineComments s) = false.
Proof.
  induction s as [s IH] using length_induction.
  destruct s as [|x s]; [reflexivity|].
  destruct (line_rest (x :: s)) as [rest|] eqn:E.
  - rewrite (withoutLineComments_match _ _ E). apply IH.
    destruct (line_rest_suffix _ _ E) as (y & pre & ->).
    simpl. rewrite length_app. lia.
  - rewrite (withoutLineComments_keep _ _ E). cbn [occurs2].
    rewrite (IH s) by (simpl; lia). rewrite orb_false_r.
    destruct (starts2 slash slash (x :: withoutLineComments s)) eqn:S2;
      [|reflexivity].
    apply starts2_cons in S2 as [-> [s' Hs']].
    apply line_rest_starts in E.
    destruct s as [|y s]; [discriminate|].
    destruct (N.eq_dec y slash) as [->|Hy].
    + now rewrite starts2_same in E.
    + rewrite (withoutLineComments_keep _ _ (line_rest_not_slash _ _ Hy))
        in Hs'.
      congruence.
Qed.

(** A text without [//] is left unchanged by the first pass. *)
Lemma withoutLineComments_id s :
  occurs2 slash slash s = false -> withoutLineComments s = s.
Proof.
  induction s as [|x s IH]; [reflexivity|].
  cbn [occurs2]. intros H. apply orb_false_iff in H as [H1 H2].
  rewrite (withoutLineComments_keep _ _ (starts_line_rest _ H1)).
  now rewrite IH.
Qed.

Lemma block_rest_is_some s :
  is_some (block_rest s) = true -> occurs2 star slash s = true.
Proof.
  destruct (block_rest s) as [rest|] eqn:E; [intros _|discriminate].
  destruct (block_rest_suffix _ _ E) as [mid ->].
  apply (occurs2_mark star slash (slash :: star :: mid)).
Qed.

Lemma close_rest_occurs s :
  is_some (close_rest s) = occurs2 star slash s.
Proof.
  induction s as [|x s IH]; [reflexivity|].
  cbn [close_rest occurs2]. unfold starts2.
  destruct (prefix_rest [star; slash] (x :: s)); [reflexivity|].
  exact IH.
Qed.

(** The second pass keeps the first character of a text that does not
    start with a slash. *)
Lemma withoutBlockComments_head x s :
  x <> slash ->
  withoutBlockComments (x :: s) = x :: withoutBlockComments s.
Proof.
  intros H. apply withoutBlockComments_keep. now apply block_rest_not_slash.
Qed.

(** The second pass makes no new [//]. *)
Lemma withoutBlockComments_clean s :
  occurs2 slash slash s = false ->
  occurs2 slash slash (withoutBlockComments s) = false.
Proof.
  induction s as [s IH] using length_induction. intros Hs.
  destruct s as [|x s]; [reflexivity|].
  destruct (block_rest (x :: s)) as [rest|] eqn:E.
  - rewrite (withoutBlockComments_match _ _ E).
    destruct (block_rest_suffix _ _ E) as [mid Es].
    apply IH.
    + rewrite Es. simpl. rewrite length_app. simpl. lia.
    + rewrite Es in Hs.
      apply (occurs2_app_r slash slash (slash :: star :: mid ++ [star; slash])).
      simpl. rewrite <- app_assoc. exact Hs.
  - rewrite (withoutBlockComments_keep _ _ E).
    cbn [occurs2] in Hs |- *. apply orb_false_iff in Hs as [H1 H2].
    rewrite (IH s) by (simpl; lia || assumption). rewrite orb_false_r.
    destruct (starts2 slash slash (x :: withoutBlockComments s)) eqn:S2;
      [|reflexivity].
    apply starts2_cons in S2 as [-> [s' Hs']].
    destruct s as [|y s]; [discriminate|].
    destruct (N.eq_dec y slash) as [->|Hy].
    + now rewrite starts2_same in H1.
    + rewrite (withoutBlockComments_head _ _ Hy) in Hs'. congruence.
Qed.

(** The second pass makes no new [*/]. *)
Lemma withoutBlockComments_close s :
  occurs2 star slash (withoutBlockComments s) = true ->
  occurs2 star slash s = true.
Proof.
  induction s as [s IH] using length_induction.
  destruct s as [|x s]; [easy|].
  destruct (block_rest (x :: s)) as [rest|] eqn:E.
  - intros _. apply block_rest_is_some. now rewrite E.
  - rewrite (withoutBlockComments_keep _ _ E). cbn [occurs2].
    intros H. apply orb_true_iff in H as [H|H].
    + apply starts2_cons in H as [-> [s' Hs']].
      destruct s as [|y s]; [discriminate|].
      destruct (block_rest (y :: s)) as [rest|] eqn:E'.
      * assert (occurs2 star slash (y :: s) = true) as ->
            by (apply block_rest_is_some; now rewrite E').
        apply orb_true_r.
      * rewrite (withoutBlockComments_keep _ _ E') in Hs'.
        injection Hs' as -> _. now rewrite starts2_same.
    + rewrite (IH s) by (simpl; lia || assumption). apply orb_true_r.
Qed.

(** After the second pass of a text without [//], no block comment is
    left. *)
Lemma withoutBlockComments_no_block s :
  occurs2 slash slash s = false ->
  has_block (withoutBlockComments s) = false.
Proof.
  induction s as [s IH] using length_induction. intros Hs.
  destruct s as [|x s]; [reflexivity|].
  destruct (block_rest (x :: s)) as [rest|] eqn:E.
  - rewrite (withoutBlockComments_match _ _ E).
    destruct (block_rest_suffix _ _ E) as [mid Es].
    apply IH.
    + rewrite Es. simpl. rewrite length_app. simpl. lia.
    + rewrite Es in Hs.
      apply (occurs2_app_r slash slash (slash :: star :: mid ++ [star; slash])).
      simpl. rewrite <- app_assoc. exact Hs.
  - rewrite (withoutBlockComments_keep _ _ E).
    cbn [occurs2] in Hs. apply orb_false_iff in Hs as [H1 H2].
    cbn [has_block]. rewrite (IH s) by (simpl; lia || assumption).
    rewrite orb_false_r.
    destruct (N.eq_dec x slash) as [->|Hx];
      [|now rewrite (block_rest_not_slash _ _ Hx)].
    destruct s as [|y s]; [reflexivity|].
    destruct (N.eq_dec y slash) as [->|Hy];
      [now rewrite starts2_same in H1|].
    rewrite (withoutBlockComments_head _ _ Hy).
    unfold block_rest in E |- *. cbn [prefix_rest] in E |- *.
    rewrite char_eqb_refl in E |- *.
    destruct (char_eqb star y); [|reflexivity].
    destruct (close_rest (withoutBlockComments s)) eqn:C; [|reflexivity].
    assert (occurs2 star slash s = true) as O.
    { apply withoutBlockComments_close.
      rewrite <- close_rest_occurs. now rewrite C. }
    rewrite <- close_rest_occurs, E in O. discriminate.
Qed.

(** A text in which no block comment starts is left unchanged by the
    second pass. *)
Lemma withoutBlockComments_id s :
  has_block s = false -> withoutBlockComments s = s.
Proof.
  induction s as [|x s IH]; [reflexivity|].
  cbn [has_block]. intros H. apply orb_false_iff in H as [H1 H2].
  destruct (block_rest (x :: s)) eqn:E; [discriminate|].
  rewrite (withoutBlockComments_keep _ _ E). now rewrite IH.
Qed.

(** C7.  Comment stripping is idempotent: stripping the comments of a text
    that has already been stripped changes nothing. *)
Theorem removeComments_idempotent (s : jstring) :
  removeComments (removeComments s) = removeComments s.
Proof.
  rewrite !removeComments_passes.
  set (t := withoutLineComments s).
  assert (occurs2 slash slash t = false) as Ht
      by apply withoutLineComments_clean.
  rewrite (withoutLineComments_id (withoutBlockComments t))
    by now apply withoutBlockComments_clean.
  apply withoutBlockComments_id. now apply withoutBlockComments_no_block.
Qed.

(** ** What comment stripping keeps *)

Lemma replace_empty_subseq r n s : Subseq (replace_empty r n s) s.
Proof.
  revert n; induction s as [|x s IH]; intros n; cbn [replace_empty].
  - constructor.
  - destruct n as [|n]; [|apply Subseq_drop, IH].
    destruct (match_len r (x :: s)) as [[|m]|].
    + apply Subseq_keep, IH.
    + apply Subseq_drop, IH.
    + apply Subseq_keep, IH.
Qed.

Lemma Subseq_trans u v w : Subseq u v -> Subseq v w -> Subseq u w.
Proof.
  intros H1 H2. revert u H1.
  induction H2 as [|x v w H2 IH|x v w H2 IH]; intros u H1.
  - exact H1.
  - inversion H1; subst.
    + apply Subseq_keep. now apply IH.
    + apply Subseq_drop. now apply IH.
  - apply Subseq_drop. now apply IH.
Qed.

Lemma Subseq_newlines u s : Subseq u s -> newlines u <= newlines s.
Proof.
  unfold newlines. induction 1 as [|x u s H IH|x u s H IH]; simpl.
  - lia.
  - destruct (N.eqb x 10); simpl; lia.
  - destruct (N.eqb x 10); simpl; lia.
Qed.

Lemma drop_line_newlines s : newlines (drop_line s) = newlines s.
Proof.
  unfold newlines. induction s as [|x s IH]; [reflexivity|].
  cbn [drop_line]. destruct (dot x) eqn:E; [|reflexivity].
  rewrite IH. cbn [filter].
  destruct (N.eqb x 10) eqn:E'; [|reflexivity].
  apply N.eqb_eq in E' as ->. discriminate.
Qed.

(** The first pass deletes no newline. *)
Lemma withoutLineComments_newlines s :
  newlines (withoutLineComments s) = newlines s.
Proof.
  induction s as [s IH] using length_induction.
  destruct s as [|x s]; [reflexivity|].
  destruct (line_rest (x :: s)) as [rest|] eqn:E.
  - rewrite (withoutLineComments_match _ _ E).
    destruct (line_rest_suffix _ _ E) as (y & pre & Es).
    rewrite IH by (rewrite Es; simpl; rewrite length_app; lia).
    unfold line_rest in E.
    destruct (prefix_rest [slash; slash] (x :: s)) as [s1|] eqn:P;
      [|discriminate].
    injection E as <-. apply prefix_rest_app in P. rewrite P.
    now rewrite drop_line_newlines.
  - rewrite (withoutLineComments_keep _ _ E).
    unfold newlines in *. cbn [filter].
    destruct (N.eqb x 10); cbn [length]; now rewrite (IH s) by (simpl; lia).
Qed.

(** C8 fails as stated: the block comment [/*], newline, [*/] is removed
    together with its newline. *)
Lemma removeComments_drops_newline :
  let s := str "int x; /*" ++ [10%N] ++ str "*/ int y;" in
  removeComments s = str "int x;  int y;" /\
  newlines (removeComments s) <> newlines s.
Proof. vm_compute. split; [reflexivity|discriminate]. Qed.

(** ** Sets of names and the lookups of the comparator *)

Lemma existsb_jstring_In x l : existsb (jstring_eqb x) l = true <-> In x l.
Proof.
  rewrite existsb_exists. split.
  - intros [y [H E]]. apply jstring_eqb_eq in E. now subst.
  - intros H. exists x. split; [exact H|apply jstring_eqb_refl].
Qed.

Lemma set_add_In x y acc : In x (set_add acc y) <-> In x acc \/ x = y.
Proof.
  unfold set_add. destruct (existsb (jstring_eqb y) acc) eqn:E.
  - apply existsb_jstring_In in E. split; [tauto|].
    intros [H| ->]; assumption.
  - rewrite in_app_iff. simpl. split; intros [H|H]; auto.
    + destruct H as [H|[]]; auto.
Qed.

Lemma set_add_NoDup y acc : NoDup acc -> NoDup (set_add acc y).
Proof.
  intros H. unfold set_add. destruct (existsb (jstring_eqb y) acc) eqn:E.
  - exact H.
  - apply NoDup_app; [exact H|repeat constructor; easy|].
    intros x Hx [<-|[]].
    apply existsb_jstring_In in Hx. congruence.
Qed.

Lemma fold_set_add_In x l acc :
  In x (fold_left set_add l acc) <-> In x acc \/ In x l.
Proof.
  revert acc; induction l as [|y l IH]; intros acc; simpl.
  - tauto.
  - rewrite IH, set_add_In. intuition congruence.
Qed.

Lemma fold_set_add_NoDup l acc :
  NoDup acc -> NoDup (fold_left set_add l acc).
Proof.
  revert acc; induction l as [|y l IH]; intros acc H; simpl.
  - exact H.
  - now apply IH, set_add_NoDup.
Qed.

Lemma Set_of_In x l : In x (Set_of l) <-> In x l.
Proof. unfold Set_of. rewrite fold_set_add_In. simpl. tauto. Qed.

Lemma Set_of_NoDup l : NoDup (Set_of l).
Proof. apply fold_set_add_NoDup. constructor. Qed.

Lemma find_has_name_Some n a :
  In n (class_names a) -> exists c, find (has_name n) a = Some c.
Proof.
  induction a as [|x a IH]; simpl; [easy|].
  intros [H|H].
  - exists x. unfold has_name. now rewrite H, jstring_eqb_refl.
  - destruct (has_name n x); eauto.
Qed.

(** [find] returns the first record with the name. *)
Lemma find_has_name_first pre c post :
  (forall x, In x pre -> class_name x <> class_name c) ->
  find (has_name (class_name c)) (pre ++ c :: post) = Some c.
Proof.
  induction pre as [|x pre IH]; intros H; simpl.
  - unfold has_name. now rewrite jstring_eqb_refl.
  - unfold has_name at 1.
    assert (jstring_eqb (class_name x) (class_name c) = false) as ->
        by (apply jstring_eqb_neq, H; now left).
    apply IH. intros y Hy. apply H. now right.
Qed.

Lemma find_has_name_name n a c :
  find (has_name n) a = Some c -> class_name c = n.
Proof.
  intros H. apply find_some in H as [_ H]. now apply jstring_eqb_eq in H.
Qed.

Module TreeFacts.
Import CompareTree.

Lemma compareClass_name a b n node :
  compareClass a b n = Some node -> name node = n.
Proof.
  unfold compareClass. destruct (find (has_name n) a); [|discriminate].
  intros [= <-]. unfold classNode.
  now destruct (find (has_name n) b).
Qed.

Lemma compareLoop_Forall2 a b names out :
  compareLoop a b names = Some out <->
  Forall2 (fun n node => compareClass a b n = Some node) names out.
Proof.
  revert out; induction names as [|n names IH]; intros out; simpl.
  - split.
    + intros [= <-]. constructor.
    + intros H. inversion H. reflexivity.
  - destruct (compareClass a b n) as [node|] eqn:E.
    + destruct (compareLoop a b names) as [tree|].
      * split.
        -- intros [= <-]. constructor; [exact E|]. now apply IH.
        -- intros H. inversion H; subst.
           assert (Some tree = Some l') as [= ->] by now apply IH.
           congruence.
      * split; [discriminate|].
        intros H. inversion H; subst.
        assert (None = Some l') by now apply IH. discriminate.
    + split; [discriminate|].
      intros H. inversion H; subst. congruence.
Qed.

(** The loop never raises: every name of the set is the name of a record
    of [a]. *)
Lemma compareLoop_total a b names :
  (forall n, In n names -> In n (class_names a)) ->
  exists out, compareLoop a b names = Some out.
Proof.
  induction names as [|n names IH]; intros H; simpl.
  - eauto.
  - destruct (find_has_name_Some n a) as [c Hc]; [apply H; now left|].
    unfold compareClass. rewrite Hc.
    destruct IH as [out ->]; [intros m Hm; apply H; now right|].
    eauto.
Qed.

Lemma compareLoop_names a b names out :
  compareLoop a b names = Some out -> map name out = names.
Proof.
  rewrite compareLoop_Forall2. induction 1 as [|n node names out H _ IH].
  - reflexivity.
  - simpl. now rewrite IH, (compareClass_name _ _ _ _ H).
Qed.

Lemma nodes_named_absent n out :
  ~ In n (map name out) -> nodes_named n out = [].
Proof.
  induction out as [|x out IH]; intros H; simpl; [reflexivity|].
  destruct (jstring_eqb (name x) n) eqn:E.
  - apply jstring_eqb_eq in E. exfalso. apply H. now left.
  - apply IH. intros H'. apply H. now right.
Qed.

Lemma compareLoop_node a b names out n :
  compareLoop a b names = Some out -> NoDup names -> In n names ->
  exists node, compareClass a b n = Some node /\ nodes_named n out = [node].
Proof.
  intros H. pose proof (compareLoop_names _ _ _ _ H) as Hn.
  apply compareLoop_Forall2 in H. revert Hn.
  induction H as [|m node names out H F IH]; intros Hn ND Hin; [easy|].
  simpl in Hn. injection Hn as Hm Hn.
  inversion ND as [|? ? Hnot ND']; subst.
  unfold nodes_named. cbn [filter].
  destruct Hin as [E|Hin].
  - exists node. split; [now rewrite <- E|].
    rewrite E, jstring_eqb_refl. f_equal.
    apply nodes_named_absent. now rewrite <- E.
  - destruct (jstring_eqb (name node) n) eqn:E.
    + apply jstring_eqb_eq in E. congruence.
    + now apply IH.
Qed.

(** The comparator returns, and its tree has exactly one node for every
    class name of [a]: the node built from the first record with that name
    in [a] and the first one, if any, in [b]. *)
Lemma compare_node a b n :
  In n (class_names a) ->
  exists aClass out,
    find (has_name n) a = Some aClass /\
    compareParsedClasses a b = Some out /\
    nodes_named n out = [classNode n aClass (find (has_name n) b)].
Proof.
  intros Hn. destruct (find_has_name_Some n a Hn) as [aClass Ha].
  destruct (compareLoop_total a b (Set_of (class_names a))) as [out Ho].
  { intros m Hm. now apply Set_of_In. }
  exists aClass, out. split; [exact Ha|]. split; [exact Ho|].
  destruct (compareLoop_node a b _ out n Ho) as (node & Hc & Hf).
  - apply Set_of_NoDup.
  - now apply Set_of_In.
  - rewrite Hf. unfold compareClass in Hc. rewrite Ha in Hc. congruence.
Qed.

Lemma compare_names a b :
  exists out, compareParsedClasses a b = Some out /\
              map name out = Set_of (class_names a).
Proof.
  destruct (compareLoop_total a b (Set_of (class_names a))) as [out Ho].
  { intros m Hm. now apply Set_of_In. }
  exists out. split; [exact Ho|]. now apply compareLoop_names in Ho.
Qed.

End TreeFacts.

(** ** The signature reducers *)

Module SignatureFacts.
Import CompareTree.

Lemma split_char_head sep m t :
  ~ In sep m -> split_char sep (m ++ sep :: t) = m :: split_char sep t.
Proof.
  induction m as [|c m IH]; intros H; cbn [app split_char].
  - now rewrite char_eqb_refl.
  - destruct (char_eqb c sep) eqn:E.
    + apply char_eqb_eq in E. exfalso. apply H. now left.
    + rewrite IH; [reflexivity|]. intros Hin. apply H. now right.
Qed.

Lemma split_char_free sep t : ~ In sep t -> split_char sep t = [t].
Proof.
  induction t as [|c t IH]; intros H; cbn [split_char]; [reflexivity|].
  destruct (char_eqb c sep) eqn:E.
  - apply char_eqb_eq in E. exfalso. apply H. now left.
  - rewrite IH; [reflexivity|]. intros Hin. apply H. now right.
Qed.

Lemma modifier_str_pipe_free m : pipe_free (modifier_str m).
Proof. destruct m; vm_compute; intuition discriminate. Qed.

(** The signature strings split into enough pieces for the destructuring
    of the reducers, and the first piece is the modifier. *)
Lemma split_attributeSignature attr :
  exists p1 rest,
    split_char pipe (attributeSignature attr)
    = modifier_str (attr_modifier attr) :: p1 :: rest.
Proof.
  unfold attributeSignature. cbn [app].
  rewrite split_char_head by apply modifier_str_pipe_free.
  destruct (split_char pipe (attr_type attr)) as [|w ws] eqn:E; [|eauto].
  destruct (attr_type attr) as [|c t]; cbn [split_char] in E; [discriminate|].
  destruct (char_eqb c pipe); [discriminate|].
  destruct (split_char pipe t); discriminate.
Qed.

Lemma split_char_not_nil sep t : split_char sep t <> [].
Proof.
  destruct t as [|c t]; cbn [split_char]; [discriminate|].
  destruct (char_eqb c sep); [discriminate|].
  destruct (split_char sep t); discriminate.
Qed.

Lemma split_char_two sep r t :
  exists p1 p2 rest, split_char sep (r ++ sep :: t) = p1 :: p2 :: rest.
Proof.
  induction r as [|c r (p1 & p2 & rest & IH)]; cbn [app split_char].
  - rewrite char_eqb_refl.
    destruct (split_char sep t) as [|w ws] eqn:E; [|eauto].
    now apply split_char_not_nil in E.
  - destruct (char_eqb c sep).
    + destruct (split_char sep (r ++ sep :: t)) as [|w ws] eqn:E; [|eauto].
      now apply split_char_not_nil in E.
    + rewrite IH. eauto.
Qed.

Lemma split_methodSignature method :
  exists p1 p2 rest,
    split_char pipe (methodSignature method)
    = modifier_str (meth_modifier method) :: p1 :: p2 :: rest.
Proof.
  unfold methodSignature. cbn [app].
  rewrite split_char_head by apply modifier_str_pipe_free.
  destruct (split_char_two pipe (returnType method) (paramTypes method))
    as (p1 & p2 & rest & ->).
  eauto.
Qed.

(** The entry that the attribute reducer makes of the signature string of
    an attribute whose type has no [|]. *)
Lemma attribute_signature_entry attrs attr :
  clean_attribute attr ->
  (let parts := split_char pipe (attributeSignature attr) in
   mkAttributeSignature (piece 0 parts) (piece 1 parts)
     (attribute_count (piece 0 parts) (piece 1 parts) attrs))
  = mkAttributeSignature (modifier_str (attr_modifier attr)) (attr_type attr)
      (attribute_count (modifier_str (attr_modifier attr)) (attr_type attr)
         attrs).
Proof.
  intros Hfree. cbv zeta. unfold attributeSignature. cbn [app].
  rewrite split_char_head by apply modifier_str_pipe_free.
  rewrite (split_char_free _ _ Hfree). reflexivity.
Qed.

Lemma checkAttributeSignature_unfold attrs :
  checkAttributeSignature attrs
  = map (fun signature =>
           let parts := split_char pipe signature in
           mkAttributeSignature (piece 0 parts) (piece 1 parts)
             (attribute_count (piece 0 parts) (piece 1 parts) attrs))
        (Set_of (map attributeSignature attrs)).
Proof. reflexivity. Qed.

(** With clean types, the attribute reducer lists exactly the shapes of
    the attributes, each with the number of attributes of the shape. *)
Lemma checkAttributeSignature_In attrs sg :
  Forall clean_attribute attrs ->
  In sg (checkAttributeSignature attrs) <->
  exists attr, In attr attrs /\
    sg = mkAttributeSignature (modifier_str (attr_modifier attr))
           (attr_type attr)
           (attribute_count (modifier_str (attr_modifier attr))
              (attr_type attr) attrs).
Proof.
  intros Hclean. rewrite Forall_forall in Hclean.
  rewrite checkAttributeSignature_unfold, in_map_iff. split.
  - intros (signature & <- & Hin). apply (proj1 (Set_of_In _ _)) in Hin.
    apply in_map_iff in Hin as (attr & <- & Hin).
    exists attr. split; [exact Hin|].
    apply attribute_signature_entry. now apply Hclean.
  - intros (attr & Hin & ->). exists (attributeSignature attr). split.
    + apply attribute_signature_entry. now apply Hclean.
    + apply Set_of_In. now apply in_map.
Qed.

Lemma attribute_count_positive attrs attr :
  In attr attrs ->
  1 <= attribute_count (modifier_str (attr_modifier attr)) (attr_type attr)
         attrs.
Proof.
  intros Hin. unfold attribute_count.
  match goal with |- 1 <= length (filter ?f attrs) =>
    assert (In attr (filter f attrs)) as H
        by (apply filter_In; split; [exact Hin|now rewrite !jstring_eqb_refl]);
    destruct (filter f attrs); [easy|simpl; lia]
  end.
Qed.

Lemma attribute_count_zero m t attrs :
  attribute_count m t attrs = 0 ->
  forall attr, In attr attrs ->
    ~ (modifier_str (attr_modifier attr) = m /\ attr_type attr = t).
Proof.
  unfold attribute_count. intros H attr Hin [<- <-].
  pose proof (attribute_count_positive attrs attr Hin) as P.
  unfold attribute_count in P. lia.
Qed.

(** The lookup [bAttrSignature.find] of the comparator gives the number of
    attributes of the shape in the candidate class. *)
Lemma find_attribute_count attrs m t :
  Forall clean_attribute attrs ->
  option_map as_count
    (find (fun sg => jstring_eqb (as_modifier sg) m
                     && jstring_eqb (as_type sg) t)
          (checkAttributeSignature attrs))
  = found_count (attribute_count m t attrs).
Proof.
  intros Hclean.
  destruct (find _ (checkAttributeSignature attrs)) as [sg|] eqn:F.
  - apply find_some in F as [Hin Hsg].
    apply andb_true_iff in Hsg as [Hm Ht].
    apply jstring_eqb_eq in Hm, Ht.
    apply (checkAttributeSignature_In attrs sg Hclean) in Hin
      as (attr & Hin & ->).
    cbn [as_modifier as_type] in Hm, Ht. subst m t. cbn [option_map as_count].
    pose proof (attribute_count_positive attrs attr Hin) as P.
    unfold found_count.
    destruct (attribute_count _ _ attrs); [lia|reflexivity].
  - cbn [option_map]. unfold found_count.
    destruct (attribute_count m t attrs) as [|k] eqn:E; [reflexivity|].
    exfalso. unfold attribute_count in E.
    match type of E with length (filter ?f attrs) = _ =>
      destruct (filter f attrs) as [|attr l] eqn:Ef; [discriminate|];
      assert (In attr (filter f attrs)) as Hin by (rewrite Ef; now left)
    end.
    apply filter_In in Hin as [Hin Hsg].
    apply andb_true_iff in Hsg as [Hm Ht].
    apply jstring_eqb_eq in Hm, Ht. subst m t.
    assert (In (mkAttributeSignature (modifier_str (attr_modifier attr))
                  (attr_type attr)
                  (attribute_count (modifier_str (attr_modifier attr))
                     (attr_type attr) attrs))
               (checkAttributeSignature attrs)) as Hentry
        by (apply checkAttributeSignature_In; [assumption|]; eauto).
    pose proof (find_none _ _ F _ Hentry) as F'.
    cbn [as_modifier as_type] in F'. now rewrite !jstring_eqb_refl in F'.
Qed.

(** The same for methods. *)
Lemma join_pipe_free l :
  Forall pipe_free l -> pipe_free (join [comma] l).
Proof.
  induction 1 as [|x l Hx Hl IH]; [easy|].
  destruct l as [|y l]; [exact Hx|].
  change (join [comma] (x :: y :: l))
    with (x ++ [comma] ++ join [comma] (y :: l)).
  intros Hin. apply in_app_or in Hin as [Hin|Hin]; [now apply Hx|].
  destruct Hin as [Hin|Hin]; [discriminate|now apply IH].
Qed.

Lemma clean_method_paramTypes method :
  clean_method method -> pipe_free (paramTypes method).
Proof.
  intros [_ H]. apply join_pipe_free. unfold paramTypes.
  induction H; simpl; constructor; assumption.
Qed.

Lemma method_signature_entry meths method :
  clean_method method ->
  (let parts := split_char pipe (methodSignature method) in
   mkMethodSignature (piece 0 parts) (piece 1 parts) (piece 2 parts)
     (method_count (piece 0 parts) (piece 1 parts) (piece 2 parts) meths))
  = mkMethodSignature (modifier_str (meth_modifier method))
      (returnType method) (paramTypes method)
      (method_count (modifier_str (meth_modifier method)) (returnType method)
         (paramTypes method) meths).
Proof.
  intros Hclean. pose proof (clean_method_paramTypes _ Hclean) as Hp.
  destruct Hclean as [Hr _].
  cbv zeta. unfold methodSignature. cbn [app].
  rewrite split_char_head by apply modifier_str_pipe_free.
  rewrite split_char_head by exact Hr.
  rewrite (split_char_free _ _ Hp). reflexivity.
Qed.

Lemma checkMethodSignature_unfold meths :
  checkMethodSignature meths
  = map (fun signature =>
           let parts := split_char pipe signature in
           mkMethodSignature (piece 0 parts) (piece 1 parts) (piece 2 parts)
             (method_count (piece 0 parts) (piece 1 parts) (piece 2 parts)
                meths))
        (Set_of (map methodSignature meths)).
Proof. reflexivity. Qed.

Lemma checkMethodSignature_In meths sg :
  Forall clean_method meths ->
  In sg (checkMethodSignature meths) <->
  exists method, In method meths /\
    sg = mkMethodSignature (modifier_str (meth_modifier method))
           (returnType method) (paramTypes method)
           (method_count (modifier_str (meth_modifier method))
              (returnType method) (paramTypes method) meths).
Proof.
  intros Hclean. rewrite Forall_forall in Hclean.
  rewrite checkMethodSignature_unfold, in_map_iff. split.
  - intros (signature & <- & Hin). apply (proj1 (Set_of_In _ _)) in Hin.
    apply in_map_iff in Hin as (method & <- & Hin).
    exists method. split; [exact Hin|].
    apply method_signature_entry. now apply Hclean.
  - intros (method & Hin & ->). exists (methodSignature method). split.
    + apply method_signature_entry. now apply Hclean.
    + apply Set_of_In. now apply in_map.
Qed.

Lemma method_count_positive meths method :
  In method meths ->
  1 <= method_count (modifier_str (meth_modifier method)) (returnType method)
         (paramTypes method) meths.
Proof.
  intros Hin. unfold method_count.
  match goal with |- 1 <= length (filter ?f meths) =>
    assert (In method (filter f meths)) as H
        by (apply filter_In; split; [exact Hin|now rewrite !jstring_eqb_refl]);
    destruct (filter f meths); [easy|simpl; lia]
  end.
Qed.

Lemma find_method_count meths m r ps :
  Forall clean_method meths ->
  option_map ms_count
    (find (fun sg => jstring_eqb (ms_modifier sg) m
                     && jstring_eqb (ms_returnType sg) r
                     && jstring_eqb (ms_parameters sg) ps)
          (checkMethodSignature meths))
  = found_count (method_count m r ps meths).
Proof.
  intros Hclean.
  destruct (find _ (checkMethodSignature meths)) as [sg|] eqn:F.
  - apply find_some in F as [Hin Hsg].
    apply andb_true_iff in Hsg as [Hsg Hp].
    apply andb_true_iff in Hsg as [Hm Hr].
    apply jstring_eqb_eq in Hm, Hr, Hp.
    apply (checkMethodSignature_In meths sg Hclean) in Hin
      as (method & Hin & ->).
    cbn [ms_modifier ms_returnType ms_parameters] in Hm, Hr, Hp.
    subst m r ps. cbn [option_map ms_count].
    pose proof (method_count_positive meths method Hin) as P.
    unfold found_count.
    destruct (method_count _ _ _ meths); [lia|reflexivity].
  - cbn [option_map]. unfold found_count.
    destruct (method_count m r ps meths) as [|k] eqn:E; [reflexivity|].
    exfalso. unfold method_count in E.
    match type of E with length (filter ?f meths) = _ =>
      destruct (filter f meths) as [|method l] eqn:Ef; [discriminate|];
      assert (In method (filter f meths)) as Hin by (rewrite Ef; now left)
    end.
    apply filter_In in Hin as [Hin Hsg].
    apply andb_true_iff in Hsg as [Hsg Hp].
    apply andb_true_iff in Hsg as [Hm Hr].
    apply jstring_eqb_eq in Hm, Hr, Hp. subst m r ps.
    assert (In (mkMethodSignature (modifier_str (meth_modifier method))
                  (returnType method) (paramTypes method)
                  (method_count (modifier_str (meth_modifier method))
                     (returnType method) (paramTypes method) meths))
               (checkMethodSignature meths)) as Hentry
        by (apply checkMethodSignature_In; [assumption|]; eauto).
    pose proof (find_none _ _ F _ Hentry) as F'.
    cbn [ms_modifier ms_returnType ms_parameters] in F'.
    now rewrite !jstring_eqb_refl in F'.
Qed.

End SignatureFacts.

Module TreeClaims.
Import CompareTree TreeFacts.

(** C1, as the code has it.  For a class name of A that is found in B, the
    colour of the node follows the inheritance comparison alone: it is the
    mismatch colour (with an inheritance note) when the two [extends]
    values differ and the match colour (without a note) when they are
    equal, whatever the attribute and method entries are. *)
Theorem node_color_follows_inheritance
    (a b : list ClassInfo) (n : jstring) (bClass : ClassInfo) :
  In n (class_names a) ->
  find (has_name n) b = Some bClass ->
  exists aClass out node,
    find (has_name n) a = Some aClass /\
    compareParsedClasses a b = Some out /\
    nodes_named n out = [node] /\
    (class_extends aClass = class_extends bClass ->
       node_color node = green /\ inheritance node = None) /\
    (class_extends aClass <> class_extends bClass ->
       node_color node = red /\
       inheritance node
       = Some (mkInheritance
                 (inheritance_message (class_extends aClass)
                                      (class_extends bClass)) red)).
Proof.
  intros Hn Hb.
  destruct (compare_node a b n Hn) as (aClass & out & Ha & Ho & Hf).
  exists aClass, out, (classNode n aClass (Some bClass)).
  rewrite Hb in Hf. repeat split; try assumption; unfold classNode; simpl.
  - destruct (option_eqb _ _) eqn:E; [reflexivity|].
    destruct (class_extends aClass), (class_extends bClass); simpl in E;
      try discriminate.
    apply jstring_eqb_neq in E. congruence.
  - destruct (option_eqb _ _) eqn:E; [reflexivity|].
    destruct (class_extends aClass), (class_extends bClass); simpl in E;
      try discriminate.
    apply jstring_eqb_neq in E. congruence.
  - destruct (option_eqb _ _) eqn:E; [|reflexivity].
    destruct (class_extends aClass), (class_extends bClass); simpl in E;
      try discriminate; try congruence.
    apply jstring_eqb_eq in E. congruence.
  - destruct (option_eqb _ _) eqn:E; [|reflexivity].
    destruct (class_extends aClass), (class_extends bClass); simpl in E;
      try discriminate; try congruence.
    apply jstring_eqb_eq in E. congruence.
Qed.

Lemma node_color_follows_inheritance_witness :
  In (str "X") (class_names [classX]) /\
  find (has_name (str "X")) [classX_empty] = Some classX_empty /\
  exists aClass out node,
    find (has_name (str "X")) [classX] = Some aClass /\
    compareParsedClasses [classX] [classX_empty] = Some out /\
    nodes_named (str "X") out = [node] /\
    (class_extends aClass = class_extends classX_empty ->
       node_color node = green /\ inheritance node = None) /\
    (class_extends aClass <> class_extends classX_empty ->
       node_color node = red /\
       inheritance node
       = Some (mkInheritance
                 (inheritance_message (class_extends aClass)
                                      (class_extends classX_empty)) red)).
Proof.
  split; [left; reflexivity|]. split; [reflexivity|].
  apply (node_color_follows_inheritance [classX] [classX_empty] (str "X")).
  - left; reflexivity.
  - reflexivity.
Defined.

(** C1 fails as stated: the attribute of the reference class is missing in
    the candidate, the entry has the mismatch colour, and the node keeps the
    match colour. *)
Lemma node_color_ignores_members :
  compareParsedClasses [classX] [classX_empty]
  = Some [mkClassComparison (str "X") green
            [mkComparison (str "- public int") red None] [] None None] /\
  exists node e,
    compareParsedClasses [classX] [classX_empty] = Some [node] /\
    In e (node_attributes node) /\ color e <> green /\
    node_color node = green.
Proof.
  split; [vm_compute; reflexivity|].
  eexists. eexists. split; [vm_compute; reflexivity|].
  split; [left; reflexivity|]. split; [discriminate|reflexivity].
Qed.

(** The entries of a node, whatever the type strings are: they are made
    from the signature list of A's class, one entry per signature string
    and in their order; the signature list of B's class is only searched. *)
Lemma found_class_entries
    (a b : list ClassInfo) (n : jstring) (bClass : ClassInfo) :
  In n (class_names a) ->
  find (has_name n) b = Some bClass ->
  exists aClass out node,
    find (has_name n) a = Some aClass /\
    compareParsedClasses a b = Some out /\
    nodes_named n out = [node] /\
    node_attributes node
    = map (compareAttribute (checkAttributeSignature (attributes bClass)))
          (checkAttributeSignature (attributes aClass)) /\
    node_methods node
    = map (compareMethod (checkMethodSignature (methods bClass)))
          (checkMethodSignature (methods aClass)).
Proof.
  intros Hn Hb.
  destruct (compare_node a b n Hn) as (aClass & out & Ha & Ho & Hf).
  exists aClass, out, (classNode n aClass (Some bClass)).
  rewrite Hb in Hf. repeat split; assumption.
Qed.

Lemma compareAttribute_entry aAttributes bAttributes attr :
  Forall clean_attribute bAttributes ->
  compareAttribute (checkAttributeSignature bAttributes)
    (mkAttributeSignature (modifier_str (attr_modifier attr)) (attr_type attr)
       (attribute_count (modifier_str (attr_modifier attr)) (attr_type attr)
          aAttributes))
  = attribute_entry aAttributes bAttributes attr.
Proof.
  intros Hb. unfold compareAttribute, attribute_entry.
  cbn [as_modifier as_type as_count].
  now rewrite SignatureFacts.find_attribute_count.
Qed.

Lemma compareMethod_entry aMethods bMethods method :
  Forall clean_method bMethods ->
  compareMethod (checkMethodSignature bMethods)
    (mkMethodSignature (modifier_str (meth_modifier method))
       (returnType method) (paramTypes method)
       (method_count (modifier_str (meth_modifier method))
          (returnType method) (paramTypes method) aMethods))
  = method_entry aMethods bMethods method.
Proof.
  intros Hb. unfold compareMethod, method_entry.
  cbn [ms_modifier ms_returnType ms_parameters ms_count].
  now rewrite SignatureFacts.find_method_count.
Qed.

(** The entries of a class found in both lists, when no type string of
    the two classes contains the delimiter [|] of the signature strings:
    every entry of the node is the graded entry of a signature that occurs
    in A's class, every signature of A's class has its entry, and there is
    one entry per distinct signature of A's class; a signature of B's class
    alone makes no entry. *)
Theorem reference_signatures_only
    (a b : list ClassInfo) (n : jstring) (bClass : ClassInfo) :
  In n (class_names a) ->
  find (has_name n) b = Some bClass ->
  (forall c, find (has_name n) a = Some c -> clean_class c) ->
  clean_class bClass ->
  (exists aClass out node,
    find (has_name n) a = Some aClass /\
    compareParsedClasses a b = Some out /\
    nodes_named n out = [node] /\
    (forall e, In e (node_attributes node) <->
       exists attr, In attr (attributes aClass) /\
         e = attribute_entry (attributes aClass) (attributes bClass) attr) /\
    (forall e, In e (node_methods node) <->
       exists method, In method (methods aClass) /\
         e = method_entry (methods aClass) (methods bClass) method) /\
    length (node_attributes node)
    = length (Set_of (map attributeSignature (attributes aClass))) /\
    length (node_methods node)
    = length (Set_of (map methodSignature (methods aClass)))).
Proof.
  intros Hn Hb Ha' [HbA HbM].
  destruct (found_class_entries a b n bClass Hn Hb)
    as (aClass & out & node & Ha & Ho & Hf & EA & EM).
  destruct (Ha' aClass Ha) as [HaA HaM].
  exists aClass, out, node. repeat split; try assumption.
  - rewrite EA. intros He. apply in_map_iff in He as (sg & <- & Hsg).
    apply (SignatureFacts.checkAttributeSignature_In _ _ HaA) in Hsg
      as (attr & Hin & ->).
    exists attr. split; [exact Hin|]. now apply compareAttribute_entry.
  - rewrite EA. intros (attr & Hin & ->). apply in_map_iff.
    eexists. split; [now apply compareAttribute_entry|].
    apply SignatureFacts.checkAttributeSignature_In; eauto.
  - rewrite EM. intros He. apply in_map_iff in He as (sg & <- & Hsg).
    apply (SignatureFacts.checkMethodSignature_In _ _ HaM) in Hsg
      as (method & Hin & ->).
    exists method. split; [exact Hin|]. now apply compareMethod_entry.
  - rewrite EM. intros (method & Hin & ->). apply in_map_iff.
    eexists. split; [now apply compareMethod_entry|].
    apply SignatureFacts.checkMethodSignature_In; eauto.
  - rewrite EA. unfold checkAttributeSignature. now rewrite !length_map.
  - rewrite EM. unfold checkMethodSignature. now rewrite !length_map.
Qed.

Lemma reference_signatures_only_witness :
  (In (str "X") (class_names [classX]) /\
   find (has_name (str "X")) [classX_extra] = Some classX_extra /\
   (forall c, find (has_name (str "X")) [classX] = Some c -> clean_class c) /\
   clean_class classX_extra) /\
  (exists aClass out node,
    find (has_name (str "X")) [classX] = Some aClass /\
    compareParsedClasses [classX] [classX_extra] = Some out /\
    nodes_named (str "X") out = [node] /\
    (forall e, In e (node_attributes node) <->
       exists attr, In attr (attributes aClass) /\
         e = attribute_entry (attributes aClass) (attributes classX_extra)
               attr) /\
    (forall e, In e (node_methods node) <->
       exists method, In method (methods aClass) /\
         e = method_entry (methods aClass) (methods classX_extra) method) /\
    length (node_attributes node)
    = length (Set_of (map attributeSignature (attributes aClass))) /\
    length (node_methods node)
    = length (Set_of (map methodSignature (methods aClass)))).
Proof.
  assert (clean_class classX) as HX
      by (repeat constructor; vm_compute; intuition discriminate).
  assert (clean_class classX_extra) as HE
      by (repeat constructor; vm_compute; intuition discriminate).
  assert (forall c, find (has_name (str "X")) [classX] = Some c ->
                    clean_class c) as HA
      by (intros c [= <-]; exact HX).
  split.
  - split; [left; reflexivity|]. split; [reflexivity|]. split; assumption.
  - apply (reference_signatures_only [classX] [classX_extra] (str "X")
             classX_extra); try assumption.
    + left; reflexivity.
    + reflexivity.
Defined.

(** The example of the specification, evaluated: B's class has one more
    field, [private String], and the attribute entries are the single ok
    entry of [public int]. *)
Example extra_field_not_reported :
  compareParsedClasses [classX] [classX_extra]
  = Some [mkClassComparison (str "X") green
            [mkComparison (str "+ public int (Count: 1)") green (Some 1)]
            [] None None].
Proof. vm_compute. reflexivity. Qed.

(** C2 on the failing input.  [checkMethodSignature] joins modifier,
    return type and parameter types with [|] and cuts the joined string at
    every [|] again, keeping the first three pieces.  The statement
    [else if (a | b) {] of a method body is taken by the method pattern as
    a method with the parameter type [a |]; its signature comes back from
    the reducer as [else(a )] with the count 0.  Compared with itself, the
    class has an entry for [else(a )], which is no signature of A's class,
    and none for [else(a |)].  With [a|b > c] in the teacher's file and a
    method [else(a)] in the student's, the entry is about [else(a)], a
    signature of B's class alone. *)
Theorem delimiter_cuts_found_signature :
  let f := mkMethod Mdefault (str "void") (str "f") [] in
  let g := mkMethod Mdefault (str "else") (str "if")
             [mkParameter (str "a |") (str "b")] in
  let g' := mkMethod Mdefault (str "else") (str "if")
              [mkParameter (str "a|b >") (str "c")] in
  let h := mkMethod Mdefault (str "else") (str "if")
             [mkParameter (str "a") (str "c")] in
  let a := classes (fst (parseJavaFile cutSource)) in
  let a' := classes (fst (parseJavaFile cutSource_teacher)) in
  let b' := classes (fst (parseJavaFile cutSource_student)) in
  (a = [mkClass (str "X") None [] [f; g]] /\
   checkMethodSignature [f; g]
   = [mkMethodSignature (str "default") (str "void") [] 1;
      mkMethodSignature (str "default") (str "else") (str "a ") 0] /\
   compareParsedClasses a a
   = Some [mkClassComparison (str "X") green []
             [mkComparison (str "+ void() (Count: 1)") green (Some 1);
              mkComparison (str "+ else(a ) (Count: 0)") green (Some 0)]
             None None] /\
   method_entry [f; g] [f; g] g
   = mkComparison (str "+ else(a |) (Count: 1)") green (Some 1)) /\
  (a' = [mkClass (str "X") None [] [f; g']] /\
   b' = [mkClass (str "X") None [] [f; h]] /\
   compareParsedClasses a' b'
   = Some [mkClassComparison (str "X") green []
             [mkComparison (str "+ void() (Count: 1)") green (Some 1);
              mkComparison (str "~ else(a) (Teacher [0] x Student [1])")
                yellow None]
             None None] /\
   method_entry [f; g'] [f; h] g'
   = mkComparison (str "- else(a|b >)") red None).
Proof. vm_compute. repeat split. Qed.

(** The node of a class that B does not have, whatever the type strings
    are: its entries are the added entries of the signature list of A's
    class. *)
Lemma missing_class_entries (a b : list ClassInfo) (n : jstring) :
  In n (class_names a) ->
  ~ In n (class_names b) ->
  exists aClass out node,
    find (has_name n) a = Some aClass /\
    compareParsedClasses a b = Some out /\
    nodes_named n out = [node] /\
    node_color node = red /\
    inheritance node = None /\
    node_attributes node
    = map addedAttribute (checkAttributeSignature (attributes aClass)) /\
    node_methods node
    = map addedMethod (checkMethodSignature (methods aClass)).
Proof.
  intros Hn Hb.
  destruct (compare_node a b n Hn) as (aClass & out & Ha & Ho & Hf).
  assert (find (has_name n) b = None) as Hnone.
  { destruct (find (has_name n) b) as [c|] eqn:E; [|reflexivity].
    exfalso. apply Hb. pose proof (find_has_name_name _ _ _ E) as <-.
    apply find_some in E as [E _]. now apply in_map. }
  exists aClass, out, (classNode n aClass None).
  rewrite Hnone in Hf. repeat split; assumption.
Qed.

Lemma addedAttribute_entry aAttributes attr :
  addedAttribute
    (mkAttributeSignature (modifier_str (attr_modifier attr)) (attr_type attr)
       (attribute_count (modifier_str (attr_modifier attr)) (attr_type attr)
          aAttributes))
  = added_attribute_entry aAttributes attr.
Proof.
  unfold addedAttribute, added_attribute_entry, attr_label, count_suffix.
  cbn [as_modifier as_type as_count]. f_equal.
  simpl. repeat (rewrite <- app_assoc; simpl). reflexivity.
Qed.

Lemma addedMethod_entry aMethods method :
  addedMethod
    (mkMethodSignature (modifier_str (meth_modifier method))
       (returnType method) (paramTypes method)
       (method_count (modifier_str (meth_modifier method))
          (returnType method) (paramTypes method) aMethods))
  = added_method_entry aMethods method.
Proof.
  unfold addedMethod, added_method_entry, method_label, count_suffix.
  cbn [ms_modifier ms_returnType ms_parameters ms_count]. f_equal.
  simpl. repeat (rewrite <- app_assoc; simpl). reflexivity.
Qed.

(** The node of a class name of A that is absent from B: the comparator
    returns (no exception is raised) and its tree has exactly one node for
    the name; the node has the mismatch colour and no inheritance note,
    and no comparison with B is made.  When no type string of A's class
    contains the delimiter [|] of the signature strings, the entries of
    the node are the added entries (leading [+], mismatch colour) of the
    attribute and method signatures of A's class, each with the count of
    its signature. *)
Theorem missing_class_all_added (a b : list ClassInfo) (n : jstring) :
  In n (class_names a) ->
  ~ In n (class_names b) ->
  exists aClass out node,
    find (has_name n) a = Some aClass /\
    compareParsedClasses a b = Some out /\
    nodes_named n out = [node] /\
    node_color node = red /\
    inheritance node = None /\
    (clean_class aClass ->
     (forall e, In e (node_attributes node) <->
        exists attr, In attr (attributes aClass) /\
          e = added_attribute_entry (attributes aClass) attr) /\
     (forall e, In e (node_methods node) <->
        exists method, In method (methods aClass) /\
          e = added_method_entry (methods aClass) method)).
Proof.
  intros Hn Hb.
  destruct (missing_class_entries a b n Hn Hb)
    as (aClass & out & node & Ha & Ho & Hf & Hc & Hi & EA & EM).
  exists aClass, out, node.
  split; [exact Ha|]. split; [exact Ho|]. split; [exact Hf|].
  split; [exact Hc|]. split; [exact Hi|].
  intros [HaA HaM]. repeat split.
  - rewrite EA. intros He. apply in_map_iff in He as (sg & <- & Hsg).
    apply (SignatureFacts.checkAttributeSignature_In _ _ HaA) in Hsg
      as (attr & Hin & ->).
    exists attr. split; [exact Hin|]. apply addedAttribute_entry.
  - rewrite EA. intros (attr & Hin & ->). apply in_map_iff.
    eexists. split; [apply addedAttribute_entry|].
    apply SignatureFacts.checkAttributeSignature_In; eauto.
  - rewrite EM. intros He. apply in_map_iff in He as (sg & <- & Hsg).
    apply (SignatureFacts.checkMethodSignature_In _ _ HaM) in Hsg
      as (method & Hin & ->).
    exists method. split; [exact Hin|]. apply addedMethod_entry.
  - rewrite EM. intros (method & Hin & ->). apply in_map_iff.
    eexists. split; [apply addedMethod_entry|].
    apply SignatureFacts.checkMethodSignature_In; eauto.
Qed.

Lemma missing_class_all_added_witness :
  (In (str "Foo") (class_names [classFoo]) /\
   ~ In (str "Foo") (class_names [classX])) /\
  exists aClass out node,
    find (has_name (str "Foo")) [classFoo] = Some aClass /\
    compareParsedClasses [classFoo] [classX] = Some out /\
    nodes_named (str "Foo") out = [node] /\
    node_color node = red /\
    inheritance node = None /\
    (clean_class aClass ->
     (forall e, In e (node_attributes node) <->
        exists attr, In attr (attributes aClass) /\
          e = added_attribute_entry (attributes aClass) attr) /\
     (forall e, In e (node_methods node) <->
        exists method, In method (methods aClass) /\
          e = added_method_entry (methods aClass) method)).
Proof.
  assert (In (str "Foo") (class_names [classFoo])) as H1
      by (left; reflexivity).
  assert (~ In (str "Foo") (class_names [classX])) as H2
      by (simpl; intuition discriminate).
  split; [split; assumption|].
  exact (missing_class_all_added [classFoo] [classX] (str "Foo") H1 H2).
Defined.

(** C6 on the failing input.  The class [X] of the teacher's file is
    absent from the student's file.  The statement [else if (a | b) {] of
    a method body is taken by the method pattern as a method with the
    parameter type [a |]; [checkMethodSignature] cuts its joined signature
    string at every [|], and the node has the entry of [else(a )] with the
    count 0: the signature [else(a |)] of A's class does not appear, and
    neither does its count 1. *)
Theorem delimiter_cuts_added_signature :
  let f := mkMethod Mdefault (str "void") (str "f") [] in
  let g := mkMethod Mdefault (str "else") (str "if")
             [mkParameter (str "a |") (str "b")] in
  let a := classes (fst (parseJavaFile cutSource)) in
  let b := classes (fst (parseJavaFile (str "class Bar { }"))) in
  a = [mkClass (str "X") None [] [f; g]] /\
  b = [mkClass (str "Bar") None [] []] /\
  compareParsedClasses a b
  = Some [mkClassComparison (str "X") red []
            [mkComparison (str "+ void() (Count: 1)") red (Some 1);
             mkComparison (str "+ else(a ) (Count: 0)") red (Some 0)]
            None None] /\
  added_method_entry [f; g] g
  = mkComparison (str "+ else(a |) (Count: 1)") red (Some 1).
Proof. vm_compute. repeat split. Qed.

(** The missing class of the specification, evaluated: A = {Foo}, B = {}. *)
Example missing_class_Foo :
  compareParsedClasses [classFoo] []
  = Some [mkClassComparison (str "Foo") red
            [mkComparison (str "+ public int (Count: 2)") red (Some 2)]
            [mkComparison (str "+ void(int) (Count: 1)") red (Some 1)]
            None (Some (str "Base"))].
Proof. vm_compute. reflexivity. Qed.

(** C9.  When the reference list has several records with one name (the
    record [c], none with its name before it, any records after it), the
    tree has exactly one node for the name, and the node is built from [c]
    and from the first record with the name in B's order; the later
    records with the name are not read. *)
Theorem first_record_wins
    (pre : list ClassInfo) (c : ClassInfo) (post b : list ClassInfo) :
  (forall x, In x pre -> class_name x <> class_name c) ->
  exists out,
    compareParsedClasses (pre ++ c :: post) b = Some out /\
    nodes_named (class_name c) out
    = [classNode (class_name c) c (find (has_name (class_name c)) b)] /\
    (forall preb d postb,
       b = preb ++ d :: postb ->
       class_name d = class_name c ->
       (forall x, In x preb -> class_name x <> class_name c) ->
       nodes_named (class_name c) out
       = [classNode (class_name c) c (Some d)]).
Proof.
  intros Hpre.
  destruct (compare_node (pre ++ c :: post) b (class_name c))
    as (aClass & out & Ha & Ho & Hf).
  { unfold class_names. rewrite map_app. apply in_or_app. right. now left. }
  rewrite (find_has_name_first pre c post Hpre) in Ha. injection Ha as <-.
  exists out. split; [exact Ho|]. split; [exact Hf|].
  intros preb d postb -> Hd Hpreb. rewrite Hf. do 2 f_equal.
  rewrite <- Hd. apply find_has_name_first. now rewrite Hd.
Qed.

Lemma first_record_wins_witness :
  (forall x, In x [classY] -> class_name x <> class_name classFoo) /\
  exists out,
    compareParsedClasses ([classY] ++ classFoo :: [classFoo_later; classY])
                         [classX; classFoo_later; classFoo] = Some out /\
    nodes_named (class_name classFoo) out
    = [classNode (class_name classFoo) classFoo
         (find (has_name (class_name classFoo))
               [classX; classFoo_later; classFoo])] /\
    (forall preb d postb,
       [classX; classFoo_later; classFoo] = preb ++ d :: postb ->
       class_name d = class_name classFoo ->
       (forall x, In x preb -> class_name x <> class_name classFoo) ->
       nodes_named (class_name classFoo) out
       = [classNode (class_name classFoo) classFoo (Some d)]).
Proof.
  assert (forall x, In x [classY] -> class_name x <> class_name classFoo) as H.
  { intros x [<-|[]]. discriminate. }
  split; [exact H|].
  exact (first_record_wins [classY] classFoo [classFoo_later; classY]
           [classX; classFoo_later; classFoo] H).
Defined.

(** Two declarations of [Foo] in A and two in B, evaluated: one node, made
    from the first of each. *)
Example duplicate_Foo :
  compareParsedClasses [classY; classFoo; classFoo_later; classY]
                       [classX; classFoo_later; classFoo]
  = Some [mkClassComparison (str "Y") red [] [] None None;
          classNode (str "Foo") classFoo (Some classFoo_later)].
Proof. vm_compute. reflexivity. Qed.

(** C5 fails as stated for the comparator that returns the tree: with one
    class in A and two in B its output is the single node of the class of
    A, the same output as for equal numbers of classes. *)
Lemma class_number_mismatch_not_in_tree :
  length [classX] <> length [classX; classY] /\
  compareParsedClasses [classX] [classX; classY]
  = Some [mkClassComparison (str "X") green
            [mkComparison (str "+ public int (Count: 1)") green (Some 1)]
            [] None None] /\
  compareParsedClasses [classX] [classX; classY]
  = compareParsedClasses [classX] [classX].
Proof. vm_compute. split; [discriminate|]. split; reflexivity. Qed.

End TreeClaims.

(** ** The comparator that returns error strings *)

Module FlatFacts.
Import CompareFlat.

Lemma flat_compareLoop_total a b names :
  (forall n, In n names -> In n (class_names a)) ->
  exists more, compareLoop a b names = Some more.
Proof.
  induction names as [|n names IH]; intros H; simpl.
  - eauto.
  - destruct (find_has_name_Some n a) as [c Hc]; [apply H; now left|].
    rewrite Hc.
    destruct IH as [more ->]; [intros m Hm; apply H; now right|].
    eauto.
Qed.

End FlatFacts.

(** C5, as the code has it.  When the two lists differ in length, the
    comparator that returns error strings reports it first: its result is
    not identical and its errors start with the advisory that gives both
    lengths, followed by the errors of the loop over the classes, which do
    not depend on it.  The comparator that returns the tree has no such
    advisory: its output is one node per distinct class name of A and
    nothing else. *)
Theorem class_number_mismatch_advisory (a b : list ClassInfo) :
  length a <> length b ->
  (exists r more,
     CompareFlat.compareParsedClasses a b = Some r /\
     CompareFlat.Identical r = false /\
     CompareFlat.compareLoop a b (Set_of (class_names a)) = Some more /\
     CompareFlat.result_errors r
     = (str "Class number mismatch Teacher:[" ++ num (length a)
          ++ str "] Student:[" ++ num (length b) ++ str "]") :: more) /\
  (exists out,
     CompareTree.compareParsedClasses a b = Some out /\
     map CompareTree.name out = Set_of (class_names a)).
Proof.
  intros Hlen. split; [|apply TreeFacts.compare_names].
  destruct (FlatFacts.flat_compareLoop_total a b (Set_of (class_names a)))
    as [more Hm].
  { intros n Hn. now apply Set_of_In. }
  unfold CompareFlat.compareParsedClasses. fold (class_names a). rewrite Hm.
  apply Nat.eqb_neq in Hlen. rewrite Hlen. cbn [negb].
  eexists. exists more. split; [reflexivity|]. split; [reflexivity|].
  split; [reflexivity|]. reflexivity.
Qed.

Lemma class_number_mismatch_advisory_witness :
  length [classX] <> length [classX; classY] /\
  (exists r more,
     CompareFlat.compareParsedClasses [classX] [classX; classY] = Some r /\
     CompareFlat.Identical r = false /\
     CompareFlat.compareLoop [classX] [classX; classY]
       (Set_of (class_names [classX])) = Some more /\
     CompareFlat.result_errors r
     = (str "Class number mismatch Teacher:[" ++ num (length [classX])
          ++ str "] Student:[" ++ num (length [classX; classY]) ++ str "]")
       :: more) /\
  (exists out,
     CompareTree.compareParsedClasses [classX] [classX; classY] = Some out /\
     map CompareTree.name out = Set_of (class_names [classX])).
Proof.
  assert (length [classX] <> length [classX; classY]) as H by discriminate.
  split; [exact H|].
  exact (class_number_mismatch_advisory [classX] [classX; classY] H).
Defined.

(** The same two lists, evaluated with the comparator that returns error
    strings. *)
Example class_number_mismatch_X :
  CompareFlat.compareParsedClasses [classX] [classX; classY]
  = Some (CompareFlat.mkResult false
            [str "Class number mismatch Teacher:[1] Student:[2]"]).
Proof. vm_compute. reflexivity. Qed.

(** ** Class bodies *)

Lemma lefts_extractClass hs :
  map decl_name (lefts (map extractClass hs))
  = map header_name (filter balanced hs).
Proof.
  induction hs as [|[c rest] hs IH]; [reflexivity|].
  cbn [map filter]. unfold balanced at 1, extractClass at 1. cbn [snd].
  destruct (braceLoop rest 1); cbn [is_some lefts map]; now rewrite IH.
Qed.

Lemma rights_extractClass hs :
  rights (map extractClass hs)
  = map (fun m => unmatched_message (header_name m)) (filter unbalanced hs).
Proof.
  induction hs as [|[c rest] hs IH]; [reflexivity|].
  cbn [map filter]. unfold unbalanced at 1, balanced at 1, extractClass at 1.
  cbn [snd].
  destruct (braceLoop rest 1); cbn [is_some negb rights map]; now rewrite IH.
Qed.

Lemma lefts_extractClass_nil hs :
  lefts (map extractClass hs) = [] <-> existsb balanced hs = false.
Proof.
  induction hs as [|[c rest] hs IH]; [easy|].
  cbn [map existsb]. unfold balanced at 1, extractClass at 1. cbn [snd].
  destruct (braceLoop rest 1); cbn [is_some lefts orb]; [easy|exact IH].
Qed.

(** C3, as the code has it.  A class header whose brace depth never
    returns to zero makes no ClassRecord, and a line that names the class
    is written to the console; the loop goes on with the next headers, and
    the classes of the result are those of the balanced headers, in order.
    The errors of the result are not touched: they are empty when a class
    was extracted, and the single string about no class declaration
    otherwise. *)
Theorem unbalanced_class_dropped (source : jstring) :
  let hs := headers (removeComments source) in
  let result := fst (parseJavaFile source) in
  let console := snd (parseJavaFile source) in
  map class_name (classes result) = map header_name (filter balanced hs) /\
  console = map (fun m => unmatched_message (header_name m))
                (filter unbalanced hs) /\
  errors result
  = (if existsb balanced hs then []
     else [str "No class declarations found."]).
Proof.
  cbv zeta. unfold parseJavaFile, parseJavaClasses, extractClassBodies, headers.
  set (hs := exec_all classRegex 0 (removeComments source)).
  pose proof (lefts_extractClass hs) as HL.
  pose proof (rights_extractClass hs) as HR.
  pose proof (lefts_extractClass_nil hs) as HN.
  destruct (lefts (map extractClass hs)) as [|d ds] eqn:E.
  - cbn [fst snd classes errors map]. rewrite (proj1 HN eq_refl).
    split; [exact HL|]. split; [exact HR|reflexivity].
  - cbn [fst snd classes errors]. rewrite map_map. cbn [class_name].
    split; [exact HL|]. split; [exact HR|].
    destruct (existsb balanced hs); [reflexivity|].
    destruct HN as [_ HN]. discriminate (HN eq_refl).
Qed.

(** C3 fails as stated: the braces of [A] never close, [B] is extracted,
    and the errors of the result are empty; the class [A] is named on the
    console only. *)
Lemma unbalanced_class_not_in_errors :
  let source := str "class A { class B { int z; }" in
  map header_name (filter unbalanced (headers (removeComments source)))
  = [str "A"] /\
  parseJavaFile source
  = (mkParseResult
       [mkClass (str "B") None [mkAttribute Mdefault (str "int") (str "z")] []]
       [],
     [unmatched_message (str "A")]) /\
  errors (fst (parseJavaFile source)) = [].
Proof. vm_compute. repeat split. Qed.

(** ** Constructors and the method pattern *)

(** C4 on the failing input: a constructor with an access modifier is
    matched by the method pattern, the modifier taken as return type. *)
Theorem constructor_parsed_as_method :
  parseJavaMethods (str "public Foo(int x) { this.x = x; }")
  = [mkMethod Mdefault (str "public") (str "Foo")
       [mkParameter (str "int") (str "x")]] /\
  parseJavaFile (str "class Foo { int x; public Foo(int x) { this.x = x; } }")
  = (mkParseResult
       [mkClass (str "Foo") None
          [mkAttribute Mdefault (str "int") (str "x")]
          [mkMethod Mdefault (str "public") (str "Foo")
             [mkParameter (str "int") (str "x")]]]
       [],
     []).
Proof. vm_compute. split; reflexivity. Qed.

(** A constructor without a modifier at the start of a body is not
    matched. *)
Example constructor_without_modifier :
  parseJavaMethods (str "Foo(int x) { this.x = x; }") = [].
Proof. vm_compute. reflexivity. Qed.

(** ** The matcher and the matching relation *)

Module RegexFacts.

Lemma star_greedy_sound (A : Type) p s (k : jstring -> option A) a :
  star_greedy p s k = Some a ->
  exists xs s', s = xs ++ s' /\ forallb p xs = true /\ k s' = Some a.
Proof.
  induction s as [|x s IH]; simpl.
  - intros H. now exists [], [].
  - destruct (p x) eqn:Px.
    + destruct (star_greedy p s k) as [a'|] eqn:E.
      * intros [= <-]. destruct (IH eq_refl) as (xs & s' & -> & Hxs & Hk).
        exists (x :: xs), s'. simpl. now rewrite Px.
      * intros H. now exists [], (x :: s).
    + intros H. now exists [], (x :: s).
Qed.

Lemma star_lazy_sound (A : Type) p s (k : jstring -> option A) a :
  star_lazy p s k = Some a ->
  exists xs s', s = xs ++ s' /\ forallb p xs = true /\ k s' = Some a.
Proof.
  induction s as [|x s IH]; simpl.
  - destruct (k []) eqn:E; [|discriminate]. intros [= <-]. now exists [], [].
  - destruct (k (x :: s)) eqn:E.
    + intros [= <-]. now exists [], (x :: s).
    + destruct (p x) eqn:Px; [|discriminate].
      intros H. destruct (IH H) as (xs & s' & -> & Hxs & Hk).
      exists (x :: xs), s'. simpl. now rewrite Px.
Qed.

Lemma star_run_sound (A : Type) g p s (k : jstring -> option A) a :
  star_run g p s k = Some a ->
  exists xs s', s = xs ++ s' /\ forallb p xs = true /\ k s' = Some a.
Proof.
  destruct g; [apply star_greedy_sound|apply star_lazy_sound].
Qed.

(** Every result of the matcher is a match of the relation. *)
Lemma run_sound (A : Type) r :
  forall s c (k : jstring -> caps -> option A) a,
    run r s c k = Some a ->
    exists s' c', Matches r s c s' c' /\ k s' c' = Some a.
Proof.
  revert A.
  induction r as [l|g p|g p|r1 IH1 r2 IH2|r1 IH1 r2 IH2|r1 IH1|i r1 IH1
                 |r1 IH1|]; intros A s c k a; cbn [run].
  - destruct (prefix_rest l s) as [s'|] eqn:E; [|discriminate].
    intros H. exists s', c. split; [|exact H].
    constructor. now apply prefix_rest_app.
  - intros H. apply star_run_sound in H as (xs & s' & -> & Hxs & Hk).
    exists s', c. split; [|exact Hk]. now apply Matches_Star with xs.
  - destruct s as [|x s]; [discriminate|].
    destruct (p x) eqn:Px; [|discriminate].
    intros H. apply star_run_sound in H as (xs & s' & -> & Hxs & Hk).
    exists s', c. split; [|exact Hk]. now apply Matches_Plus with x xs.
  - intros H. apply IH1 in H as (s1 & c1 & M1 & H).
    apply IH2 in H as (s2 & c2 & M2 & H).
    exists s2, c2. split; [|exact H]. now apply Matches_Cat with s1 c1.
  - destruct (run r1 s c k) as [a'|] eqn:E.
    + intros [= <-]. apply IH1 in E as (s' & c' & M1 & H).
      exists s', c'. split; [|exact H]. now apply Matches_Or_left.
    + intros H. apply IH2 in H as (s' & c' & M1 & H).
      exists s', c'. split; [|exact H]. now apply Matches_Or_right.
  - destruct (run r1 s c k) as [a'|] eqn:E.
    + intros [= <-]. apply IH1 in E as (s' & c' & M1 & H).
      exists s', c'. split; [|exact H]. now apply Matches_Opt_taken.
    + intros H. exists s, c. split; [|exact H]. apply Matches_Opt_skipped.
  - intros H. apply IH1 in H as (s' & c' & M1 & H).
    exists s', (set_cap i (consumed s s') c'). split; [|exact H].
    now apply Matches_Group.
  - destruct (run r1 s c (fun _ c' => Some c')) as [c1|] eqn:E; [|discriminate].
    intros H. apply IH1 in E as (s' & c' & M1 & [= ->]).
    exists s, c1. split; [|exact H]. now apply Matches_Ahead with s'.
  - destruct (at_eol s) eqn:E; [|discriminate].
    intros H. exists s, c. split; [|exact H]. now apply Matches_Eol.
Qed.

Lemma star_greedy_complete (A : Type) p xs s' (k : jstring -> option A) a :
  forallb p xs = true -> k s' = Some a ->
  exists a', star_greedy p (xs ++ s') k = Some a'.
Proof.
  intros Hxs Hk. induction xs as [|x xs IH]; simpl.
  - destruct s' as [|y s']; simpl; [eauto|].
    destruct (p y); [|eauto].
    destruct (star_greedy p s' k); eauto.
  - simpl in Hxs. apply andb_true_iff in Hxs as [Px Hxs]. rewrite Px.
    destruct (IH Hxs) as [a' ->]. eauto.
Qed.

Lemma star_lazy_complete (A : Type) p xs s' (k : jstring -> option A) a :
  forallb p xs = true -> k s' = Some a ->
  exists a', star_lazy p (xs ++ s') k = Some a'.
Proof.
  intros Hxs Hk. induction xs as [|x xs IH]; simpl.
  - destruct s' as [|y s']; simpl; rewrite Hk; eauto.
  - simpl in Hxs. apply andb_true_iff in Hxs as [Px Hxs]. rewrite Px.
    destruct (k (x :: xs ++ s')); eauto.
Qed.

Lemma star_run_complete (A : Type) g p xs s' (k : jstring -> option A) a :
  forallb p xs = true -> k s' = Some a ->
  exists a', star_run g p (xs ++ s') k = Some a'.
Proof.
  destruct g; [apply star_greedy_complete|apply star_lazy_complete].
Qed.

(** When the relation has a match that the continuation accepts, the
    matcher returns a result (that of the way of matching with the highest
    priority). *)
Lemma run_complete r s c s' c' :
  Matches r s c s' c' -> ahead_free r = true ->
  forall (A : Type) (k : jstring -> caps -> option A) a,
    k s' c' = Some a -> exists a', run r s c k = Some a'.
Proof.
  induction 1 as [l s s' c E|g p xs s s' c E Hxs|g p x xs s s' c E Px Hxs
                 |r1 r2 s c s1 c1 s2 c2 M1 IH1 M2 IH2
                 |r1 r2 s c s' c' M1 IH1|r1 r2 s c s' c' M1 IH1
                 |r1 s c s' c' M1 IH1|r1 s c|i r1 s c s' c' M1 IH1
                 |r1 s c s' c' M1 IH1|s c E];
    intros AF A k a Hk; cbn [run]; cbn [ahead_free] in AF.
  - subst s. rewrite prefix_rest_app_same. eauto.
  - subst s. now apply star_run_complete with a.
  - subst s. rewrite Px. now apply star_run_complete with a.
  - apply andb_true_iff in AF as [AF1 AF2].
    destruct (IH2 AF2 A k a Hk) as [a2 H2].
    apply (IH1 AF1 A (fun s' c' => run r2 s' c' k) a2 H2).
  - apply andb_true_iff in AF as [AF1 AF2].
    destruct (IH1 AF1 A k a Hk) as [a1 ->]. eauto.
  - apply andb_true_iff in AF as [AF1 AF2].
    destruct (run r1 s c k); [eauto|]. now apply IH1 with a.
  - destruct (IH1 AF A k a Hk) as [a1 ->]. eauto.
  - destruct (run r1 s c k); eauto.
  - apply (IH1 AF A (fun s' c' => k s' (set_cap i (consumed s s') c')) a Hk).
  - discriminate.
  - rewrite E. eauto.
Qed.

Lemma match_at_sound r s rest c :
  match_at r s = Some (rest, c) ->
  exists c', Matches r s [] rest c' /\ c = set_cap 0 (consumed s rest) c'.
Proof.
  unfold match_at. intros H. apply run_sound in H as (s' & c' & M & [= -> <-]).
  eauto.
Qed.

Lemma match_at_complete r s rest c :
  Matches r s [] rest c -> ahead_free r = true ->
  exists m, match_at r s = Some m.
Proof.
  intros M AF. unfold match_at.
  now apply (run_complete r s [] rest c M AF _ _
               (rest, set_cap 0 (consumed s rest) c)).
Qed.

(** What a match consumes is in front of what it leaves. *)
Lemma Matches_suffix r s c s' c' :
  Matches r s c s' c' -> exists m, s = m ++ s'.
Proof.
  induction 1 as [l s s' c E|g p xs s s' c E Hxs|g p x xs s s' c E Px Hxs
                 |r1 r2 s c s1 c1 s2 c2 M1 [m1 IH1] M2 [m2 IH2]
                 |r1 r2 s c s' c' M1 IH1|r1 r2 s c s' c' M1 IH1
                 |r1 s c s' c' M1 IH1|r1 s c|i r1 s c s' c' M1 IH1
                 |r1 s c s' c' M1 IH1|s c E].
  - now exists l.
  - now exists xs.
  - now exists (x :: xs).
  - exists (m1 ++ m2). rewrite IH1, IH2. now rewrite app_assoc.
  - exact IH1.
  - exact IH1.
  - exact IH1.
  - now exists [].
  - exact IH1.
  - now exists [].
  - now exists [].
Qed.

Lemma consumed_app m s : consumed (m ++ s) s = m.
Proof.
  unfold consumed. rewrite length_app, Nat.add_sub.
  now rewrite firstn_app, firstn_all, Nat.sub_diag, app_nil_r.
Qed.

Lemma cap_set_cap_same i v c : cap i (set_cap i v c) = Some v.
Proof.
  unfold cap. revert c; induction i as [|i IH]; intros [|x c]; simpl;
    try reflexivity; apply IH.
Qed.

Lemma cap_set_cap_other i j v c : i <> j -> cap i (set_cap j v c) = cap i c.
Proof.
  unfold cap. revert j c; induction i as [|i IH]; intros [|j] [|x c] H; simpl;
    try reflexivity; try congruence.
  - now destruct i.
  - rewrite IH by congruence. now destruct i.
  - apply IH. congruence.
Qed.

End RegexFacts.

(** ** Character classes *)

Ltac class_bounds H :=
  repeat (rewrite ?orb_true_iff, ?andb_true_iff, ?N.eqb_eq, ?N.leb_le in H).

Lemma is_type_char_bounds c :
  is_type_char c = true -> (48 <= c <= 122)%N /\ c <> semicolon.
Proof.
  unfold is_type_char, is_word, semicolon. intros H. class_bounds H. lia.
Qed.

Lemma is_space_bounds c :
  is_space c = true -> (c <= 32 \/ 160 <= c)%N.
Proof. unfold is_space. intros H. class_bounds H. lia. Qed.

Lemma is_word_type_char c : is_word c = true -> is_type_char c = true.
Proof. unfold is_type_char. now intros ->. Qed.

Lemma type_char_not_space c : is_type_char c = true -> is_space c = false.
Proof.
  intros H. apply is_type_char_bounds in H.
  destruct (is_space c) eqn:E; [|reflexivity].
  apply is_space_bounds in E. lia.
Qed.

Lemma space_not_type_char c : is_space c = true -> is_type_char c = false.
Proof.
  intros H. destruct (is_type_char c) eqn:E; [|reflexivity].
  apply type_char_not_space in E. congruence.
Qed.

Lemma word_not_space c : is_word c = true -> is_space c = false.
Proof. intros H. now apply type_char_not_space, is_word_type_char. Qed.

Lemma space_not_word c : is_space c = true -> is_word c = false.
Proof.
  intros H. destruct (is_word c) eqn:E; [|reflexivity].
  apply word_not_space in E. congruence.
Qed.

Lemma space_not_semicolon c : is_space c = true -> c <> semicolon.
Proof.
  intros H. apply is_space_bounds in H. unfold semicolon. lia.
Qed.

Lemma forallb_not_In (p : char -> bool) x l :
  forallb p l = true -> (forall c, p c = true -> c <> x) -> ~ In x l.
Proof.
  intros H Hp Hin. rewrite forallb_forall in H.
  now apply (Hp x (H x Hin)).
Qed.

(** ** Runs of one character class *)

Lemma run_unique_left (p : char -> bool) xs ys a b :
  forallb p xs = true -> forallb p ys = true ->
  head_not p a -> head_not p b ->
  xs ++ a = ys ++ b -> xs = ys /\ a = b.
Proof.
  revert ys; induction xs as [|x xs IH]; intros [|y ys] Hx Hy Ha Hb E;
    simpl in *.
  - easy.
  - subst a. simpl in Ha. apply andb_true_iff in Hy as [Hy _]. congruence.
  - subst b. simpl in Hb. apply andb_true_iff in Hx as [Hx _]. congruence.
  - apply andb_true_iff in Hx as [_ Hx], Hy as [_ Hy].
    injection E as -> E. destruct (IH ys Hx Hy Ha Hb E) as [-> ->]. easy.
Qed.

Lemma run_unique_right (p : char -> bool) xs ys a b :
  forallb p xs = true -> forallb p ys = true ->
  last_not p a -> last_not p b ->
  a ++ xs = b ++ ys -> a = b /\ xs = ys.
Proof.
  intros Hx Hy Ha Hb E. apply (f_equal (@rev char)) in E.
  rewrite !rev_app_distr in E.
  destruct (run_unique_left p (rev xs) (rev ys) (rev a) (rev b)) as [E1 E2];
    try assumption.
  - rewrite forallb_forall in *. intros c Hc. apply Hx. now apply in_rev.
  - rewrite forallb_forall in *. intros c Hc. apply Hy. now apply in_rev.
  - split.
    + now rewrite <- (rev_involutive a), E2, rev_involutive.
    + now rewrite <- (rev_involutive xs), E1, rev_involutive.
Qed.

(** A text that ends with a non-empty run of the class [q] does not end
    with a character of a class [p] disjoint from [q]. *)
Lemma last_not_run (p q : char -> bool) a xs :
  (forall c, q c = true -> p c = false) ->
  xs <> [] -> forallb q xs = true -> last_not p (a ++ xs).
Proof.
  intros D Hne Hq. unfold last_not. rewrite rev_app_distr.
  destruct (rev xs) as [|x r] eqn:E.
  - apply (f_equal (@rev char)) in E. rewrite rev_involutive in E.
    simpl in E. congruence.
  - simpl. apply D. rewrite forallb_forall in Hq. apply Hq, in_rev.
    rewrite E. now left.
Qed.

Lemma last_not_tail (p : char -> bool) x s :
  last_not p (x :: s) -> last_not p s.
Proof.
  unfold last_not. simpl. destruct (rev s); simpl; easy.
Qed.

(** The text in front of the first occurrence of a character. *)
Lemma first_occurrence_unique (m : char) x y a b :
  ~ In m x -> ~ In m y -> x ++ m :: a = y ++ m :: b -> x = y /\ a = b.
Proof.
  revert y; induction x as [|c x IH]; intros [|d y] Hx Hy E; simpl in *.
  - now injection E.
  - injection E as <- _. tauto.
  - injection E as -> _. tauto.
  - injection E as -> E. destruct (IH y) as [-> ->]; tauto.
Qed.

Lemma first_occurrence_split (m : char) l :
  In m l -> exists l1 l2, l = l1 ++ m :: l2 /\ ~ In m l1.
Proof.
  induction l as [|c l IH]; [easy|].
  intros H. destruct (N.eq_dec c m) as [->|Hc].
  - now exists [], l.
  - destruct H as [H|H]; [contradiction|].
    destruct (IH H) as (l1 & l2 & -> & Hn).
    exists (c :: l1), l2. split; [reflexivity|].
    intros [E|E]; [contradiction|tauto].
Qed.

(** ** The shape of a match of the attribute pattern *)

Module AttributeFacts.
Import RegexFacts.

Lemma Matches_Cat_inv r1 r2 s c s2 c2 :
  Matches (Cat r1 r2) s c s2 c2 ->
  exists s1 c1, Matches r1 s c s1 c1 /\ Matches r2 s1 c1 s2 c2.
Proof. inversion 1; subst; eauto. Qed.

Lemma Matches_Plus_inv g p s c s' c' :
  Matches (Plus g p) s c s' c' ->
  c' = c /\ exists xs, xs <> [] /\ forallb p xs = true /\ s = xs ++ s'.
Proof.
  inversion 1; subst. split; [reflexivity|].
  exists (x :: xs). split; [discriminate|]. split; [|reflexivity].
  simpl. apply andb_true_iff. split; assumption.
Qed.

Lemma Matches_Star_inv g p s c s' c' :
  Matches (Star g p) s c s' c' ->
  c' = c /\ exists xs, forallb p xs = true /\ s = xs ++ s'.
Proof. inversion 1; subst. eauto. Qed.

Lemma Matches_Lit_inv l s c s' c' :
  Matches (Lit l) s c s' c' -> c' = c /\ s = l ++ s'.
Proof. inversion 1; subst. eauto. Qed.

Lemma Matches_Group_inv i r s c s' c' :
  Matches (Group i r) s c s' c' ->
  exists c0, Matches r s c s' c0 /\ c' = set_cap i (consumed s s') c0.
Proof. inversion 1; subst. eauto. Qed.

Lemma Matches_Opt_inv r s c s' c' :
  Matches (Opt r) s c s' c' ->
  Matches r s c s' c' \/ (s' = s /\ c' = c).
Proof. inversion 1; subst; eauto. Qed.

Lemma Matches_Or_inv r1 r2 s c s' c' :
  Matches (Or r1 r2) s c s' c' ->
  Matches r1 s c s' c' \/ Matches r2 s c s' c'.
Proof. inversion 1; subst; eauto. Qed.

(** A match of the optional modifier: nothing, or one of the three words
    followed by white space. *)
Lemma modifierPrefix_shape s c s' c' :
  Matches modifierPrefix s c s' c' ->
  exists mo, s = mo ++ s' /\ last_not is_type_char mo /\ ~ In semicolon mo.
Proof.
  unfold modifierPrefix. intros H.
  apply Matches_Opt_inv in H as [H|[-> ->]].
  - apply Matches_Cat_inv in H as (s1 & c1 & H1 & H2).
    apply Matches_Plus_inv in H2 as (-> & ws & Hne & Hws & ->).
    apply Matches_Group_inv in H1 as (c0 & H1 & _).
    assert (exists l, s = l ++ ws ++ s' /\ ~ In semicolon l) as (l & -> & Hl).
    { apply Matches_Or_inv in H1 as [H1|H1];
        [|apply Matches_Or_inv in H1 as [H1|H1]];
        apply Matches_Lit_inv in H1 as [_ ->]; eexists; (split; [reflexivity|]);
        vm_compute; intuition discriminate. }
    exists (l ++ ws). rewrite <- app_assoc. split; [reflexivity|]. split.
    + apply last_not_run with is_space; try assumption.
      apply space_not_type_char.
    + intros Hin. apply in_app_or in Hin as [Hin|Hin]; [tauto|].
      revert Hin. apply forallb_not_In with is_space; [assumption|].
      apply space_not_semicolon.
  - exists []. repeat split. simpl. tauto.
Qed.

Lemma attribute_match_shape s rest c :
  match_at attributeRegex s = Some (rest, c) ->
  exists mo ty w1 nm w2,
    s = mo ++ ty ++ w1 ++ nm ++ w2 ++ semicolon :: rest /\
    last_not is_type_char mo /\ ~ In semicolon mo /\
    ty <> [] /\ forallb is_type_char ty = true /\
    w1 <> [] /\ forallb is_space w1 = true /\
    nm <> [] /\ forallb is_word nm = true /\
    forallb is_space w2 = true /\
    cap 2 c = Some ty /\ cap 3 c = Some nm.
Proof.
  intros H. apply match_at_sound in H as (c' & M & ->).
  unfold attributeRegex in M.
  apply Matches_Cat_inv in M as (s1 & c1 & M1 & M).
  apply modifierPrefix_shape in M1 as (mo & -> & Hmo & Hsemi).
  apply Matches_Cat_inv in M as (s2 & c2 & M2 & M).
  apply Matches_Group_inv in M2 as (c0 & M2 & ->).
  apply Matches_Plus_inv in M2 as (-> & ty & Hty & Fty & ->).
  apply Matches_Cat_inv in M as (s3 & c3 & M3 & M).
  apply Matches_Plus_inv in M3 as (-> & w1 & Hw1 & Fw1 & ->).
  apply Matches_Cat_inv in M as (s4 & c4 & M4 & M).
  apply Matches_Group_inv in M4 as (c5 & M4 & ->).
  apply Matches_Plus_inv in M4 as (-> & nm & Hnm & Fnm & ->).
  apply Matches_Cat_inv in M as (s5 & c6 & M5 & M).
  apply Matches_Star_inv in M5 as (-> & w2 & Fw2 & ->).
  apply Matches_Lit_inv in M as (-> & ->).
  exists mo, ty, w1, nm, w2. repeat split; try assumption.
  - rewrite cap_set_cap_other by discriminate.
    rewrite cap_set_cap_other by discriminate.
    rewrite consumed_app. apply cap_set_cap_same.
  - rewrite cap_set_cap_other by discriminate.
    rewrite consumed_app. apply cap_set_cap_same.
Qed.

End AttributeFacts.

(** ** Comment stripping removes the comments and nothing else *)

Module CommentFacts.

Lemma drop_line_split s :
  exists text,
    s = text ++ drop_line s /\ forallb dot text = true /\
    at_eol (drop_line s) = true.
Proof.
  induction s as [|x s (text & E & F & H)]; [now exists []|].
  cbn [drop_line]. destruct (dot x) eqn:Ex.
  - exists (x :: text). cbn [app forallb]. rewrite Ex, F. now rewrite <- E.
  - exists []. cbn [app forallb at_eol]. repeat split.
    unfold dot in Ex. now apply negb_false_iff in Ex.
Qed.

Lemma line_rest_comment s rest :
  line_rest s = Some rest -> exists c, s = c ++ rest /\ line_comment c rest.
Proof.
  unfold line_rest.
  destruct (prefix_rest [slash; slash] s) as [s1|] eqn:E; [|discriminate].
  intros [= <-]. apply prefix_rest_app in E as ->.
  destruct (drop_line_split s1) as (text & E & F & H).
  exists (slash :: slash :: text). split.
  - cbn [app]. now rewrite <- E.
  - exists text. auto.
Qed.

Lemma line_comment_starts c rest :
  line_comment c rest -> line_rest (c ++ rest) <> None.
Proof.
  intros (text & -> & _ & _). unfold line_rest.
  change ((slash :: slash :: text) ++ rest)
    with ([slash; slash] ++ (text ++ rest)).
  rewrite prefix_rest_app_same. discriminate.
Qed.

(** The first pass drops the line comments and keeps the rest. *)
Lemma withoutLineComments_removes s :
  exists removed, Removes line_comment s removed (withoutLineComments s).
Proof.
  induction s as [s IH] using length_induction.
  destruct s as [|x s]; [exists []; constructor|].
  destruct (line_rest (x :: s)) as [rest|] eqn:E.
  - rewrite (withoutLineComments_match _ _ E).
    destruct (line_rest_comment _ _ E) as (c & Es & Hc).
    destruct (IH rest) as [removed Hr].
    { destruct (line_rest_suffix _ _ E) as (y & pre & ->).
      simpl. rewrite length_app. lia. }
    exists (c :: removed). rewrite Es. now constructor.
  - rewrite (withoutLineComments_keep _ _ E).
    destruct (IH s) as [removed Hr]; [simpl; lia|].
    exists removed. apply Removes_keep; [|exact Hr].
    intros c rest Hc Ec. apply line_comment_starts in Hc.
    now rewrite Ec in Hc.
Qed.

Lemma close_rest_first s rest :
  close_rest s = Some rest ->
  exists text,
    s = text ++ star :: slash :: rest /\ occurs2 star slash text = false.
Proof.
  induction s as [|x s IH]; cbn [close_rest].
  - simpl. discriminate.
  - destruct (prefix_rest [star; slash] (x :: s)) as [r|] eqn:E.
    + intros [= ->]. apply prefix_rest_app in E. now exists [].
    + intros H. destruct (IH H) as (text & -> & Ht).
      exists (x :: text). split; [reflexivity|].
      cbn [occurs2]. rewrite Ht, orb_false_r.
      destruct (starts2 star slash (x :: text)) eqn:S2; [|reflexivity].
      apply starts2_cons in S2 as [-> [t' ->]].
      cbn [app prefix_rest] in E. rewrite !char_eqb_refl in E.
      discriminate.
Qed.

Lemma block_rest_comment s rest :
  block_rest s = Some rest ->
  exists c, s = c ++ rest /\ block_comment c rest.
Proof.
  unfold block_rest.
  destruct (prefix_rest [slash; star] s) as [s1|] eqn:E; [|discriminate].
  intros H. apply prefix_rest_app in E as ->.
  apply close_rest_first in H as (text & -> & Ht).
  exists (slash :: star :: text ++ [star; slash]). split.
  - cbn [app]. now rewrite <- app_assoc.
  - exists text. auto.
Qed.

Lemma block_comment_starts c rest :
  block_comment c rest -> block_rest (c ++ rest) <> None.
Proof.
  intros (text & -> & _). unfold block_rest.
  change ((slash :: star :: text ++ [star; slash]) ++ rest)
    with ([slash; star] ++ ((text ++ [star; slash]) ++ rest)).
  rewrite prefix_rest_app_same, <- app_assoc. cbn [app].
  pose proof (close_rest_occurs (text ++ star :: slash :: rest)) as H.
  rewrite occurs2_mark in H.
  destruct (close_rest (text ++ star :: slash :: rest));
    [discriminate|discriminate H].
Qed.

(** The second pass drops the block comments and keeps the rest. *)
Lemma withoutBlockComments_removes s :
  exists removed, Removes block_comment s removed (withoutBlockComments s).
Proof.
  induction s as [s IH] using length_induction.
  destruct s as [|x s]; [exists []; constructor|].
  destruct (block_rest (x :: s)) as [rest|] eqn:E.
  - rewrite (withoutBlockComments_match _ _ E).
    destruct (block_rest_comment _ _ E) as (c & Es & Hc).
    destruct (IH rest) as [removed Hr].
    { destruct (block_rest_suffix _ _ E) as (mid & ->).
      simpl. rewrite length_app. simpl. lia. }
    exists (c :: removed). rewrite Es. now constructor.
  - rewrite (withoutBlockComments_keep _ _ E).
    destruct (IH s) as [removed Hr]; [simpl; lia|].
    exists removed. apply Removes_keep; [|exact Hr].
    intros c rest Hc Ec. apply block_comment_starts in Hc.
    now rewrite Ec in Hc.
Qed.

Lemma newlines_app a b : newlines (a ++ b) = newlines a + newlines b.
Proof. unfold newlines. now rewrite filter_app, length_app. Qed.

(** The newlines of a text are those that are kept and those of the
    comments that are dropped. *)
Lemma Removes_newlines comment s removed out :
  Removes comment s removed out ->
  newlines s = newlines out + list_sum (map newlines removed).
Proof.
  induction 1 as [|c rest removed out Hc H IH|x s removed out Hx H IH].
  - reflexivity.
  - rewrite newlines_app.
    change (list_sum (map newlines (c :: removed)))
      with (newlines c + list_sum (map newlines removed)).
    lia.
  - unfold newlines in *. cbn [filter].
    destruct (N.eqb x 10); cbn [length]; lia.
Qed.

(** When a text starts with at most one comment, it has one reading. *)
Lemma Removes_functional (comment : jstring -> jstring -> Prop) :
  (forall c rest c' rest',
     comment c rest -> comment c' rest' -> c ++ rest = c' ++ rest' ->
     c = c' /\ rest = rest') ->
  (forall c rest, comment c rest -> c <> []) ->
  forall s removed out,
    Removes comment s removed out ->
    forall s' removed' out',
      Removes comment s' removed' out' -> s = s' ->
      removed' = removed /\ out' = out.
Proof.
  intros U NE s removed out H.
  induction H as [|c rest removed out Hc H IH|x s removed out Hx H IH];
    intros s' removed' out' H' E;
    destruct H' as [|c' rest' removed' out' Hc' H'|x' s' removed' out' Hx' H'].
  - easy.
  - apply NE in Hc'. destruct c'; [easy|discriminate].
  - discriminate.
  - apply NE in Hc. destruct c; [easy|discriminate].
  - destruct (U _ _ _ _ Hc Hc' E) as [-> ->].
    destruct (IH _ _ _ H' eq_refl) as [-> ->]. easy.
  - exfalso. exact (Hx' c rest Hc E).
  - discriminate.
  - exfalso. apply (Hx c' rest' Hc'). now symmetry.
  - injection E as -> ->. destruct (IH _ _ _ H' eq_refl) as [-> ->]. easy.
Qed.

Lemma line_comment_unique c rest c' rest' :
  line_comment c rest -> line_comment c' rest' ->
  c ++ rest = c' ++ rest' -> c = c' /\ rest = rest'.
Proof.
  intros (t & -> & F & H) (t' & -> & F' & H') E.
  cbn [app] in E. injection E as E.
  assert (forall r, at_eol r = true -> head_not dot r) as Hd.
  { intros [|y r] Hr; [exact I|]. unfold head_not, dot.
    cbn [at_eol] in Hr. now rewrite Hr. }
  apply (run_unique_left dot) in E as [-> ->]; auto.
Qed.

Lemma first_close_unique t :
  forall t' r r',
    occurs2 star slash t = false -> occurs2 star slash t' = false ->
    t ++ star :: slash :: r = t' ++ star :: slash :: r' ->
    t = t' /\ r = r'.
Proof.
  induction t as [|x t IH]; intros [|y t'] r r' H H' E; cbn [app] in E.
  - now injection E as ->.
  - injection E as <- E. destruct t' as [|z t'']; cbn [app] in E.
    + discriminate E.
    + injection E as <- _. cbn [occurs2] in H'.
      now rewrite starts2_same in H'.
  - injection E as -> E. destruct t as [|z t'']; cbn [app] in E.
    + discriminate E.
    + injection E as -> _. cbn [occurs2] in H.
      now rewrite starts2_same in H.
  - injection E as -> E. cbn [occurs2] in H, H'.
    apply orb_false_iff in H as [_ H], H' as [_ H'].
    destruct (IH t' r r' H H' E) as [-> ->]. easy.
Qed.

Lemma block_comment_unique c rest c' rest' :
  block_comment c rest -> block_comment c' rest' ->
  c ++ rest = c' ++ rest' -> c = c' /\ rest = rest'.
Proof.
  intros (t & -> & H) (t' & -> & H') E.
  cbn [app] in E. injection E as E. rewrite <- !app_assoc in E.
  cbn [app] in E. now destruct (first_close_unique t t' _ _ H H' E) as [-> ->].
Qed.

Lemma line_comment_not_nil c rest : line_comment c rest -> c <> [].
Proof. now intros (t & -> & _). Qed.

Lemma block_comment_not_nil c rest : block_comment c rest -> c <> [].
Proof. now intros (t & -> & _). Qed.

(** C8, as the code has it.  Comment stripping removes the comments and
    preserves every other character, in order: the first pass reads the
    input from left to right, drops every line comment ([//] up to the end
    of the line, the line terminator kept) and keeps everything else; the
    second pass does the same with the block comments ([/*] up to the
    first [*/] that follows) of the text that the first pass returns.  No
    other text is the input without its comments in this sense.  The first
    pass keeps every newline; the newlines of the output are those of the
    input less those inside the block comments that are dropped. *)
Theorem removeComments_removes_only_comments (s : jstring) :
  exists lineComments blockComments,
    Removes line_comment s lineComments (withoutLineComments s) /\
    Removes block_comment (withoutLineComments s) blockComments
      (removeComments s) /\
    (forall removed out,
       Removes line_comment s removed out ->
       removed = lineComments /\ out = withoutLineComments s) /\
    (forall removed out,
       Removes block_comment (withoutLineComments s) removed out ->
       removed = blockComments /\ out = removeComments s) /\
    newlines (withoutLineComments s) = newlines s /\
    newlines (removeComments s) + list_sum (map newlines blockComments)
    = newlines s /\
    Subseq (removeComments s) s.
Proof.
  destruct (withoutLineComments_removes s) as [lineComments HL].
  destruct (withoutBlockComments_removes (withoutLineComments s))
    as [blockComments HB].
  exists lineComments, blockComments.
  split; [exact HL|]. split; [exact HB|]. split; [|split; [|split; [|split]]].
  - intros removed out H.
    exact (Removes_functional line_comment line_comment_unique
             line_comment_not_nil _ _ _ HL _ _ _ H eq_refl).
  - intros removed out H.
    exact (Removes_functional block_comment block_comment_unique
             block_comment_not_nil _ _ _ HB _ _ _ H eq_refl).
  - apply withoutLineComments_newlines.
  - rewrite <- (withoutLineComments_newlines s).
    symmetry. exact (Removes_newlines _ _ _ _ HB).
  - apply Subseq_trans with (withoutLineComments s);
      apply replace_empty_subseq.
Qed.

End CommentFacts.

(** ** Declarations inside a class body *)

Module ModifierFacts.
Import RegexFacts AttributeFacts.

Lemma Modifier_eq_dec (a b : Modifier) : {a = b} + {a <> b}.
Proof. decide equality. Defined.

Lemma modifier_of_str m :
  m <> Mdefault -> modifier_of (Some (modifier_str m)) = m.
Proof. now destruct m. Qed.

Lemma modifier_text_eq m ws :
  m <> Mdefault -> modifier_text m ws = modifier_str m ++ ws.
Proof. destruct m; intros H; try reflexivity. contradiction. Qed.

(** A match of the optional modifier, from empty captures. *)
Lemma modifierPrefix_caps s s' c' :
  Matches modifierPrefix s [] s' c' ->
  (s' = s /\ c' = []) \/
  (exists m ws,
     m <> Mdefault /\ ws <> [] /\ forallb is_space ws = true /\
     s = modifier_str m ++ ws ++ s' /\ c' = set_cap 1 (modifier_str m) []).
Proof.
  unfold modifierPrefix. intros H.
  apply Matches_Opt_inv in H as [H|H]; [right|now left].
  apply Matches_Cat_inv in H as (s1 & c1 & H1 & H2).
  apply Matches_Plus_inv in H2 as (-> & ws & Hne & Hws & ->).
  apply Matches_Group_inv in H1 as (c0 & H1 & ->).
  apply Matches_Or_inv in H1 as [H1|H1];
    [|apply Matches_Or_inv in H1 as [H1|H1]];
    apply Matches_Lit_inv in H1 as [-> ->]; rewrite consumed_app.
  - exists Mpublic, ws. repeat split; try assumption; discriminate.
  - exists Mprivate, ws. repeat split; try assumption; discriminate.
  - exists Mprotected, ws. repeat split; try assumption; discriminate.
Qed.

Lemma modifier_str_word m : forallb is_word (modifier_str m) = true.
Proof. now destruct m. Qed.

Lemma modifier_text_semicolon_free m ws :
  (m <> Mdefault -> ws <> [] /\ forallb is_space ws = true) ->
  ~ In semicolon (modifier_text m ws).
Proof.
  intros Hws H. destruct (Modifier_eq_dec m Mdefault) as [->|Hm];
    [destruct H|].
  rewrite (modifier_text_eq m ws Hm) in H. destruct (Hws Hm) as [_ Hsp].
  apply in_app_or in H as [H|H]; revert H.
  - apply forallb_not_In with is_word; [apply modifier_str_word|].
    intros c Hc. now apply is_type_char_bounds, is_word_type_char.
  - apply forallb_not_In with is_space; [assumption|].
    apply space_not_semicolon.
Qed.

Lemma last_not_app (p : char -> bool) a b :
  b <> [] -> last_not p b -> last_not p (a ++ b).
Proof.
  unfold last_not. rewrite rev_app_distr. intros Hb H.
  destruct (rev b) as [|x r] eqn:E; [|exact H].
  apply (f_equal (@rev char)) in E. rewrite rev_involutive in E.
  now subst b.
Qed.

(** The text in front of a type token that follows a modifier text does
    not end with a type character. *)
Lemma modifier_text_last_not pre m ws :
  (m <> Mdefault -> ws <> [] /\ forallb is_space ws = true) ->
  (m = Mdefault -> last_not is_type_char pre) ->
  last_not is_type_char (pre ++ modifier_text m ws).
Proof.
  intros Hws Hpre. destruct (Modifier_eq_dec m Mdefault) as [->|Hm].
  - cbn [modifier_text]. rewrite app_nil_r. now apply Hpre.
  - destruct (Hws Hm) as [Hne Hsp]. rewrite (modifier_text_eq m ws Hm).
    rewrite app_assoc. apply last_not_run with is_space; try assumption.
    apply space_not_type_char.
Qed.

Lemma modifier_str_last_not m :
  m <> Mdefault -> last_not is_space (modifier_str m).
Proof. now destruct m. Qed.

(** No access modifier ends with another one. *)
Lemma modifier_suffix pre m m' :
  m <> Mdefault -> m' <> Mdefault ->
  pre ++ modifier_str m = modifier_str m' -> pre = [] /\ m' = m.
Proof.
  intros Hm Hm' E.
  assert (m' = m) as ->.
  { apply (f_equal (@rev char)) in E. rewrite rev_app_distr in E.
    destruct m, m'; try contradiction; try reflexivity;
      vm_compute in E; discriminate E. }
  split; [|reflexivity].
  apply (app_inv_tail (modifier_str m)). exact E.
Qed.

(** The shape of a match of the attribute pattern, with its modifier. *)
Lemma attribute_match_modifier s rest c :
  match_at attributeRegex s = Some (rest, c) ->
  exists m ws0 ty w1 nm w2,
    (m <> Mdefault -> ws0 <> [] /\ forallb is_space ws0 = true) /\
    s = modifier_text m ws0 ++ ty ++ w1 ++ nm ++ w2 ++ semicolon :: rest /\
    ty <> [] /\ forallb is_type_char ty = true /\
    w1 <> [] /\ forallb is_space w1 = true /\
    nm <> [] /\ forallb is_word nm = true /\
    forallb is_space w2 = true /\
    modifier_of (cap 1 c) = m /\ cap 2 c = Some ty /\ cap 3 c = Some nm.
Proof.
  intros H. apply match_at_sound in H as (c' & M & ->).
  unfold attributeRegex in M.
  apply Matches_Cat_inv in M as (s1 & c1 & M1 & M).
  apply Matches_Cat_inv in M as (s2 & c2 & M2 & M).
  apply Matches_Group_inv in M2 as (c0 & M2 & ->).
  apply Matches_Plus_inv in M2 as (-> & ty & Hty & Fty & ->).
  apply Matches_Cat_inv in M as (s3 & c3 & M3 & M).
  apply Matches_Plus_inv in M3 as (-> & w1 & Hw1 & Fw1 & ->).
  apply Matches_Cat_inv in M as (s4 & c4 & M4 & M).
  apply Matches_Group_inv in M4 as (c5 & M4 & ->).
  apply Matches_Plus_inv in M4 as (-> & nm & Hnm & Fnm & ->).
  apply Matches_Cat_inv in M as (s5 & c6 & M5 & M).
  apply Matches_Star_inv in M5 as (-> & w2 & Fw2 & ->).
  apply Matches_Lit_inv in M as (-> & ->).
  rewrite !consumed_app.
  assert (forall c1 : caps,
            cap 2 (set_cap 0 (consumed s rest)
                     (set_cap 3 nm (set_cap 2 ty c1))) = Some ty /\
            cap 3 (set_cap 0 (consumed s rest)
                     (set_cap 3 nm (set_cap 2 ty c1))) = Some nm /\
            cap 1 (set_cap 0 (consumed s rest)
                     (set_cap 3 nm (set_cap 2 ty c1))) = cap 1 c1) as HC.
  { intros c. split; [|split].
    - do 2 (rewrite cap_set_cap_other by discriminate).
      apply cap_set_cap_same.
    - rewrite cap_set_cap_other by discriminate. apply cap_set_cap_same.
    - now do 3 (rewrite cap_set_cap_other by discriminate). }
  destruct (HC c1) as (C2 & C3 & C1).
  apply modifierPrefix_caps in M1
    as [[E ->]|(m & ws & Hm & Hne & Hws & -> & ->)].
  - exists Mdefault, [], ty, w1, nm, w2. rewrite C1.
    repeat split; try assumption; try contradiction.
    symmetry. exact E.
  - exists m, ws, ty, w1, nm, w2. rewrite C1, cap_set_cap_same.
    rewrite (modifier_text_eq m ws Hm), <- app_assoc.
    repeat split; try assumption. now apply modifier_of_str.
Qed.

Lemma trimStart_spaces a b :
  forallb is_space a = true -> head_not is_space b ->
  trimStart (a ++ b) = b.
Proof.
  induction a as [|x a IH]; cbn [app forallb]; intros Ha Hb.
  - destruct b as [|y b]; [reflexivity|]. cbn [trimStart].
    cbn [head_not] in Hb. now rewrite Hb.
  - apply andb_true_iff in Ha as [Hx Ha]. cbn [trimStart]. rewrite Hx.
    now apply IH.
Qed.

(** The test [after_modifier] finds every modifier in front. *)
Lemma after_modifier_sound pre :
  after_modifier pre = false -> no_modifier_before pre.
Proof.
  intros H p m ws Hm Hne Hws ->. unfold after_modifier in H.
  rewrite !rev_app_distr, <- app_assoc in H.
  rewrite trimStart_spaces in H.
  - rewrite rev_app_distr, !rev_involutive in H.
    assert (Nat.eqb (length (p ++ modifier_str m))
              (length (p ++ modifier_str m ++ ws)) = false) as E.
    { apply Nat.eqb_neq. rewrite !length_app.
      destruct ws; [contradiction|]. simpl. lia. }
    rewrite E in H. cbn [negb andb] in H. unfold ends_with in H.
    rewrite rev_app_distr in H.
    destruct m; try contradiction;
      rewrite ?prefix_rest_app_same in H; cbn [is_some] in H;
      rewrite ?orb_true_r in H; discriminate H.
  - rewrite forallb_forall in *. intros x Hx. apply Hws. now apply in_rev.
  - pose proof (modifier_str_last_not m Hm) as L. unfold last_not in L.
    destruct (rev (modifier_str m)) as [|y r] eqn:E; [|exact L].
    destruct m; discriminate E.
Qed.

Lemma no_modifier_before_tail x pre :
  no_modifier_before (x :: pre) -> no_modifier_before pre.
Proof.
  intros H p m ws Hm Hne Hws ->.
  now apply (H (x :: p) m ws Hm Hne Hws).
Qed.

(** A modifier text is matched by the optional modifier of the two member
    patterns. *)
Lemma modifier_text_Matches m ws rest c :
  (m <> Mdefault -> ws <> [] /\ forallb is_space ws = true) ->
  exists c', Matches modifierPrefix (modifier_text m ws ++ rest) c rest c'.
Proof.
  intros Hws. destruct (Modifier_eq_dec m Mdefault) as [->|Hm].
  - exists c. apply Matches_Opt_skipped.
  - destruct (Hws Hm) as [Hne Hsp]. rewrite (modifier_text_eq m ws Hm).
    destruct ws as [|v ws']; [contradiction|].
    cbn [forallb] in Hsp. apply andb_true_iff in Hsp as [V1 V2].
    eexists. unfold modifierPrefix. apply Matches_Opt_taken.
    eapply Matches_Cat.
    + apply Matches_Group.
      destruct m; try contradiction.
      * apply Matches_Or_left. apply Matches_Lit.
        rewrite <- app_assoc. reflexivity.
      * apply Matches_Or_right, Matches_Or_left. apply Matches_Lit.
        rewrite <- app_assoc. reflexivity.
      * apply Matches_Or_right, Matches_Or_right. apply Matches_Lit.
        rewrite <- app_assoc. reflexivity.
    + eapply Matches_Plus with (x := v) (xs := ws'); [|assumption..].
      reflexivity.
Qed.

(** A modifier text with something in front of it is not a modifier
    text, unless the text in front ends with a modifier and white
    space. *)
Lemma modifier_text_unique pre m ws m' ws' :
  (m <> Mdefault -> ws <> [] /\ forallb is_space ws = true) ->
  (m' <> Mdefault -> ws' <> [] /\ forallb is_space ws' = true) ->
  (m = Mdefault -> no_modifier_before pre) ->
  pre ++ modifier_text m ws = modifier_text m' ws' ->
  pre = [] /\ m' = m.
Proof.
  intros Hws Hws' Hpre EX.
  destruct (Modifier_eq_dec m Mdefault) as [Em|Hm];
    destruct (Modifier_eq_dec m' Mdefault) as [Em'|Hm'].
  - subst m m'. cbn [modifier_text] in EX. rewrite app_nil_r in EX.
    now split.
  - exfalso. subst m. cbn [modifier_text] in EX. rewrite app_nil_r in EX.
    destruct (Hws' Hm') as [Hne Hsp].
    apply (Hpre eq_refl [] m' ws' Hm' Hne Hsp).
    rewrite EX. now apply modifier_text_eq.
  - exfalso. subst m'. cbn [modifier_text] in EX.
    destruct (Hws Hm) as [Hne _]. rewrite (modifier_text_eq m ws Hm) in EX.
    apply app_eq_nil in EX as [_ EX].
    apply app_eq_nil in EX as [_ EX]. contradiction.
  - destruct (Hws Hm) as [Hne Hsp]. destruct (Hws' Hm') as [Hne' Hsp'].
    rewrite (modifier_text_eq m ws Hm), (modifier_text_eq m' ws' Hm'),
      app_assoc in EX.
    apply run_unique_right with (p := is_space) in EX as [EX _];
      try assumption.
    + now apply modifier_suffix in EX.
    + apply last_not_app; [now destruct m|].
      now apply modifier_str_last_not.
    + now apply modifier_str_last_not.
Qed.

Lemma exec_all_head r s rest c :
  s <> [] -> match_at r s = Some (rest, c) -> In (c, rest) (exec_all r 0 s).
Proof.
  destruct s as [|x s]; [contradiction|]. intros _ H.
  cbn [exec_all]. rewrite H. now left.
Qed.

End ModifierFacts.

Section LocalDeclaration.
Import ModifierFacts.

Variable m : Modifier.
Variables ws0 ty ws1 nm ws2 post : jstring.

Hypothesis ws0_space :
  m <> Mdefault -> ws0 <> [] /\ forallb is_space ws0 = true.
Hypothesis ty_nonempty : ty <> [].
Hypothesis ty_type : forallb is_type_char ty = true.
Hypothesis ws1_nonempty : ws1 <> [].
Hypothesis ws1_space : forallb is_space ws1 = true.
Hypothesis nm_nonempty : nm <> [].
Hypothesis nm_word : forallb is_word nm = true.
Hypothesis ws2_space : forallb is_space ws2 = true.

Lemma declaration_semicolon_free :
  ~ In semicolon (modifier_text m ws0 ++ ty ++ ws1 ++ nm ++ ws2).
Proof.
  intros H. repeat (apply in_app_or in H as [H|H]); revert H.
  - exact (modifier_text_semicolon_free m ws0 ws0_space).
  - apply forallb_not_In with is_type_char; [assumption|].
    intros c Hc. now apply is_type_char_bounds.
  - apply forallb_not_In with is_space; [assumption|].
    apply space_not_semicolon.
  - apply forallb_not_In with is_word; [assumption|].
    intros c Hc. now apply is_type_char_bounds, is_word_type_char.
  - apply forallb_not_In with is_space; [assumption|].
    apply space_not_semicolon.
Qed.

(** A match of the attribute pattern that starts in front of the
    declaration ends in front of it; a match that starts with the
    declaration is the declaration, with its modifier. *)
Lemma match_before_declaration pre rest c :
  (m = Mdefault -> last_not is_type_char pre /\ no_modifier_before pre) ->
  match_at attributeRegex
    (pre ++ modifier_text m ws0 ++ ty ++ ws1 ++ nm ++ ws2
       ++ semicolon :: post) = Some (rest, c) ->
  (exists n,
     length (pre ++ modifier_text m ws0 ++ ty ++ ws1 ++ nm ++ ws2
               ++ semicolon :: post) - length rest
     = S n /\ S n <= length pre)
  \/ (pre = [] /\ modifier_of (cap 1 c) = m /\
      cap 2 c = Some ty /\ cap 3 c = Some nm).
Proof.
  intros Hpre H.
  apply attribute_match_modifier in H
    as (m' & ws' & ty' & w1 & nm' & w2 & Hws' & E & Hty & Fty & Hw1 & Fw1
        & Hnm & Fnm & Fw2 & C1 & C2 & C3).
  assert (~ In semicolon (modifier_text m' ws' ++ ty' ++ w1 ++ nm' ++ w2))
    as SX.
  { intros H. repeat (apply in_app_or in H as [H|H]); revert H.
    - exact (modifier_text_semicolon_free m' ws' Hws').
    - apply forallb_not_In with is_type_char; [assumption|].
      intros x Hx. now apply is_type_char_bounds.
    - apply forallb_not_In with is_space; [assumption|].
      apply space_not_semicolon.
    - apply forallb_not_In with is_word; [assumption|].
      intros x Hx. now apply is_type_char_bounds, is_word_type_char.
    - apply forallb_not_In with is_space; [assumption|].
      apply space_not_semicolon. }
  assert (pre ++ (modifier_text m ws0 ++ ty ++ ws1 ++ nm ++ ws2
                    ++ semicolon :: post)
          = (modifier_text m' ws' ++ ty' ++ w1 ++ nm' ++ w2)
              ++ semicolon :: rest) as EX.
  { rewrite E. now rewrite <- !app_assoc. }
  destruct (in_dec N.eq_dec semicolon pre) as [Hin|Hin].
  - left. apply first_occurrence_split in Hin as (p1 & p2 & -> & Hp1).
    rewrite <- app_assoc in EX. simpl in EX.
    apply first_occurrence_unique in EX as [_ <-]; try assumption.
    exists (length p1). split.
    + rewrite <- app_assoc. simpl. rewrite !length_app. simpl.
      rewrite !length_app. simpl. lia.
    + rewrite length_app. simpl. lia.
  - right.
    assert (pre ++ modifier_text m ws0 ++ ty ++ ws1 ++ nm ++ ws2
              ++ semicolon :: post
            = (pre ++ modifier_text m ws0 ++ ty ++ ws1 ++ nm ++ ws2)
                ++ semicolon :: post) as EY
        by now rewrite <- !app_assoc.
    rewrite EY in EX.
    apply first_occurrence_unique in EX as [EX _]; try assumption.
    2:{ intros H. apply in_app_or in H as [H|H]; [tauto|].
        now apply declaration_semicolon_free. }
    rewrite !app_assoc in EX.
    apply run_unique_right with (p := is_space) in EX as [EX _];
      try assumption;
      try (apply last_not_run with is_word; try assumption;
           apply word_not_space).
    apply run_unique_right with (p := is_word) in EX as [EX <-];
      try assumption;
      try (apply last_not_run with is_space; try assumption;
           apply space_not_word).
    apply run_unique_right with (p := is_space) in EX as [EX _];
      try assumption;
      try (apply last_not_run with is_type_char; try assumption;
           apply type_char_not_space).
    apply run_unique_right with (p := is_type_char) in EX as [EX <-];
      try assumption.
    2:{ apply modifier_text_last_not; [exact ws0_space|].
        intros Em. now apply Hpre. }
    2:{ apply (modifier_text_last_not [] m' ws' Hws'). intros _. exact I. }
    assert (pre = [] /\ m' = m) as [E0 Em];
      [|split; [exact E0|split; [now rewrite C1|now split]]].
    apply (modifier_text_unique pre m ws0 m' ws' ws0_space Hws');
      [|exact EX].
    intros Em. now apply Hpre.
Qed.

Lemma declaration_matches :
  exists r,
    match_at attributeRegex
      (modifier_text m ws0 ++ ty ++ ws1 ++ nm ++ ws2 ++ semicolon :: post)
    = Some r.
Proof.
  destruct ty as [|t ty0] eqn:Ety; [contradiction|].
  destruct ws1 as [|w ws3] eqn:Ews; [contradiction|].
  destruct nm as [|n nm0] eqn:Enm; [contradiction|].
  simpl in ty_type, ws1_space, nm_word.
  apply andb_true_iff in ty_type as [T1 T2].
  apply andb_true_iff in ws1_space as [W1 W2].
  apply andb_true_iff in nm_word as [N1 N2].
  destruct (modifier_text_Matches m ws0
              ((t :: ty0) ++ (w :: ws3) ++ (n :: nm0) ++ ws2
                 ++ semicolon :: post) [] ws0_space) as [c' HM'].
  eapply RegexFacts.match_at_complete; [|reflexivity].
  unfold attributeRegex.
  eapply Matches_Cat; [exact HM'|].
  eapply Matches_Cat.
  { apply Matches_Group.
    eapply Matches_Plus with (x := t) (xs := ty0); [|assumption..].
    reflexivity. }
  eapply Matches_Cat.
  { eapply Matches_Plus with (x := w) (xs := ws3); [|assumption..].
    reflexivity. }
  eapply Matches_Cat.
  { apply Matches_Group.
    eapply Matches_Plus with (x := n) (xs := nm0); [|assumption..].
    reflexivity. }
  eapply Matches_Cat.
  { eapply Matches_Star with (xs := ws2); [reflexivity|assumption]. }
  now apply Matches_Lit.
Qed.

(** The loop over the matches of the attribute pattern reaches the
    declaration, from any position in front of it, and matches it from
    its first character. *)
Lemma exec_all_reaches_declaration pre :
  (m = Mdefault -> last_not is_type_char pre /\ no_modifier_before pre) ->
  forall skip, skip <= length pre ->
  exists c rest,
    In (c, rest)
       (exec_all attributeRegex skip
          (pre ++ modifier_text m ws0 ++ ty ++ ws1 ++ nm ++ ws2
             ++ semicolon :: post)) /\
    modifier_of (cap 1 c) = m /\ cap 2 c = Some ty /\ cap 3 c = Some nm.
Proof.
  induction pre as [|x pre IH]; intros Hpre skip Hskip.
  - assert (skip = 0) as -> by (simpl in Hskip; lia).
    destruct declaration_matches as [[rest c] Hm].
    destruct (match_before_declaration [] rest c Hpre Hm)
      as [(n & _ & Hn)|(_ & C1 & C2 & C3)]; [simpl in Hn; lia|].
    exists c, rest. split; [|now repeat split].
    apply exec_all_head; [|exact Hm]. cbn [app].
    intros E. apply app_eq_nil in E as [_ E].
    apply app_eq_nil in E as [E _]. contradiction.
  - assert (m = Mdefault ->
            last_not is_type_char pre /\ no_modifier_before pre) as Hpre'.
    { intros Em. destruct (Hpre Em) as [H1 H2]. split.
      - exact (last_not_tail _ _ _ H1).
      - exact (no_modifier_before_tail _ _ H2). }
    cbn [app exec_all]. destruct skip as [|skip].
    + destruct (match_at attributeRegex
                  (x :: pre ++ modifier_text m ws0 ++ ty ++ ws1 ++ nm ++ ws2
                     ++ semicolon :: post))
        as [[rest c]|] eqn:Hm.
      * destruct (match_before_declaration (x :: pre) rest c Hpre Hm)
          as [(n & En & Hn)|(E0 & _)]; [|discriminate E0].
        simpl app in En. rewrite En. cbn [pred].
        destruct (IH Hpre' n) as (c' & rest' & Hin & HC);
          [simpl in Hn; lia|].
        exists c', rest'. split; [now right|exact HC].
      * apply IH; [assumption|lia].
    + apply IH; [assumption|simpl in Hskip; lia].
Qed.

(** C10.  The attribute parser scans the whole class body.  For every
    class that the parser extracts from a source and every declaration in
    its body, at any place and so also inside a method body, of the shape
    [Type name;] (a type token, white space, a name, optional white space
    and the semicolon), with or without an access modifier and white space
    in front: the class record that [parseJavaFile] returns for the class
    has the AttributeRecord of that modifier ([default] without one), type
    and name, unless the type token is [return]; no class record has an
    attribute of type [return].  A declaration without modifier starts a
    token (the character in front is not a type character) and is not
    preceded by an access modifier and white space. *)
Theorem local_declaration_is_attribute
    (source : jstring) (d : ClassDecl) (pre : jstring) :
  In d (fst (extractClassBodies (removeComments source))) ->
  body d
  = pre ++ modifier_text m ws0 ++ ty ++ ws1 ++ nm ++ ws2
      ++ semicolon :: post ->
  (m = Mdefault -> last_not is_type_char pre /\ after_modifier pre = false) ->
  ty <> str "return" ->
  In (mkAttribute m ty nm) (parseJavaAttributes (body d)) /\
  (exists c,
     In c (classes (fst (parseJavaFile source))) /\
     class_name c = decl_name d /\
     class_extends c = extendsFrom d /\
     attributes c = parseJavaAttributes (body d) /\
     In (mkAttribute m ty nm) (attributes c)) /\
  (forall c a,
     In c (classes (fst (parseJavaFile source))) ->
     In a (attributes c) -> attr_type a <> str "return").
Proof.
  intros Hd Hbody Hpre Hret.
  assert (In (mkAttribute m ty nm) (parseJavaAttributes (body d))) as Hattr.
  { assert (m = Mdefault ->
            last_not is_type_char pre /\ no_modifier_before pre) as Hpre'.
    { intros Em. destruct (Hpre Em) as [H1 H2].
      split; [exact H1|now apply after_modifier_sound]. }
    destruct (exec_all_reaches_declaration pre Hpre' 0 (Nat.le_0_l _))
      as (c & rest & Hin & C1 & C2 & C3).
    rewrite Hbody. unfold parseJavaAttributes.
    apply in_flat_map. exists (c, rest). split; [exact Hin|].
    cbn [fst]. unfold cap_str. rewrite C1, C2, C3.
    apply jstring_eqb_neq in Hret. rewrite Hret. now left. }
  assert (classes (fst (parseJavaFile source))
          = map (fun classDecl =>
                   mkClass (decl_name classDecl) (extendsFrom classDecl)
                     (parseJavaAttributes (body classDecl))
                     (parseJavaMethods (body classDecl)))
                (fst (extractClassBodies (removeComments source)))) as Hcl.
  { unfold parseJavaFile, parseJavaClasses.
    destruct (extractClassBodies (removeComments source)) as [ds console].
    now destruct ds. }
  split; [exact Hattr|]. split.
  - exists (mkClass (decl_name d) (extendsFrom d)
              (parseJavaAttributes (body d)) (parseJavaMethods (body d))).
    split; [|now repeat split].
    rewrite Hcl. apply in_map_iff. now exists d.
  - intros c a Hc Ha. rewrite Hcl in Hc.
    apply in_map_iff in Hc as (d' & <- & _). cbn [attributes] in Ha.
    unfold parseJavaAttributes in Ha.
    apply in_flat_map in Ha as ([c' rest] & _ & Ha). cbn [fst] in Ha.
    destruct (jstring_eqb (cap_str 2 c') (str "return")) eqn:E;
      [contradiction|].
    destruct Ha as [<-|[]]. now apply jstring_eqb_neq.
Qed.

End LocalDeclaration.

Lemma local_declaration_is_attribute_witness :
  ((Mdefault <> Mdefault ->
    @nil char <> [] /\ forallb is_space [] = true) /\
   str "int" <> [] /\ forallb is_type_char (str "int") = true /\
   str " " <> [] /\ forallb is_space (str " ") = true /\
   str "y" <> [] /\ forallb is_word (str "y") = true /\
   forallb is_space [] = true /\
   In localDecl (fst (extractClassBodies (removeComments localSource))) /\
   body localDecl
   = str "void f() { " ++ modifier_text Mdefault [] ++ str "int" ++ str " "
       ++ str "y" ++ [] ++ semicolon :: str " return y; }" /\
   (Mdefault = Mdefault ->
    last_not is_type_char (str "void f() { ") /\
    after_modifier (str "void f() { ") = false) /\
   str "int" <> str "return") /\
  In (mkAttribute Mdefault (str "int") (str "y"))
     (parseJavaAttributes (body localDecl)) /\
  (exists c,
     In c (classes (fst (parseJavaFile localSource))) /\
     class_name c = decl_name localDecl /\
     class_extends c = extendsFrom localDecl /\
     attributes c = parseJavaAttributes (body localDecl) /\
     In (mkAttribute Mdefault (str "int") (str "y")) (attributes c)) /\
  (forall c a,
     In c (classes (fst (parseJavaFile localSource))) ->
     In a (attributes c) -> attr_type a <> str "return").
Proof.
  assert (Mdefault <> Mdefault ->
          @nil char <> [] /\ forallb is_space [] = true)
    as H0 by (intros H; now contradiction H).
  assert (str "int" <> []) as H1 by discriminate.
  assert (forallb is_type_char (str "int") = true) as H2 by reflexivity.
  assert (str " " <> []) as H3 by discriminate.
  assert (forallb is_space (str " ") = true) as H4 by reflexivity.
  assert (str "y" <> []) as H5 by discriminate.
  assert (forallb is_word (str "y") = true) as H6 by reflexivity.
  assert (forallb is_space [] = true) as H7 by reflexivity.
  assert (In localDecl
            (fst (extractClassBodies (removeComments localSource)))) as H8
      by (vm_compute; left; reflexivity).
  assert (body localDecl
          = str "void f() { " ++ modifier_text Mdefault [] ++ str "int"
              ++ str " " ++ str "y" ++ [] ++ semicolon :: str " return y; }")
    as H9 by reflexivity.
  assert (Mdefault = Mdefault ->
          last_not is_type_char (str "void f() { ") /\
          after_modifier (str "void f() { ") = false) as H10
      by (intros _; split; reflexivity).
  assert (str "int" <> str "return") as H11 by discriminate.
  split; [repeat (split; [assumption|]); assumption|].
  exact (local_declaration_is_attribute Mdefault [] (str "int") (str " ")
           (str "y") [] (str " return y; }") H0 H1 H2 H3 H4 H5 H6 H7
           localSource localDecl (str "void f() { ") H8 H9 H10 H11).
Defined.

(** The same source, evaluated: the local variable is the only attribute
    of the class record; [return y;] has the shape of a declaration and
    is discarded. *)
Example local_declaration_int_y :
  parseJavaFile localSource
  = (mkParseResult
       [mkClass (str "Foo") None
          [mkAttribute Mdefault (str "int") (str "y")]
          [mkMethod Mdefault (str "void") (str "f") []]]
       [],
     []).
Proof. vm_compute. reflexivity. Qed.

(** A declaration with an access modifier in a method body, evaluated: the
    record carries the modifier. *)
Example local_declaration_private :
  parseJavaFile (str "class Foo { void f() { private int y; } }")
  = (mkParseResult
       [mkClass (str "Foo") None
          [mkAttribute Mprivate (str "int") (str "y")]
          [mkMethod Mdefault (str "void") (str "f") []]]
       [],
     []).
Proof. vm_compute. reflexivity. Qed.

(* ================================================================= *)
(** * Further properties of the code *)

(** ** Comment stripping *)

Lemma has_block_starts s :
  occurs2 slash star s = false -> has_block s = false.
Proof.
  induction s as [|x s IH]; [reflexivity|].
  cbn [occurs2 has_block]. intros H. apply orb_false_iff in H as [H1 H2].
  rewrite (IH H2), orb_false_r. unfold starts2 in H1. unfold block_rest.
  now destruct (prefix_rest [slash; star] (x :: s)).
Qed.

(** What [removeComments] returns holds no line comment and no block
    comment: no [//] is left, and no [/*] that a later [*/] closes. *)
Theorem removeComments_comment_free (s : jstring) :
  occurs2 slash slash (removeComments s) = false /\
  has_block (removeComments s) = false.
Proof.
  rewrite removeComments_passes. split.
  - apply withoutBlockComments_clean, withoutLineComments_clean.
  - apply withoutBlockComments_no_block, withoutLineComments_clean.
Qed.

(** The texts that [removeComments] leaves unchanged are exactly the texts
    without [//] and without a block comment. *)
Theorem removeComments_fixed_points (s : jstring) :
  removeComments s = s <->
  occurs2 slash slash s = false /\ has_block s = false.
Proof.
  split.
  - intros E. rewrite <- E, removeComments_passes. split.
    + apply withoutBlockComments_clean, withoutLineComments_clean.
    + apply withoutBlockComments_no_block, withoutLineComments_clean.
  - intros [H1 H2]. rewrite removeComments_passes.
    rewrite (withoutLineComments_id s H1). now apply withoutBlockComments_id.
Qed.

(** ** Sets of names *)

Lemma fold_set_add_fresh l acc :
  NoDup (acc ++ l) -> fold_left set_add l acc = acc ++ l.
Proof.
  revert acc; induction l as [|x l IH]; intros acc H; simpl.
  - now rewrite app_nil_r.
  - assert (~ In x acc) as Hx.
    { intros Hin. apply NoDup_remove_2 in H. apply H.
      apply in_or_app. now left. }
    unfold set_add.
    destruct (existsb (jstring_eqb x) acc) eqn:E.
    + apply existsb_jstring_In in E. contradiction.
    + rewrite IH; rewrite <- app_assoc; [reflexivity|exact H].
Qed.

Lemma Set_of_NoDup_id l : NoDup l -> Set_of l = l.
Proof. intros H. unfold Set_of. now rewrite fold_set_add_fresh. Qed.

Lemma fold_set_add_length l acc :
  length (fold_left set_add l acc) <= length acc + length l.
Proof.
  revert acc; induction l as [|x l IH]; intros acc; simpl; [lia|].
  specialize (IH (set_add acc x)). unfold set_add in *.
  destruct (existsb (jstring_eqb x) acc); [lia|].
  rewrite length_app in IH. simpl in IH. lia.
Qed.

Lemma Set_of_length l : length (Set_of l) <= length l.
Proof. apply (fold_set_add_length l []). Qed.

Lemma Set_of_nil l : Set_of l = [] <-> l = [].
Proof.
  split; [|now intros ->].
  destruct l as [|x l]; [reflexivity|]. intros H.
  assert (In x (Set_of (x :: l))) as Hin by (apply Set_of_In; now left).
  rewrite H in Hin. contradiction.
Qed.

(** ** The comparator that returns the tree *)

Module TreeExtras.
Import CompareTree TreeFacts.

(** Every node of the tree is the node of its name, made from the first
    record with the name in each list. *)
Lemma compare_nodes a b out :
  compareParsedClasses a b = Some out ->
  forall node, In node out ->
    exists aClass,
      find (has_name (name node)) a = Some aClass /\
      node = classNode (name node) aClass (find (has_name (name node)) b).
Proof.
  unfold compareParsedClasses. intros H. apply compareLoop_Forall2 in H.
  induction H as [|n node names out H _ IH]; intros node' Hin; [easy|].
  destruct Hin as [<-|Hin]; [|now apply IH].
  pose proof (compareClass_name _ _ _ _ H) as En. rewrite En.
  unfold compareClass in H.
  destruct (find (has_name n) a) as [aClass|]; [|discriminate].
  injection H as <-. now exists aClass.
Qed.

(** The comparator always returns.  Its tree has one node per class name
    of A: the names of the nodes are pairwise distinct, they are the class
    names of A, and the tree is not longer than A; it is empty exactly
    when A is. *)
Theorem compare_tree_names (a b : list ClassInfo) :
  exists out,
    compareParsedClasses a b = Some out /\
    NoDup (map name out) /\
    (forall n, In n (map name out) <-> In n (class_names a)) /\
    length out <= length a /\
    (out = [] <-> a = []).
Proof.
  destruct (compare_names a b) as (out & Ho & Hn).
  exists out. split; [exact Ho|]. split; [|split; [|split]].
  - rewrite Hn. apply Set_of_NoDup.
  - intros n. rewrite Hn. apply Set_of_In.
  - rewrite <- (length_map name out), Hn.
    unfold class_names. rewrite <- (length_map class_name a).
    apply Set_of_length.
  - split.
    + intros ->. simpl in Hn. symmetry in Hn.
      apply (proj1 (Set_of_nil _)) in Hn. now apply map_eq_nil in Hn.
    + intros ->. destruct out; [reflexivity|]. discriminate.
Qed.

(** When no two records of A have the same name, the tree has the class
    names of A in the order of A. *)
Theorem compare_tree_order (a b : list ClassInfo) :
  NoDup (class_names a) ->
  exists out,
    compareParsedClasses a b = Some out /\
    map name out = class_names a.
Proof.
  intros H. destruct (compare_names a b) as (out & Ho & Hn).
  exists out. split; [exact Ho|]. now rewrite Hn, Set_of_NoDup_id.
Qed.

Lemma compare_tree_order_witness :
  NoDup (class_names [classY; classFoo; classX]) /\
  exists out,
    compareParsedClasses [classY; classFoo; classX] [classX] = Some out /\
    map name out = class_names [classY; classFoo; classX].
Proof.
  assert (NoDup (class_names [classY; classFoo; classX])) as H.
  { repeat constructor; simpl; intuition discriminate. }
  split; [exact H|].
  exact (compare_tree_order [classY; classFoo; classX] [classX] H).
Defined.

Lemma option_eqb_refl o : option_eqb o o = true.
Proof. destruct o; simpl; [apply jstring_eqb_refl|reflexivity]. Qed.

Lemma gradeEntry_equal label c :
  gradeEntry label c (Some c)
  = mkComparison (label "+"%string ++ count_suffix c) green (Some c).
Proof. unfold gradeEntry. now rewrite Nat.ltb_irrefl. Qed.

Lemma checkAttributeSignature_count attrs sg :
  In sg (checkAttributeSignature attrs) ->
  as_count sg = attribute_count (as_modifier sg) (as_type sg) attrs.
Proof.
  rewrite SignatureFacts.checkAttributeSignature_unfold, in_map_iff.
  now intros (signature & <- & _).
Qed.

Lemma checkMethodSignature_count meths sg :
  In sg (checkMethodSignature meths) ->
  ms_count sg
  = method_count (ms_modifier sg) (ms_returnType sg) (ms_parameters sg) meths.
Proof.
  rewrite SignatureFacts.checkMethodSignature_unfold, in_map_iff.
  now intros (signature & <- & _).
Qed.

(** Looked up in its own signature list, a signature is found with its own
    count, whatever the type strings are. *)
Lemma compareAttribute_self attrs sg :
  In sg (checkAttributeSignature attrs) ->
  compareAttribute (checkAttributeSignature attrs) sg
  = mkComparison (attr_label "+" sg ++ count_suffix (as_count sg)) green
      (Some (as_count sg)).
Proof.
  intros Hin. unfold compareAttribute.
  destruct (find _ (checkAttributeSignature attrs)) as [sg'|] eqn:F.
  - apply find_some in F as [Hin' Hp].
    apply andb_true_iff in Hp as [Hm Ht]. apply jstring_eqb_eq in Hm, Ht.
    cbn [option_map].
    rewrite (checkAttributeSignature_count attrs sg' Hin'), Hm, Ht.
    rewrite <- (checkAttributeSignature_count attrs sg Hin).
    apply gradeEntry_equal.
  - pose proof (find_none _ _ F sg Hin) as Hp. cbv beta in Hp.
    now rewrite !jstring_eqb_refl in Hp.
Qed.

Lemma compareMethod_self meths sg :
  In sg (checkMethodSignature meths) ->
  compareMethod (checkMethodSignature meths) sg
  = mkComparison (method_label "+" sg ++ count_suffix (ms_count sg)) green
      (Some (ms_count sg)).
Proof.
  intros Hin. unfold compareMethod.
  destruct (find _ (checkMethodSignature meths)) as [sg'|] eqn:F.
  - apply find_some in F as [Hin' Hp].
    apply andb_true_iff in Hp as [Hp Hps].
    apply andb_true_iff in Hp as [Hm Hr].
    apply jstring_eqb_eq in Hm, Hr, Hps. cbn [option_map].
    rewrite (checkMethodSignature_count meths sg' Hin'), Hm, Hr, Hps.
    rewrite <- (checkMethodSignature_count meths sg Hin).
    apply gradeEntry_equal.
  - pose proof (find_none _ _ F sg Hin) as Hp. cbv beta in Hp.
    now rewrite !jstring_eqb_refl in Hp.
Qed.

(** A list of classes compared with itself: every node has the match
    colour and no inheritance note, and every entry is an ok entry (match
    colour, with its count), whatever the records are. *)
Theorem compare_tree_self (a : list ClassInfo) :
  exists out,
    compareParsedClasses a a = Some out /\
    forall node, In node out ->
      node_color node = green /\
      inheritance node = None /\
      forall e, In e (node_attributes node ++ node_methods node) ->
        color e = green /\ exists k, count e = Some k.
Proof.
  destruct (compare_names a a) as (out & Ho & _).
  exists out. split; [exact Ho|]. intros node Hin.
  destruct (compare_nodes a a out Ho node Hin) as (aClass & Ha & ->).
  cbn [name]. rewrite Ha. unfold classNode.
  rewrite option_eqb_refl. cbn [negb node_color inheritance].
  split; [reflexivity|]. split; [reflexivity|].
  cbn [node_attributes node_methods]. intros e He.
  apply in_app_or in He as [He|He]; apply in_map_iff in He as (sg & <- & Hsg).
  - rewrite (compareAttribute_self _ _ Hsg). cbn [color count]. eauto.
  - rewrite (compareMethod_self _ _ Hsg). cbn [color count]. eauto.
Qed.

End TreeExtras.

(** ** What the comparison does not depend on *)

Module TreeInvariance.
Import CompareTree TreeFacts TreeExtras.

Lemma compareLoop_ext a b a' b' names :
  (forall n, compareClass a b n = compareClass a' b' n) ->
  compareLoop a b names = compareLoop a' b' names.
Proof.
  intros H. induction names as [|n names IH]; [reflexivity|].
  cbn [compareLoop]. now rewrite H, IH.
Qed.

Section Related.

Variable R : ClassInfo -> ClassInfo -> Prop.
Hypothesis R_name : forall c c', R c c' -> class_name c = class_name c'.

Lemma Forall2_class_names a a' :
  Forall2 R a a' -> class_names a = class_names a'.
Proof.
  induction 1 as [|c c' a a' H _ IH]; [reflexivity|].
  unfold class_names in *. simpl. now rewrite IH, (R_name _ _ H).
Qed.

Lemma Forall2_find a a' n :
  Forall2 R a a' ->
  match find (has_name n) a, find (has_name n) a' with
  | Some c, Some c' => R c c'
  | None, None => True
  | _, _ => False
  end.
Proof.
  induction 1 as [|c c' a a' H _ IH]; [exact I|].
  cbn [find].
  assert (has_name n c' = has_name n c) as ->
      by (unfold has_name; now rewrite (R_name _ _ H)).
  destruct (has_name n c); [exact H|exact IH].
Qed.

End Related.

(** The comparison of related lists, when the node of a class does not
    tell related records apart. *)
Lemma compare_related (RA RB : ClassInfo -> ClassInfo -> Prop) a a' b b' :
  (forall c c', RA c c' -> class_name c = class_name c') ->
  (forall c c', RB c c' -> class_name c = class_name c') ->
  (forall n c c', RA c c' -> classNode n c None = classNode n c' None) ->
  (forall n c c' d d', RA c c' -> RB d d' ->
     classNode n c (Some d) = classNode n c' (Some d')) ->
  Forall2 RA a a' -> Forall2 RB b b' ->
  compareParsedClasses a b = compareParsedClasses a' b'.
Proof.
  intros NA NB Hnone Hsome Fa Fb. unfold compareParsedClasses.
  fold (class_names a) (class_names a').
  rewrite <- (Forall2_class_names RA NA a a' Fa).
  apply compareLoop_ext. intros n. unfold compareClass.
  pose proof (Forall2_find RA NA a a' n Fa) as Ha.
  pose proof (Forall2_find RB NB b b' n Fb) as Hb.
  destruct (find (has_name n) a) as [c|], (find (has_name n) a') as [c'|];
    try contradiction; [|reflexivity].
  destruct (find (has_name n) b) as [d|], (find (has_name n) b') as [d'|];
    try contradiction; f_equal; auto.
Qed.

(** *** The names of the members *)

Lemma filter_map_length (A B : Type) (f : A -> B) (q : B -> bool) l :
  length (filter (fun x => q (f x)) l) = length (filter q (map f l)).
Proof.
  induction l as [|x l IH]; [reflexivity|].
  simpl. destruct (q (f x)); simpl; now rewrite IH.
Qed.

Lemma attribute_count_shape m t attrs attrs' :
  map attributeShape attrs = map attributeShape attrs' ->
  attribute_count m t attrs = attribute_count m t attrs'.
Proof.
  intros E. unfold attribute_count.
  set (q := fun sh : Modifier * jstring =>
              jstring_eqb (modifier_str (fst sh)) m && jstring_eqb (snd sh) t).
  transitivity (length (filter q (map attributeShape attrs))).
  - exact (filter_map_length _ _ attributeShape q attrs).
  - rewrite E. symmetry.
    exact (filter_map_length _ _ attributeShape q attrs').
Qed.

Lemma checkAttributeSignature_shape attrs attrs' :
  map attributeShape attrs = map attributeShape attrs' ->
  checkAttributeSignature attrs = checkAttributeSignature attrs'.
Proof.
  intros E. rewrite !SignatureFacts.checkAttributeSignature_unfold.
  assert (map attributeSignature attrs = map attributeSignature attrs') as ->.
  { set (g := fun sh : Modifier * jstring =>
                modifier_str (fst sh) ++ [pipe] ++ snd sh).
    transitivity (map g (map attributeShape attrs)).
    - symmetry. exact (map_map attributeShape g attrs).
    - rewrite E. exact (map_map attributeShape g attrs'). }
  apply map_ext. intros s. cbv zeta.
  now rewrite (attribute_count_shape _ _ attrs attrs' E).
Qed.

Lemma method_count_shape m r ps meths meths' :
  map methodShape meths = map methodShape meths' ->
  method_count m r ps meths = method_count m r ps meths'.
Proof.
  intros E. unfold method_count.
  set (q := fun sh : Modifier * jstring * list jstring =>
              jstring_eqb (modifier_str (fst (fst sh))) m
              && jstring_eqb (snd (fst sh)) r
              && jstring_eqb (join [comma] (snd sh)) ps).
  transitivity (length (filter q (map methodShape meths))).
  - exact (filter_map_length _ _ methodShape q meths).
  - rewrite E. symmetry.
    exact (filter_map_length _ _ methodShape q meths').
Qed.

Lemma checkMethodSignature_shape meths meths' :
  map methodShape meths = map methodShape meths' ->
  checkMethodSignature meths = checkMethodSignature meths'.
Proof.
  intros E. rewrite !SignatureFacts.checkMethodSignature_unfold.
  assert (map methodSignature meths = map methodSignature meths') as ->.
  { set (g := fun sh : Modifier * jstring * list jstring =>
                modifier_str (fst (fst sh)) ++ [pipe]
                  ++ snd (fst sh) ++ [pipe] ++ join [comma] (snd sh)).
    transitivity (map g (map methodShape meths)).
    - symmetry. exact (map_map methodShape g meths).
    - rewrite E. exact (map_map methodShape g meths'). }
  apply map_ext. intros s. cbv zeta.
  now rewrite (method_count_shape _ _ _ meths meths' E).
Qed.

(** The names of the attributes, of the methods and of the parameters are
    not read by the comparator: two pairs of lists whose records differ
    at most in these names have the same comparison. *)
Theorem compare_tree_ignores_member_names (a a' b b' : list ClassInfo) :
  Forall2 same_shapes a a' ->
  Forall2 same_shapes b b' ->
  compareParsedClasses a b = compareParsedClasses a' b'.
Proof.
  apply compare_related.
  - now intros c c' [H _].
  - now intros c c' [H _].
  - intros n c c' (_ & He & Ha & Hm). unfold classNode.
    now rewrite (checkAttributeSignature_shape _ _ Ha),
                (checkMethodSignature_shape _ _ Hm), He.
  - intros n c c' d d' (_ & He & Ha & Hm) (_ & He' & Ha' & Hm').
    unfold classNode.
    now rewrite (checkAttributeSignature_shape _ _ Ha),
                (checkMethodSignature_shape _ _ Hm),
                (checkAttributeSignature_shape _ _ Ha'),
                (checkMethodSignature_shape _ _ Hm'), He, He'.
Qed.

Lemma compare_tree_ignores_member_names_witness :
  (Forall2 same_shapes [classX; classFoo] [classX; classFoo_renamed] /\
   Forall2 same_shapes [classFoo_renamed] [classFoo]) /\
  compareParsedClasses [classX; classFoo] [classFoo_renamed]
  = compareParsedClasses [classX; classFoo_renamed] [classFoo].
Proof.
  assert (Forall2 same_shapes [classX; classFoo] [classX; classFoo_renamed])
    as HA by (repeat constructor).
  assert (Forall2 same_shapes [classFoo_renamed] [classFoo])
    as HB by (repeat constructor).
  split; [split; assumption|].
  exact (compare_tree_ignores_member_names _ _ _ _ HA HB).
Defined.

End TreeInvariance.

(** ** The order of the members *)

Module MemberOrder.
Import CompareTree TreeFacts TreeExtras TreeInvariance.

Lemma filter_length_perm (A : Type) (p : A -> bool) l l' :
  Permutation l l' -> length (filter p l) = length (filter p l').
Proof.
  induction 1 as [|x l l' _ IH|x y l|l l' l'' _ IH1 _ IH2]; simpl.
  - reflexivity.
  - destruct (p x); simpl; now rewrite IH.
  - destruct (p x), (p y); reflexivity.
  - now rewrite IH1.
Qed.

Lemma Set_of_perm_In l l' x :
  Permutation l l' -> In x (Set_of l) <-> In x (Set_of l').
Proof.
  intros P. rewrite !Set_of_In. split; apply Permutation_in;
    [exact P|now apply Permutation_sym].
Qed.

Lemma Set_of_perm_length l l' :
  Permutation l l' -> length (Set_of l) = length (Set_of l').
Proof.
  intros P. apply Permutation_length, NoDup_Permutation;
    try apply Set_of_NoDup.
  intros x. now apply Set_of_perm_In.
Qed.

Lemma checkAttributeSignature_perm attrs attrs' sg :
  Permutation attrs attrs' ->
  In sg (checkAttributeSignature attrs) <->
  In sg (checkAttributeSignature attrs').
Proof.
  intros P. rewrite !SignatureFacts.checkAttributeSignature_unfold.
  rewrite !in_map_iff.
  assert (forall s, In s (Set_of (map attributeSignature attrs)) <->
                    In s (Set_of (map attributeSignature attrs'))) as HS
      by (intros s; now apply Set_of_perm_In, Permutation_map).
  unfold attribute_count.
  split; intros (s & <- & Hs); exists s; (split; [|now apply HS]); cbv zeta;
    f_equal; [symmetry|]; now apply filter_length_perm.
Qed.

Lemma checkMethodSignature_perm meths meths' sg :
  Permutation meths meths' ->
  In sg (checkMethodSignature meths) <-> In sg (checkMethodSignature meths').
Proof.
  intros P. rewrite !SignatureFacts.checkMethodSignature_unfold.
  rewrite !in_map_iff.
  assert (forall s, In s (Set_of (map methodSignature meths)) <->
                    In s (Set_of (map methodSignature meths'))) as HS
      by (intros s; now apply Set_of_perm_In, Permutation_map).
  unfold method_count.
  split; intros (s & <- & Hs); exists s; (split; [|now apply HS]); cbv zeta;
    f_equal; [symmetry|]; now apply filter_length_perm.
Qed.

(** Shuffling the members does not change what the reducers list, as a
    set of signatures with their counts, nor how many signatures they
    list. *)
Theorem reducers_ignore_member_order
    (attrs attrs' : list AttributeInfo) (meths meths' : list MethodInfo) :
  Permutation attrs attrs' ->
  Permutation meths meths' ->
  (forall sg, In sg (checkAttributeSignature attrs) <->
              In sg (checkAttributeSignature attrs')) /\
  length (checkAttributeSignature attrs)
  = length (checkAttributeSignature attrs') /\
  (forall sg, In sg (checkMethodSignature meths) <->
              In sg (checkMethodSignature meths')) /\
  length (checkMethodSignature meths) = length (checkMethodSignature meths').
Proof.
  intros PA PM. repeat split.
  - now apply checkAttributeSignature_perm.
  - now apply checkAttributeSignature_perm, Permutation_sym.
  - unfold checkAttributeSignature. rewrite !length_map.
    now apply Set_of_perm_length, Permutation_map.
  - now apply checkMethodSignature_perm.
  - now apply checkMethodSignature_perm, Permutation_sym.
  - unfold checkMethodSignature. rewrite !length_map.
    now apply Set_of_perm_length, Permutation_map.
Qed.

Lemma reducers_ignore_member_order_witness :
  (Permutation (attributes classX_extra) (attributes classX_extra_shuffled) /\
   Permutation (methods classFoo) (methods classFoo)) /\
  (forall sg, In sg (checkAttributeSignature (attributes classX_extra)) <->
              In sg (checkAttributeSignature
                       (attributes classX_extra_shuffled))) /\
  length (checkAttributeSignature (attributes classX_extra))
  = length (checkAttributeSignature (attributes classX_extra_shuffled)) /\
  (forall sg, In sg (checkMethodSignature (methods classFoo)) <->
              In sg (checkMethodSignature (methods classFoo))) /\
  length (checkMethodSignature (methods classFoo))
  = length (checkMethodSignature (methods classFoo)).
Proof.
  assert (Permutation (attributes classX_extra)
            (attributes classX_extra_shuffled)) as HA by apply perm_swap.
  assert (Permutation (methods classFoo) (methods classFoo)) as HM
      by apply Permutation_refl.
  split; [split; assumption|].
  exact (reducers_ignore_member_order _ _ _ _ HA HM).
Defined.

Lemma existsb_In_ext (A : Type) (p : A -> bool) l l' :
  (forall x, In x l <-> In x l') -> existsb p l = existsb p l'.
Proof.
  intros H. destruct (existsb p l) eqn:E, (existsb p l') eqn:E';
    try reflexivity.
  - apply existsb_exists in E as (x & Hx & Px).
    assert (existsb p l' = true) by (apply existsb_exists; exists x;
                                     split; [now apply H|exact Px]).
    congruence.
  - apply existsb_exists in E' as (x & Hx & Px).
    assert (existsb p l = true) by (apply existsb_exists; exists x;
                                    split; [now apply H|exact Px]).
    congruence.
Qed.

Lemma find_existsb (A : Type) (p : A -> bool) l :
  is_some (find p l) = existsb p l.
Proof.
  induction l as [|x l IH]; [reflexivity|].
  simpl. now destruct (p x).
Qed.

(** The count that the lookup in a signature list gives, whatever the
    type strings are. *)
Lemma find_attribute_count_any attrs m t :
  option_map as_count
    (find (fun sg => jstring_eqb (as_modifier sg) m
                     && jstring_eqb (as_type sg) t)
          (checkAttributeSignature attrs))
  = if existsb (fun sg => jstring_eqb (as_modifier sg) m
                          && jstring_eqb (as_type sg) t)
               (checkAttributeSignature attrs)
    then Some (attribute_count m t attrs) else None.
Proof.
  rewrite <- find_existsb.
  destruct (find _ (checkAttributeSignature attrs)) as [sg|] eqn:F;
    [|reflexivity].
  apply find_some in F as [Hin Hp].
  apply andb_true_iff in Hp as [Hm Ht]. apply jstring_eqb_eq in Hm, Ht.
  cbn [option_map is_some].
  now rewrite (checkAttributeSignature_count attrs sg Hin), Hm, Ht.
Qed.

Lemma find_method_count_any meths m r ps :
  option_map ms_count
    (find (fun sg => jstring_eqb (ms_modifier sg) m
                     && jstring_eqb (ms_returnType sg) r
                     && jstring_eqb (ms_parameters sg) ps)
          (checkMethodSignature meths))
  = if existsb (fun sg => jstring_eqb (ms_modifier sg) m
                          && jstring_eqb (ms_returnType sg) r
                          && jstring_eqb (ms_parameters sg) ps)
               (checkMethodSignature meths)
    then Some (method_count m r ps meths) else None.
Proof.
  rewrite <- find_existsb.
  destruct (find _ (checkMethodSignature meths)) as [sg|] eqn:F;
    [|reflexivity].
  apply find_some in F as [Hin Hp].
  apply andb_true_iff in Hp as [Hp Hps].
  apply andb_true_iff in Hp as [Hm Hr].
  apply jstring_eqb_eq in Hm, Hr, Hps. cbn [option_map is_some].
  now rewrite (checkMethodSignature_count meths sg Hin), Hm, Hr, Hps.
Qed.

Lemma compareAttribute_perm attrs attrs' sg :
  Permutation attrs attrs' ->
  compareAttribute (checkAttributeSignature attrs) sg
  = compareAttribute (checkAttributeSignature attrs') sg.
Proof.
  intros P. unfold compareAttribute. rewrite !find_attribute_count_any.
  rewrite (existsb_In_ext _ _ (checkAttributeSignature attrs)
             (checkAttributeSignature attrs'))
    by (intros x; now apply checkAttributeSignature_perm).
  unfold attribute_count. now rewrite (filter_length_perm _ _ _ _ P).
Qed.

Lemma compareMethod_perm meths meths' sg :
  Permutation meths meths' ->
  compareMethod (checkMethodSignature meths) sg
  = compareMethod (checkMethodSignature meths') sg.
Proof.
  intros P. unfold compareMethod. rewrite !find_method_count_any.
  rewrite (existsb_In_ext _ _ (checkMethodSignature meths)
             (checkMethodSignature meths'))
    by (intros x; now apply checkMethodSignature_perm).
  unfold method_count. now rewrite (filter_length_perm _ _ _ _ P).
Qed.

Lemma Forall2_eq_refl (A : Type) (l : list A) : Forall2 eq l l.
Proof. induction l; constructor; auto. Qed.

(** The order of the members of the candidate classes is not read by the
    comparator: shuffling the attributes and the methods of the records of
    B leaves the whole comparison unchanged. *)
Theorem compare_tree_ignores_candidate_order (a b b' : list ClassInfo) :
  Forall2 permuted_members b b' ->
  compareParsedClasses a b = compareParsedClasses a b'.
Proof.
  intros Fb.
  apply (compare_related eq permuted_members a a b b'); try assumption.
  - now intros c c' ->.
  - now intros c c' [H _].
  - now intros n c c' ->.
  - intros n c c' d d' -> (_ & He & Ha & Hm). unfold classNode. rewrite He.
    f_equal; apply map_ext; intros sg;
      [now apply compareAttribute_perm|now apply compareMethod_perm].
  - apply Forall2_eq_refl.
Qed.

Lemma compare_tree_ignores_candidate_order_witness :
  Forall2 permuted_members [classX_extra; classFoo]
    [classX_extra_shuffled; classFoo] /\
  compareParsedClasses [classX_extra] [classX_extra; classFoo]
  = compareParsedClasses [classX_extra] [classX_extra_shuffled; classFoo].
Proof.
  assert (Forall2 permuted_members [classX_extra; classFoo]
            [classX_extra_shuffled; classFoo]) as H.
  { repeat constructor; try apply perm_swap; apply Permutation_refl. }
  split; [exact H|].
  exact (compare_tree_ignores_candidate_order [classX_extra] _ _ H).
Defined.

End MemberOrder.

(** ** The counts of the reducers *)

Module SignatureCounts.
Import CompareTree.

Lemma list_sum_zero (A : Type) (l : list A) :
  list_sum (map (fun _ => 0) l) = 0.
Proof. induction l; simpl; auto. Qed.

Lemma list_sum_plus (A : Type) (g h : A -> nat) l :
  list_sum (map (fun x => g x + h x) l)
  = list_sum (map g l) + list_sum (map h l).
Proof. induction l as [|x l IH]; simpl; [reflexivity|]. rewrite IH. lia. Qed.

Lemma indicator_sum k l :
  NoDup l -> In k l ->
  list_sum (map (fun s => if jstring_eqb k s then 1 else 0) l) = 1.
Proof.
  induction 1 as [|x l Hx ND IH]; [easy|]. intros [->|Hin]; simpl.
  - rewrite jstring_eqb_refl.
    rewrite (map_ext_in _ (fun _ => 0)), list_sum_zero; [reflexivity|].
    intros s Hs. destruct (jstring_eqb k s) eqn:E; [|reflexivity].
    apply jstring_eqb_eq in E. congruence.
  - destruct (jstring_eqb k x) eqn:E.
    + apply jstring_eqb_eq in E. congruence.
    + now rewrite IH.
Qed.

(** Every key is counted once, under its own value. *)
Lemma sum_occurrences keys l :
  NoDup l -> (forall k, In k keys -> In k l) ->
  list_sum (map (fun s => length (filter (fun k => jstring_eqb k s) keys)) l)
  = length keys.
Proof.
  intros ND. induction keys as [|k keys IH]; intros Hin.
  - apply list_sum_zero.
  - rewrite (map_ext _
               (fun s => (if jstring_eqb k s then 1 else 0)
                         + length (filter (fun k' => jstring_eqb k' s) keys))).
    + rewrite list_sum_plus, IH, indicator_sum; auto.
      * now apply Hin; left.
      * intros k' Hk'. apply Hin. now right.
    + intros s. simpl. now destruct (jstring_eqb k s).
Qed.

Lemma count_by_key (A : Type) (key : A -> jstring) (p : A -> bool) l s :
  (forall x, In x l -> p x = jstring_eqb (key x) s) ->
  length (filter p l)
  = length (filter (fun k => jstring_eqb k s) (map key l)).
Proof.
  induction l as [|x l IH]; intros H; [reflexivity|].
  simpl. rewrite (H x) by now left.
  destruct (jstring_eqb (key x) s); simpl; rewrite IH; auto;
    intros y Hy; apply H; now right.
Qed.

(** Two attributes have the same signature string exactly when they have
    the same modifier and the same type. *)
Lemma attributeSignature_eqb a a0 :
  jstring_eqb (modifier_str (attr_modifier a)) (modifier_str (attr_modifier a0))
  && jstring_eqb (attr_type a) (attr_type a0)
  = jstring_eqb (attributeSignature a) (attributeSignature a0).
Proof.
  destruct (jstring_eqb (attributeSignature a) (attributeSignature a0)) eqn:E.
  - apply jstring_eqb_eq in E. unfold attributeSignature in E. cbn [app] in E.
    apply first_occurrence_unique in E as [-> ->];
      try apply SignatureFacts.modifier_str_pipe_free.
    now rewrite !jstring_eqb_refl.
  - apply andb_false_iff.
    destruct (jstring_eqb (modifier_str (attr_modifier a))
                (modifier_str (attr_modifier a0))) eqn:E1; [|now left].
    destruct (jstring_eqb (attr_type a) (attr_type a0)) eqn:E2; [|now right].
    apply jstring_eqb_eq in E1, E2. apply jstring_eqb_neq in E.
    exfalso. apply E. unfold attributeSignature. now rewrite E1, E2.
Qed.

Lemma methodSignature_eqb m m0 :
  clean_method m -> clean_method m0 ->
  jstring_eqb (modifier_str (meth_modifier m)) (modifier_str (meth_modifier m0))
  && jstring_eqb (returnType m) (returnType m0)
  && jstring_eqb (paramTypes m) (paramTypes m0)
  = jstring_eqb (methodSignature m) (methodSignature m0).
Proof.
  intros [Hr _] [Hr0 _].
  destruct (jstring_eqb (methodSignature m) (methodSignature m0)) eqn:E.
  - apply jstring_eqb_eq in E. unfold methodSignature in E. cbn [app] in E.
    apply first_occurrence_unique in E as [-> E];
      try apply SignatureFacts.modifier_str_pipe_free.
    apply first_occurrence_unique in E as [-> ->]; try assumption.
    now rewrite !jstring_eqb_refl.
  - destruct (jstring_eqb (modifier_str (meth_modifier m))
                (modifier_str (meth_modifier m0))) eqn:E1; [|reflexivity].
    destruct (jstring_eqb (returnType m) (returnType m0)) eqn:E2;
      [|reflexivity].
    destruct (jstring_eqb (paramTypes m) (paramTypes m0)) eqn:E3;
      [|reflexivity].
    apply jstring_eqb_eq in E1, E2, E3. apply jstring_eqb_neq in E.
    exfalso. apply E. unfold methodSignature. now rewrite E1, E2, E3.
Qed.

Lemma checkAttributeSignature_sum attrs :
  Forall clean_attribute attrs ->
  list_sum (map as_count (checkAttributeSignature attrs)) = length attrs.
Proof.
  intros Hclean. rewrite Forall_forall in Hclean.
  rewrite SignatureFacts.checkAttributeSignature_unfold, map_map.
  rewrite (map_ext_in _
             (fun s => length (filter (fun k => jstring_eqb k s)
                                 (map attributeSignature attrs)))).
  - rewrite sum_occurrences, length_map; auto using Set_of_NoDup.
    intros k Hk. now apply Set_of_In.
  - intros s Hs. apply (proj1 (Set_of_In _ _)) in Hs.
    apply in_map_iff in Hs as (a0 & <- & Hin).
    pose proof (SignatureFacts.attribute_signature_entry attrs a0
                  (Hclean a0 Hin)) as E.
    cbv zeta in E |- *. rewrite E. cbn [as_count]. unfold attribute_count.
    apply count_by_key. intros a _. apply attributeSignature_eqb.
Qed.

Lemma checkMethodSignature_sum meths :
  Forall clean_method meths ->
  list_sum (map ms_count (checkMethodSignature meths)) = length meths.
Proof.
  intros Hclean. rewrite Forall_forall in Hclean.
  rewrite SignatureFacts.checkMethodSignature_unfold, map_map.
  rewrite (map_ext_in _
             (fun s => length (filter (fun k => jstring_eqb k s)
                                 (map methodSignature meths)))).
  - rewrite sum_occurrences, length_map; auto using Set_of_NoDup.
    intros k Hk. now apply Set_of_In.
  - intros s Hs. apply (proj1 (Set_of_In _ _)) in Hs.
    apply in_map_iff in Hs as (m0 & <- & Hin).
    pose proof (SignatureFacts.method_signature_entry meths m0
                  (Hclean m0 Hin)) as E.
    cbv zeta in E |- *. rewrite E. cbn [ms_count]. unfold method_count.
    apply count_by_key. intros m Hm. apply methodSignature_eqb; auto.
Qed.

(** When no type string contains the delimiter, the counts that a reducer
    lists are all positive and add up to the number of members: every
    member is counted under exactly one signature. *)
Theorem reducer_counts_partition
    (attrs : list AttributeInfo) (meths : list MethodInfo) :
  Forall clean_attribute attrs ->
  Forall clean_method meths ->
  list_sum (map as_count (checkAttributeSignature attrs)) = length attrs /\
  Forall (fun sg => 1 <= as_count sg) (checkAttributeSignature attrs) /\
  list_sum (map ms_count (checkMethodSignature meths)) = length meths /\
  Forall (fun sg => 1 <= ms_count sg) (checkMethodSignature meths).
Proof.
  intros HA HM. split; [now apply checkAttributeSignature_sum|].
  split; [|split; [now apply checkMethodSignature_sum|]].
  - apply Forall_forall. intros sg Hsg.
    apply (SignatureFacts.checkAttributeSignature_In attrs sg HA) in Hsg
      as (attr & Hin & ->).
    cbn [as_count]. now apply SignatureFacts.attribute_count_positive.
  - apply Forall_forall. intros sg Hsg.
    apply (SignatureFacts.checkMethodSignature_In meths sg HM) in Hsg
      as (method & Hin & ->).
    cbn [ms_count]. now apply SignatureFacts.method_count_positive.
Qed.

Lemma reducer_counts_partition_witness :
  (Forall clean_attribute (attributes classFoo) /\
   Forall clean_method (methods classFoo)) /\
  list_sum (map as_count (checkAttributeSignature (attributes classFoo)))
  = length (attributes classFoo) /\
  Forall (fun sg => 1 <= as_count sg)
         (checkAttributeSignature (attributes classFoo)) /\
  list_sum (map ms_count (checkMethodSignature (methods classFoo)))
  = length (methods classFoo) /\
  Forall (fun sg => 1 <= ms_count sg)
         (checkMethodSignature (methods classFoo)).
Proof.
  assert (Forall clean_attribute (attributes classFoo)) as HA
      by (repeat constructor; vm_compute; intuition discriminate).
  assert (Forall clean_method (methods classFoo)) as HM
      by (repeat constructor; vm_compute; intuition discriminate).
  split; [split; assumption|].
  exact (reducer_counts_partition _ _ HA HM).
Defined.

End SignatureCounts.

(** ** When the entries of a node are all ok *)

Module TreeVerdict.
Import CompareTree TreeFacts TreeClaims.

Lemma gradeEntry_green label cA cB :
  1 <= cA ->
  color (gradeEntry label cA (found_count cB)) = green <-> cB = cA.
Proof.
  intros H. unfold gradeEntry, found_count.
  destruct (Nat.eqb cB 0) eqn:E0.
  - apply Nat.eqb_eq in E0. cbn [color]. split; [discriminate|lia].
  - apply Nat.eqb_neq in E0.
    destruct (Nat.ltb cB cA) eqn:E1.
    + apply Nat.ltb_lt in E1. cbn [color]. split; [discriminate|lia].
    + apply Nat.ltb_ge in E1. destruct (Nat.ltb cA cB) eqn:E2.
      * apply Nat.ltb_lt in E2. cbn [color]. split; [discriminate|lia].
      * apply Nat.ltb_ge in E2. cbn [color]. split; [lia|reflexivity].
Qed.

(** For a class name found in both lists and type strings without the
    delimiter: the attribute entries of the node are all ok exactly when
    the class of B has, of every shape of attribute of the class of A, as
    many attributes as the class of A; the same for the methods.
    Attributes and methods of B of other shapes do not matter. *)
Theorem entries_ok_iff_same_counts
    (a b : list ClassInfo) (n : jstring) (bClass : ClassInfo) :
  In n (class_names a) ->
  find (has_name n) b = Some bClass ->
  (forall c, find (has_name n) a = Some c -> clean_class c) ->
  clean_class bClass ->
  exists aClass out node,
    find (has_name n) a = Some aClass /\
    compareParsedClasses a b = Some out /\
    nodes_named n out = [node] /\
    ((forall e, In e (node_attributes node) -> color e = green) <->
     (forall attr, In attr (attributes aClass) ->
        attribute_count (modifier_str (attr_modifier attr)) (attr_type attr)
          (attributes bClass)
        = attribute_count (modifier_str (attr_modifier attr)) (attr_type attr)
            (attributes aClass))) /\
    ((forall e, In e (node_methods node) -> color e = green) <->
     (forall method, In method (methods aClass) ->
        method_count (modifier_str (meth_modifier method)) (returnType method)
          (paramTypes method) (methods bClass)
        = method_count (modifier_str (meth_modifier method))
            (returnType method) (paramTypes method) (methods aClass))).
Proof.
  intros Hn Hb Ha' [HbA HbM].
  destruct (found_class_entries a b n bClass Hn Hb)
    as (aClass & out & node & Ha & Ho & Hf & EA & EM).
  destruct (Ha' aClass Ha) as [HaA HaM].
  exists aClass, out, node. repeat split; try assumption.
  - intros H attr Hin.
    apply (gradeEntry_green
             (fun head => str head ++ str " "
                            ++ modifier_str (attr_modifier attr) ++ str " "
                            ++ attr_type attr));
      [now apply SignatureFacts.attribute_count_positive|].
    apply (H (attribute_entry (attributes aClass) (attributes bClass) attr)).
    rewrite EA. apply in_map_iff. eexists.
    split; [now apply compareAttribute_entry|].
    apply SignatureFacts.checkAttributeSignature_In; eauto.
  - intros H e He. rewrite EA in He.
    apply in_map_iff in He as (sg & <- & Hsg).
    apply (SignatureFacts.checkAttributeSignature_In _ _ HaA) in Hsg
      as (attr & Hin & ->).
    rewrite compareAttribute_entry by assumption.
    apply gradeEntry_green;
      [now apply SignatureFacts.attribute_count_positive|now apply H].
  - intros H method Hin.
    apply (gradeEntry_green
             (fun head => str head ++ str " "
                            ++ tempMod (modifier_str (meth_modifier method))
                            ++ returnType method ++ str "("
                            ++ paramTypes method ++ str ")"));
      [now apply SignatureFacts.method_count_positive|].
    apply (H (method_entry (methods aClass) (methods bClass) method)).
    rewrite EM. apply in_map_iff. eexists.
    split; [now apply compareMethod_entry|].
    apply SignatureFacts.checkMethodSignature_In; eauto.
  - intros H e He. rewrite EM in He.
    apply in_map_iff in He as (sg & <- & Hsg).
    apply (SignatureFacts.checkMethodSignature_In _ _ HaM) in Hsg
      as (method & Hin & ->).
    rewrite compareMethod_entry by assumption.
    apply gradeEntry_green;
      [now apply SignatureFacts.method_count_positive|now apply H].
Qed.

Lemma entries_ok_iff_same_counts_witness :
  (In (str "X") (class_names [classX_extra]) /\
   find (has_name (str "X")) [classX] = Some classX /\
   (forall c, find (has_name (str "X")) [classX_extra] = Some c ->
              clean_class c) /\
   clean_class classX) /\
  exists aClass out node,
    find (has_name (str "X")) [classX_extra] = Some aClass /\
    compareParsedClasses [classX_extra] [classX] = Some out /\
    nodes_named (str "X") out = [node] /\
    ((forall e, In e (node_attributes node) -> color e = green) <->
     (forall attr, In attr (attributes aClass) ->
        attribute_count (modifier_str (attr_modifier attr)) (attr_type attr)
          (attributes classX)
        = attribute_count (modifier_str (attr_modifier attr)) (attr_type attr)
            (attributes aClass))) /\
    ((forall e, In e (node_methods node) -> color e = green) <->
     (forall method, In method (methods aClass) ->
        method_count (modifier_str (meth_modifier method)) (returnType method)
          (paramTypes method) (methods classX)
        = method_count (modifier_str (meth_modifier method))
            (returnType method) (paramTypes method) (methods aClass))).
Proof.
  assert (In (str "X") (class_names [classX_extra])) as H1
      by (left; reflexivity).
  assert (find (has_name (str "X")) [classX] = Some classX) as H2
      by reflexivity.
  assert (clean_class classX) as H4
      by (repeat constructor; vm_compute; intuition discriminate).
  assert (clean_class classX_extra) as HE
      by (repeat constructor; vm_compute; intuition discriminate).
  assert (forall c, find (has_name (str "X")) [classX_extra] = Some c ->
                    clean_class c) as H3
      by (intros c [= <-]; exact HE).
  split; [split; [exact H1|split; [exact H2|split; [exact H3|exact H4]]]|].
  exact (entries_ok_iff_same_counts [classX_extra] [classX] (str "X") classX
           H1 H2 H3 H4).
Defined.

End TreeVerdict.

(** ** The verdict of the comparator that returns error strings *)

Module FlatExtras.
Import CompareFlat.

Lemma attr_sigs_eqb_eq x y : attr_sigs_eqb x y = true <-> x = y.
Proof.
  revert y; induction x as [|[[m1 t1] c1] x IH]; intros [|[[m2 t2] c2] y];
    cbn [attr_sigs_eqb]; split; try easy.
  - intros H. apply andb_true_iff in H as [H H4].
    apply andb_true_iff in H as [H H3]. apply andb_true_iff in H as [H1 H2].
    apply jstring_eqb_eq in H1, H2. apply Nat.eqb_eq in H3. apply IH in H4.
    congruence.
  - intros [= -> -> -> ->]. rewrite !jstring_eqb_refl, Nat.eqb_refl. simpl.
    now apply IH.
Qed.

Lemma method_sigs_eqb_eq x y : method_sigs_eqb x y = true <-> x = y.
Proof.
  revert y; induction x as [|[[[m1 r1] p1] c1] x IH];
    intros [|[[[m2 r2] p2] c2] y]; cbn [method_sigs_eqb]; split; try easy.
  - intros H. apply andb_true_iff in H as [H H5].
    apply andb_true_iff in H as [H H4]. apply andb_true_iff in H as [H H3].
    apply andb_true_iff in H as [H1 H2].
    apply jstring_eqb_eq in H1, H2, H3. apply Nat.eqb_eq in H4.
    apply IH in H5. congruence.
  - intros [= -> -> -> -> ->]. rewrite !jstring_eqb_refl, Nat.eqb_refl.
    simpl. now apply IH.
Qed.

(** The loop pushes no error for a class exactly when the class is found
    in B with the same two signature lists. *)
Lemma classErrors_nil n aClass ob :
  classErrors n aClass ob = [] <->
  exists bClass,
    ob = Some bClass /\
    checkAttributeSignature (attributes aClass)
    = checkAttributeSignature (attributes bClass) /\
    checkMethodSignature (methods aClass)
    = checkMethodSignature (methods bClass).
Proof.
  unfold classErrors. cbv zeta. destruct ob as [bClass|].
  - destruct (attr_sigs_eqb (checkAttributeSignature (attributes aClass))
                (checkAttributeSignature (attributes bClass))) eqn:EA;
      destruct (method_sigs_eqb (checkMethodSignature (methods aClass))
                  (checkMethodSignature (methods bClass))) eqn:EM;
      simpl; split; try discriminate.
    all: try (intros _; exists bClass; apply attr_sigs_eqb_eq in EA;
              apply method_sigs_eqb_eq in EM; now auto).
    all: intros (d & [= <-] & HA & HM); apply attr_sigs_eqb_eq in HA;
      apply method_sigs_eqb_eq in HM;
      first [reflexivity | rewrite HA in EA; discriminate
            | rewrite HM in EM; discriminate].
  - split; [discriminate|]. now intros (d & [=] & _).
Qed.

Lemma flat_compareLoop_nil a b names more :
  compareLoop a b names = Some more ->
  more = [] <->
  forall n, In n names ->
    exists aClass,
      find (has_name n) a = Some aClass /\
      classErrors n aClass (find (has_name n) b) = [].
Proof.
  revert more; induction names as [|n names IH]; intros more; cbn [compareLoop].
  - intros [= <-]. split; [easy|reflexivity].
  - destruct (find (has_name n) a) as [aClass|] eqn:Fa; [|discriminate].
    destruct (compareLoop a b names) as [errors|]; [|discriminate].
    intros [= <-]. specialize (IH errors eq_refl). split.
    + intros E. apply app_eq_nil in E as [E1 E2].
      intros m [<-|Hm]; [rewrite Fa; eauto|]. now apply IH.
    + intros H. destruct (H n (or_introl eq_refl)) as (c & Hc & Hnil).
      rewrite Fa in Hc. injection Hc as <-. rewrite Hnil. simpl.
      apply IH. intros m Hm. apply H. now right.
Qed.

Lemma flat_compareLoop_In a b names more n aClass e :
  compareLoop a b names = Some more ->
  In n names -> find (has_name n) a = Some aClass ->
  In e (classErrors n aClass (find (has_name n) b)) -> In e more.
Proof.
  revert more; induction names as [|m names IH]; intros more; [easy|].
  cbn [compareLoop].
  destruct (find (has_name m) a) as [c|] eqn:Fa; [|discriminate].
  destruct (compareLoop a b names) as [errors|]; [|discriminate].
  intros [= <-] [->|Hin] Hf He; apply in_or_app.
  - left. rewrite Fa in Hf. now injection Hf as ->.
  - right. now apply (IH errors).
Qed.

Lemma flat_compare_returns a b :
  exists more,
    compareLoop a b (Set_of (class_names a)) = Some more /\
    compareParsedClasses a b
    = Some (mkResult
              (Nat.eqb (length ((if negb (Nat.eqb (length a) (length b))
                                 then [classNumberMismatch a b] else [])
                                ++ more)) 0)
              ((if negb (Nat.eqb (length a) (length b))
                then [classNumberMismatch a b] else []) ++ more)).
Proof.
  destruct (FlatFacts.flat_compareLoop_total a b (Set_of (class_names a)))
    as [more Hm].
  { intros n Hn. now apply Set_of_In. }
  exists more. split; [exact Hm|].
  unfold compareParsedClasses. fold (class_names a). now rewrite Hm.
Qed.

(** The comparator always returns, and it reports [Identical] exactly when
    the two lists have the same length and every class name of A is found
    in B with the same list of attribute signatures and the same list of
    method signatures (same signatures, same counts, same order).  The
    [extends] values are not compared. *)
Theorem flat_identical_iff (a b : list ClassInfo) :
  exists r,
    compareParsedClasses a b = Some r /\
    (Identical r = true <-> result_errors r = []) /\
    (Identical r = true <->
     length a = length b /\
     forall n, In n (class_names a) ->
       exists aClass bClass,
         find (has_name n) a = Some aClass /\
         find (has_name n) b = Some bClass /\
         checkAttributeSignature (attributes aClass)
         = checkAttributeSignature (attributes bClass) /\
         checkMethodSignature (methods aClass)
         = checkMethodSignature (methods bClass)).
Proof.
  destruct (flat_compare_returns a b) as (more & Hm & ->).
  eexists. split; [reflexivity|]. cbn [Identical result_errors].
  pose proof (flat_compareLoop_nil a b _ more Hm) as Hnil.
  assert (forall l : list jstring, Nat.eqb (length l) 0 = true <-> l = [])
    as Hlen.
  { intros [|x l]; simpl; split; congruence. }
  split; [apply Hlen|]. rewrite Hlen. split.
  - intros E. apply app_eq_nil in E as [E1 E2].
    destruct (Nat.eqb (length a) (length b)) eqn:EL; [|discriminate].
    apply Nat.eqb_eq in EL. split; [exact EL|].
    intros n Hn. apply Set_of_In in Hn.
    destruct (proj1 Hnil E2 n Hn) as (aClass & Ha & Hc).
    apply classErrors_nil in Hc as (bClass & Hb & HA & HM).
    exists aClass, bClass. auto.
  - intros [EL H]. apply Nat.eqb_eq in EL. rewrite EL. cbn [negb app].
    apply Hnil. intros n Hn. apply (proj1 (Set_of_In _ _)) in Hn.
    destruct (H n Hn) as (aClass & bClass & Ha & Hb & HA & HM).
    exists aClass. split; [exact Ha|]. apply classErrors_nil.
    exists bClass. auto.
Qed.

(** A list of classes compared with itself is reported identical, with no
    error, whatever the records are. *)
Theorem flat_self_identical (a : list ClassInfo) :
  compareParsedClasses a a = Some (mkResult true []).
Proof.
  destruct (flat_compare_returns a a) as (more & Hm & ->).
  rewrite Nat.eqb_refl. cbn [negb app].
  assert (more = []) as ->; [|reflexivity].
  apply (flat_compareLoop_nil a a _ more Hm). intros n Hn.
  apply (proj1 (Set_of_In _ _)) in Hn.
  destruct (find_has_name_Some n a Hn) as [c Hc].
  exists c. split; [exact Hc|]. apply classErrors_nil. eauto.
Qed.

(** A class name of A that is absent from B is reported: the result is
    not identical and its errors hold the line that names the class. *)
Theorem flat_missing_class_reported (a b : list ClassInfo) (n : jstring) :
  In n (class_names a) ->
  ~ In n (class_names b) ->
  exists r,
    compareParsedClasses a b = Some r /\
    Identical r = false /\
    In (str "Class " ++ n ++ str " not found in Student result.")
       (result_errors r).
Proof.
  intros Hn Hb. destruct (flat_compare_returns a b) as (more & Hm & ->).
  eexists. split; [reflexivity|]. cbn [Identical result_errors].
  destruct (find_has_name_Some n a Hn) as [aClass Ha].
  assert (find (has_name n) b = None) as Hnone.
  { destruct (find (has_name n) b) as [c|] eqn:E; [|reflexivity].
    exfalso. apply Hb. pose proof (find_has_name_name _ _ _ E) as <-.
    apply find_some in E as [E _]. now apply in_map. }
  assert (In (str "Class " ++ n ++ str " not found in Student result.") more)
    as Hin.
  { apply (flat_compareLoop_In a b _ more n aClass _ Hm);
      [now apply Set_of_In|exact Ha|].
    rewrite Hnone. left. unfold BoxB. simpl.
    repeat (rewrite <- app_assoc; simpl). reflexivity. }
  split.
  - destruct (_ ++ more) as [|x l] eqn:E; [|reflexivity].
    apply app_eq_nil in E as [_ ->]. contradiction.
  - apply in_or_app. now right.
Qed.

Lemma flat_missing_class_reported_witness :
  (In (str "Foo") (class_names [classX; classFoo]) /\
   ~ In (str "Foo") (class_names [classX; classY])) /\
  exists r,
    compareParsedClasses [classX; classFoo] [classX; classY] = Some r /\
    Identical r = false /\
    In (str "Class " ++ str "Foo" ++ str " not found in Student result.")
       (result_errors r).
Proof.
  assert (In (str "Foo") (class_names [classX; classFoo])) as H1
      by (right; left; reflexivity).
  assert (~ In (str "Foo") (class_names [classX; classY])) as H2
      by (simpl; intuition discriminate).
  split; [split; assumption|].
  exact (flat_missing_class_reported [classX; classFoo] [classX; classY]
           (str "Foo") H1 H2).
Defined.

End FlatExtras.

(** ** The brace loop *)

Module BraceFacts.

Lemma opens_cons x s :
  opens (x :: s) = (if char_eqb x lbrace then 1 else 0) + opens s.
Proof. unfold opens. cbn [filter]. now destruct (char_eqb x lbrace). Qed.

Lemma closes_cons x s :
  closes (x :: s) = (if char_eqb x rbrace then 1 else 0) + closes s.
Proof. unfold closes. cbn [filter]. now destruct (char_eqb x rbrace). Qed.

Lemma lbrace_not_rbrace x :
  char_eqb x lbrace = true -> char_eqb x rbrace = false.
Proof.
  unfold char_eqb, lbrace, rbrace. intros H. apply N.eqb_eq in H. now subst.
Qed.

(** The loop started at depth [c] stops at the first position where the
    depth reaches zero. *)
Lemma braceLoop_spec rest :
  forall c n, 1 <= c ->
    braceLoop rest c = Some n <->
    n < length rest /\
    nth n rest 0%N = rbrace /\
    c + opens (firstn n rest) = closes (firstn n rest) + 1 /\
    forall k, k <= n -> closes (firstn k rest) < c + opens (firstn k rest).
Proof.
  induction rest as [|x rest IH]; intros c n Hc.
  - cbn [braceLoop length]. split; [discriminate|]. intros [H _]. lia.
  - cbn [braceLoop]. cbv zeta.
    destruct (char_eqb x lbrace) eqn:EL.
    + rewrite (lbrace_not_rbrace x EL). cbn [Nat.eqb].
      destruct n as [|m].
      * split.
        -- destruct (braceLoop rest (S c)); discriminate.
        -- intros (_ & Hx & _). cbn [nth] in Hx. subst x.
           discriminate EL.
      * assert (option_map S (braceLoop rest (S c)) = Some (S m)
                <-> braceLoop rest (S c) = Some m) as ->.
        { destruct (braceLoop rest (S c)); simpl; split; congruence. }
        rewrite (IH (S c) m) by lia. cbn [length nth firstn].
        rewrite opens_cons, closes_cons, EL, (lbrace_not_rbrace x EL).
        split; intros (H1 & H2 & H3 & H4); (split; [lia|]);
          (split; [exact H2|]); (split; [lia|]).
        -- intros [|k] Hk; [cbn [firstn]; unfold closes; simpl; lia|].
           cbn [firstn].
           rewrite opens_cons, closes_cons, EL, (lbrace_not_rbrace x EL).
           specialize (H4 k). lia.
        -- intros k Hk. specialize (H4 (S k)). cbn [firstn] in H4.
           rewrite opens_cons, closes_cons, EL, (lbrace_not_rbrace x EL) in H4.
           lia.
    + destruct (char_eqb x rbrace) eqn:ER.
      * destruct c as [|c]; [lia|]. cbn [pred].
        destruct c as [|c]; cbn [Nat.eqb].
        -- split.
           ++ intros [= <-]. cbn [length nth firstn].
              split; [lia|]. split.
              ** unfold char_eqb in ER. now apply N.eqb_eq in ER.
              ** split; [reflexivity|]. intros k Hk.
                 replace k with 0 by lia. cbn [firstn]. unfold closes. simpl.
                 lia.
           ++ intros (_ & _ & _ & H4). destruct n as [|m]; [reflexivity|].
              specialize (H4 1). cbn [firstn] in H4.
              rewrite opens_cons, closes_cons, EL, ER in H4.
              unfold opens, closes in H4. simpl in H4. lia.
        -- destruct n as [|m].
           ++ split.
              ** destruct (braceLoop rest (S c)); discriminate.
              ** intros (_ & _ & H3 & _). cbn [firstn] in H3.
                 unfold opens, closes in H3. simpl in H3. lia.
           ++ assert (option_map S (braceLoop rest (S c)) = Some (S m)
                      <-> braceLoop rest (S c) = Some m) as ->.
              { destruct (braceLoop rest (S c)); simpl; split; congruence. }
              rewrite (IH (S c) m) by lia. cbn [length nth firstn].
              rewrite opens_cons, closes_cons, EL, ER.
              split; intros (H1 & H2 & H3 & H4); (split; [lia|]);
                (split; [exact H2|]); (split; [lia|]).
              ** intros [|k] Hk; [cbn [firstn]; unfold closes; simpl; lia|].
                 cbn [firstn]. rewrite opens_cons, closes_cons, EL, ER.
                 specialize (H4 k). lia.
              ** intros k Hk. specialize (H4 (S k)). cbn [firstn] in H4.
                 rewrite opens_cons, closes_cons, EL, ER in H4. lia.
      * destruct c as [|c]; [lia|]. cbn [Nat.eqb].
        destruct n as [|m].
        -- split.
           ++ destruct (braceLoop rest (S c)); discriminate.
           ++ intros (_ & Hx & _). cbn [nth] in Hx. subst x.
              discriminate ER.
        -- assert (option_map S (braceLoop rest (S c)) = Some (S m)
                   <-> braceLoop rest (S c) = Some m) as ->.
           { destruct (braceLoop rest (S c)); simpl; split; congruence. }
           rewrite (IH (S c) m) by lia. cbn [length nth firstn].
           rewrite opens_cons, closes_cons, EL, ER.
           split; intros (H1 & H2 & H3 & H4); (split; [lia|]);
             (split; [exact H2|]); (split; [lia|]).
           ++ intros [|k] Hk; [cbn [firstn]; unfold closes; simpl; lia|].
              cbn [firstn]. rewrite opens_cons, closes_cons, EL, ER.
              specialize (H4 k). lia.
           ++ intros k Hk. specialize (H4 (S k)). cbn [firstn] in H4.
              rewrite opens_cons, closes_cons, EL, ER in H4. lia.
Qed.

Lemma class_body_balance rest n :
  braceLoop rest 1 = Some n ->
  opens (firstn n rest) = closes (firstn n rest).
Proof.
  intros H. apply (proj1 (braceLoop_spec rest 1 n (le_n 1))) in H. lia.
Qed.

(** The loop of [extractClassBodies] ends at the closing brace that
    matches the opening brace of the header: it stops at position [n] of
    the text after that brace exactly when the character there is a
    closing brace, the text before it has as many opening as closing
    braces, and no shorter prefix has more closing than opening braces.
    When there is no such position the loop runs to the end of the
    source. *)
Theorem class_body_matching_brace (rest : jstring) (n : nat) :
  braceLoop rest 1 = Some n <->
  n < length rest /\
  nth n rest 0%N = rbrace /\
  opens (firstn n rest) = closes (firstn n rest) /\
  forall k, k <= n -> closes (firstn k rest) <= opens (firstn k rest).
Proof.
  rewrite (braceLoop_spec rest 1 n (le_n 1)).
  split; intros (H1 & H2 & H3 & H4); (split; [exact H1|]);
    (split; [exact H2|]); (split; [lia|]);
    intros k Hk; specialize (H4 k Hk); lia.
Qed.

End BraceFacts.

(** ** What the parser returns *)

Module ParserFacts.
Import RegexFacts AttributeFacts BraceFacts.

(** Every element of the loop over a global pattern is a match of the
    pattern at some position of the input. *)
Lemma exec_all_In r s :
  forall skip c rest,
    In (c, rest) (exec_all r skip s) ->
    exists pre s1, s = pre ++ s1 /\ match_at r s1 = Some (rest, c).
Proof.
  induction s as [|x s IH]; intros skip c rest; [easy|].
  assert (forall k, In (c, rest) (exec_all r k s) ->
            exists pre s1, x :: s = pre ++ s1 /\
                           match_at r s1 = Some (rest, c)) as Hrec.
  { intros k H. apply IH in H as (pre & s1 & -> & H).
    now exists (x :: pre), s1. }
  cbn [exec_all]. destruct skip as [|skip]; [|apply Hrec].
  destruct (match_at r (x :: s)) as [[rest0 c0]|] eqn:E; [|apply Hrec].
  intros [[= <- <-]|H]; [|now apply Hrec in H].
  now exists [], (x :: s).
Qed.

Lemma match_at_suffix r s rest c :
  match_at r s = Some (rest, c) -> exists m, s = m ++ rest.
Proof.
  intros H. apply match_at_sound in H as (c' & M & _).
  exact (Matches_suffix _ _ _ _ _ M).
Qed.

Lemma Matches_Ahead_inv r s c s2 c2 :
  Matches (Ahead r) s c s2 c2 -> s2 = s /\ exists s', Matches r s c s' c2.
Proof. inversion 1; subst; eauto. Qed.

Lemma type_char_not_pipe c : is_type_char c = true -> c <> pipe.
Proof. intros H. apply is_type_char_bounds in H. unfold pipe. lia. Qed.

Lemma type_token_pipe_free s : type_token s -> pipe_free s.
Proof.
  intros [_ H]. apply forallb_not_In with is_type_char; [exact H|].
  apply type_char_not_pipe.
Qed.

(** *** Attributes *)

Lemma parseJavaAttributes_In body attr :
  In attr (parseJavaAttributes body) ->
  type_token (attr_type attr) /\
  attr_type attr <> str "return" /\
  word_token (attr_name attr).
Proof.
  unfold parseJavaAttributes. intros H.
  apply in_flat_map in H as ([c rest] & Hm & H). cbn [fst] in H.
  apply exec_all_In in Hm as (pre & s1 & _ & Hm).
  apply attribute_match_shape in Hm
    as (mo & ty & w1 & nm & w2 & _ & _ & _ & Hty & Fty & _ & _ & Hnm & Fnm
        & _ & C2 & C3).
  unfold cap_str in H. rewrite C2, C3 in H.
  destruct (jstring_eqb ty (str "return")) eqn:E; cbn [negb] in H; [easy|].
  destruct H as [<-|[]]. cbn [attr_type attr_name].
  split; [now split|]. split; [|now split].
  intros ->. now rewrite jstring_eqb_refl in E.
Qed.

(** *** Methods *)

Lemma method_match_shape s rest c :
  match_at methodRegex s = Some (rest, c) ->
  exists ty nm ps pre post,
    s = pre ++ ps ++ post /\
    type_token ty /\ word_token nm /\ forallb not_rparen ps = true /\
    cap 2 c = Some ty /\ cap 3 c = Some nm /\ cap 4 c = Some ps.
Proof.
  intros H. apply match_at_sound in H as (c' & M & ->).
  unfold methodRegex in M.
  apply Matches_Cat_inv in M as (s1 & c1 & M1 & M).
  apply modifierPrefix_shape in M1 as (mo & -> & _ & _).
  apply Matches_Cat_inv in M as (s2 & c2 & M2 & M).
  apply Matches_Group_inv in M2 as (c0 & M2 & ->).
  apply Matches_Plus_inv in M2 as (-> & ty & Hty & Fty & ->).
  apply Matches_Cat_inv in M as (s3 & c3 & M3 & M).
  apply Matches_Plus_inv in M3 as (-> & w1 & Hw1 & Fw1 & ->).
  apply Matches_Cat_inv in M as (s4 & c4 & M4 & M).
  apply Matches_Group_inv in M4 as (c5 & M4 & ->).
  apply Matches_Plus_inv in M4 as (-> & nm & Hnm & Fnm & ->).
  apply Matches_Cat_inv in M as (s5 & c6 & M5 & M).
  apply Matches_Star_inv in M5 as (-> & w2 & Fw2 & ->).
  apply Matches_Cat_inv in M as (s6 & c7 & M6 & M).
  apply Matches_Lit_inv in M6 as (-> & ->).
  apply Matches_Cat_inv in M as (s7 & c8 & M7 & M).
  apply Matches_Group_inv in M7 as (c9 & M7 & ->).
  apply Matches_Star_inv in M7 as (-> & ps & Fps & ->).
  apply Matches_Cat_inv in M as (s8 & c10 & M8 & M).
  apply Matches_Lit_inv in M8 as (-> & ->).
  apply Matches_Ahead_inv in M as (-> & s9 & M).
  apply Matches_Cat_inv in M as (s10 & c11 & M9 & M).
  apply Matches_Star_inv in M9 as (-> & w3 & _ & ->).
  apply Matches_Lit_inv in M as (-> & _).
  exists ty, nm, ps, (mo ++ ty ++ w1 ++ nm ++ w2 ++ str "("),
    (str ")" ++ w3 ++ s10).
  split; [now rewrite <- !app_assoc|].
  split; [now split|]. split; [now split|]. split; [exact Fps|].
  rewrite !consumed_app.
  repeat split.
  - do 3 (rewrite cap_set_cap_other by discriminate).
    apply cap_set_cap_same.
  - do 2 (rewrite cap_set_cap_other by discriminate).
    apply cap_set_cap_same.
  - rewrite cap_set_cap_other by discriminate. apply cap_set_cap_same.
Qed.

Lemma trimStart_split s :
  exists sp, s = sp ++ trimStart s /\ forallb is_space sp = true /\
             head_not is_space (trimStart s).
Proof.
  induction s as [|x s (sp & E & F & H)]; [now exists []|].
  cbn [trimStart]. destruct (is_space x) eqn:Ex.
  - exists (x :: sp). cbn [app forallb]. rewrite Ex, F. now rewrite <- E.
  - exists []. cbn [app forallb head_not]. auto.
Qed.

(** Trimming removes a run of white space at each end. *)
Lemma trim_split s :
  exists sp1 sp2,
    s = sp1 ++ trim s ++ sp2 /\
    forallb is_space sp1 = true /\ forallb is_space sp2 = true.
Proof.
  unfold trim. destruct (trimStart_split s) as (sp1 & E1 & F1 & _).
  destruct (trimStart_split (rev (trimStart s))) as (sp2 & E2 & F2 & _).
  exists sp1, (rev sp2). split; [|split; [exact F1|]].
  - rewrite <- rev_app_distr, <- E2, rev_involutive. exact E1.
  - rewrite forallb_forall in *. intros x Hx. apply F2. now apply in_rev.
Qed.

Lemma trim_incl s : incl (trim s) s.
Proof.
  destruct (trim_split s) as (sp1 & sp2 & E & _). intros x Hx.
  rewrite E. apply in_or_app. right. apply in_or_app. now left.
Qed.

Lemma split_char_pieces sep s :
  Forall (fun w => incl w s /\ ~ In sep w) (split_char sep s).
Proof.
  induction s as [|c s IH]; cbn [split_char].
  - constructor; [|constructor]. split; [apply incl_refl|easy].
  - assert (Forall (fun w => incl w (c :: s) /\ ~ In sep w)
                   (split_char sep s)) as IH'.
    { revert IH. apply Forall_impl. intros w [H1 H2].
      split; [now apply incl_tl|exact H2]. }
    destruct (char_eqb c sep) eqn:E.
    + constructor; [|exact IH']. split; [easy|easy].
    + destruct (split_char sep s) as [|w ws].
      * constructor; [|constructor]. split.
        -- intros x [<-|[]]. now left.
        -- intros [->|[]]. unfold char_eqb in E.
           now rewrite N.eqb_refl in E.
      * inversion IH' as [|? ? [H1 H2] H3]; subst. constructor; [|exact H3].
        split.
        -- intros x [<-|Hx]; [now left|now apply H1].
        -- intros [->|Hx]; [|contradiction]. unfold char_eqb in E.
           now rewrite N.eqb_refl in E.
Qed.

Lemma split_ws_pieces s :
  forall b, Forall (fun w => incl w s /\ space_free w) (split_ws_from b s).
Proof.
  induction s as [|x s IH]; intros b; cbn [split_ws_from].
  - constructor; [|constructor]. split; [apply incl_refl|reflexivity].
  - assert (forall b', Forall (fun w => incl w (x :: s) /\ space_free w)
                         (split_ws_from b' s)) as IH'.
    { intros b'. generalize (IH b'). apply Forall_impl. intros w [H1 H2].
      split; [now apply incl_tl|exact H2]. }
    destruct (is_space x) eqn:E.
    + destruct b; [apply IH'|]. constructor; [|apply IH'].
      split; [easy|reflexivity].
    + specialize (IH' false). destruct (split_ws_from false s) as [|w ws].
      * constructor; [|constructor]. split.
        -- intros y [<-|[]]. now left.
        -- unfold space_free. cbn [forallb]. now rewrite E.
      * inversion IH' as [|? ? [H1 H2] H3]; subst. constructor; [|exact H3].
        split.
        -- intros y [<-|Hy]; [now left|now apply H1].
        -- unfold space_free in *. cbn [forallb]. now rewrite E, H2.
Qed.

Lemma join_In (sep : jstring) l x :
  In x (join sep l) -> In x sep \/ exists w, In w l /\ In x w.
Proof.
  induction l as [|w l IH]; [easy|]. cbn [join]. destruct l as [|w' l].
  - intros H. right. exists w. split; [now left|exact H].
  - intros H. apply in_app_or in H as [H|H].
    + right. exists w. split; [now left|exact H].
    + apply in_app_or in H as [H|H]; [now left|].
      destruct (IH H) as [H'|(w0 & H1 & H2)]; [now left|].
      right. exists w0. split; [now right|exact H2].
Qed.

Lemma removelast_In (A : Type) (l : list A) x :
  In x (removelast l) -> In x l.
Proof.
  induction l as [|y l IH]; [easy|]. cbn [removelast].
  destruct l as [|z l]; [easy|]. intros [<-|H]; [now left|].
  right. now apply IH.
Qed.

Lemma last_In (A : Type) (l : list A) d : l <> [] -> In (last l d) l.
Proof.
  induction l as [|y l IH]; [easy|]. intros _. cbn [last].
  destruct l as [|z l]; [now left|]. right. now apply IH.
Qed.

(** A parameter that is kept has a type and a name, the name is one token
    of the text and the type is made of tokens of the text joined by one
    space. *)
Lemma parseParameter_In param p :
  In p (parseParameter param) ->
  param_type p <> [] /\ param_name p <> [] /\ space_free (param_name p) /\
  incl (param_name p) param /\
  (forall x, In x (param_type p) -> x = space \/ In x param).
Proof.
  unfold parseParameter.
  set (parts := match split_ws param with
                | p0 :: parts' =>
                    if jstring_eqb p0 (str "final") then parts'
                    else split_ws param
                | [] => split_ws param
                end).
  assert (Forall (fun w => incl w param /\ space_free w) parts) as Hparts.
  { pose proof (split_ws_pieces param false) as H. unfold parts.
    fold (split_ws param) in H.
    destruct (split_ws param) as [|p0 ps]; [exact H|].
    destruct (jstring_eqb p0 (str "final")); [|exact H].
    now inversion H. }
  rewrite Forall_forall in Hparts.
  destruct (Nat.ltb (length parts) 2) eqn:EL; [easy|].
  apply Nat.ltb_ge in EL.
  destruct (join (str " ") (removelast parts)) as [|t ts] eqn:ET;
    [easy|].
  destruct (last parts []) as [|n ns] eqn:EN; [easy|].
  cbn [is_empty negb andb]. intros [<-|[]]. cbn [param_type param_name].
  assert (In (n :: ns) parts) as Hlast.
  { rewrite <- EN. apply last_In. destruct parts; [simpl in EL; lia|easy]. }
  destruct (Hparts _ Hlast) as [H1 H2].
  split; [easy|]. split; [easy|]. split; [exact H2|]. split; [exact H1|].
  intros x Hx. rewrite <- ET in Hx. apply join_In in Hx as [Hx|Hx].
  - left. destruct Hx as [<-|[]]. reflexivity.
  - right. destruct Hx as (w & Hw & Hx). apply removelast_In in Hw.
    now apply (proj1 (Hparts _ Hw)).
Qed.

Lemma parseParameters_In paramsStr p :
  In p (parseParameters paramsStr) ->
  param_type p <> [] /\ param_name p <> [] /\ space_free (param_name p) /\
  ~ In comma (param_type p) /\ ~ In comma (param_name p) /\
  incl (param_name p) paramsStr /\
  (forall x, In x (param_type p) -> x = space \/ In x paramsStr).
Proof.
  unfold parseParameters. destruct (is_empty paramsStr); [easy|].
  intros H. apply in_flat_map in H as (param & Hparam & H).
  apply filter_In in Hparam as [Hparam _].
  apply in_map_iff in Hparam as (piece0 & <- & Hpiece).
  pose proof (split_char_pieces comma paramsStr) as HF.
  rewrite Forall_forall in HF. destruct (HF _ Hpiece) as [Hincl Hcomma].
  apply parseParameter_In in H as (H1 & H2 & H3 & H4 & H5).
  assert (incl (trim piece0) paramsStr) as Hsub.
  { intros x Hx. now apply Hincl, trim_incl. }
  assert (~ In comma (trim piece0)) as Hc.
  { intros Hx. now apply Hcomma, trim_incl. }
  split; [exact H1|]. split; [exact H2|]. split; [exact H3|].
  split; [|split; [|split]].
  - intros Hx. destruct (H5 _ Hx) as [E|Hin]; [discriminate E|].
    now apply Hc.
  - intros Hx. now apply Hc, H4.
  - intros x Hx. now apply Hsub, H4.
  - intros x Hx. destruct (H5 _ Hx) as [E|Hin]; [now left|].
    right. now apply Hsub.
Qed.

Lemma parseJavaMethods_In body method :
  In method (parseJavaMethods body) ->
  type_token (returnType method) /\
  word_token (methodName method) /\
  (forall p, In p (parameters method) ->
     param_type p <> [] /\ param_name p <> [] /\
     space_free (param_name p) /\
     ~ In comma (param_type p) /\ ~ In rparen (param_type p) /\
     forall x, In x (param_type p) -> x = space \/ In x body).
Proof.
  unfold parseJavaMethods. intros H.
  apply in_map_iff in H as ([c rest] & <- & Hm). cbn [fst].
  apply exec_all_In in Hm as (pre0 & s1 & Hbody & Hm).
  apply method_match_shape in Hm
    as (ty & nm & ps & pre & post & Hs1 & Hty & Hnm & Fps & C2 & C3 & C4).
  unfold cap_str. rewrite C2, C3, C4.
  cbn [returnType methodName parameters].
  split; [exact Hty|]. split; [exact Hnm|].
  intros p Hp.
  apply parseParameters_In in Hp as (H1 & H2 & H3 & H4 & _ & _ & H7).
  split; [exact H1|]. split; [exact H2|]. split; [exact H3|].
  split; [exact H4|].
  assert (forall x, In x (param_type p) -> x = space \/ In x ps) as Hps.
  { intros x Hx. destruct (H7 _ Hx) as [E|Hin]; [now left|].
    right. now apply trim_incl. }
  split.
  - intros Hx. destruct (Hps _ Hx) as [E|Hin]; [discriminate E|].
    rewrite forallb_forall in Fps. apply Fps in Hin. discriminate Hin.
  - intros x Hx. destruct (Hps _ Hx) as [E|Hin]; [now left|].
    right. rewrite Hbody, Hs1. apply in_or_app. right.
    apply in_or_app. right. apply in_or_app. now left.
Qed.

End ParserFacts.

Module ParserExtras.
Import RegexFacts AttributeFacts BraceFacts ParserFacts.

(** Every attribute that [parseJavaAttributes] returns has a type made of
    one or more type characters (so without the delimiter of the
    signature strings), other than [return], and a name made of one or
    more word characters. *)
Theorem parsed_attributes_wellformed (classBody : jstring) :
  Forall (fun attr =>
            type_token (attr_type attr) /\
            attr_type attr <> str "return" /\
            word_token (attr_name attr) /\
            clean_attribute attr)
         (parseJavaAttributes classBody).
Proof.
  apply Forall_forall. intros attr H.
  apply parseJavaAttributes_In in H as (H1 & H2 & H3).
  repeat split; try tauto; try apply H1; try apply H3.
  now apply type_token_pipe_free.
Qed.

(** Every method that [parseJavaMethods] returns has a return type made of
    one or more type characters and a name made of one or more word
    characters; each of its parameters has a non-empty type without comma
    and closing parenthesis and a non-empty name without white space. *)
Theorem parsed_methods_wellformed (classBody : jstring) :
  Forall (fun method =>
            type_token (returnType method) /\
            pipe_free (returnType method) /\
            word_token (methodName method) /\
            Forall (fun p =>
                      param_type p <> [] /\
                      ~ In comma (param_type p) /\
                      ~ In rparen (param_type p) /\
                      param_name p <> [] /\
                      space_free (param_name p))
                   (parameters method))
         (parseJavaMethods classBody).
Proof.
  apply Forall_forall. intros method H.
  apply parseJavaMethods_In in H as (H1 & H2 & H3).
  split; [exact H1|]. split; [now apply type_token_pipe_free|].
  split; [exact H2|]. apply Forall_forall. intros p Hp.
  destruct (H3 p Hp) as (P1 & P2 & P3 & P4 & P5 & _). auto.
Qed.

(** *** Class headers and bodies *)

Lemma class_match_shape s rest c :
  match_at classRegex s = Some (rest, c) ->
  (exists t, s = str "class" ++ t) /\
  (exists nm, word_token nm /\ cap 1 c = Some nm) /\
  (forall e, cap 2 c = Some e -> word_token e).
Proof.
  intros H. apply match_at_sound in H as (c' & M & ->).
  unfold classRegex in M.
  apply Matches_Cat_inv in M as (s1 & c1 & M1 & M).
  apply Matches_Lit_inv in M1 as (-> & ->).
  apply Matches_Cat_inv in M as (s2 & c2 & M2 & M).
  apply Matches_Plus_inv in M2 as (-> & w1 & _ & _ & ->).
  apply Matches_Cat_inv in M as (s3 & c3 & M3 & M).
  apply Matches_Group_inv in M3 as (c0 & M3 & ->).
  apply Matches_Plus_inv in M3 as (-> & nm & Hnm & Fnm & ->).
  apply Matches_Cat_inv in M as (s4 & c4 & M4 & M).
  apply Matches_Cat_inv in M as (s5 & c5 & M5 & M).
  apply Matches_Star_inv in M5 as (-> & w2 & _ & ->).
  apply Matches_Lit_inv in M as (-> & ->).
  split; [eauto|]. rewrite consumed_app in *.
  apply Matches_Opt_inv in M4 as [M4|[E ->]].
  - apply Matches_Cat_inv in M4 as (s6 & c6 & M6 & M4).
    apply Matches_Plus_inv in M6 as (-> & w3 & _ & _ & ->).
    apply Matches_Cat_inv in M4 as (s7 & c7 & M7 & M4).
    apply Matches_Lit_inv in M7 as (-> & ->).
    apply Matches_Cat_inv in M4 as (s8 & c8 & M8 & M4).
    apply Matches_Plus_inv in M8 as (-> & w4 & _ & _ & ->).
    apply Matches_Group_inv in M4 as (c9 & M4 & ->).
    apply Matches_Plus_inv in M4 as (-> & e & He & Fe & ->).
    rewrite consumed_app. split.
    + exists nm. split; [now split|].
      do 2 (rewrite cap_set_cap_other by discriminate).
      apply cap_set_cap_same.
    + intros e'. rewrite cap_set_cap_other by discriminate.
      rewrite cap_set_cap_same. intros [= <-]. now split.
  - split.
    + exists nm. split; [now split|].
      rewrite cap_set_cap_other by discriminate. apply cap_set_cap_same.
    + intros e'. simpl. discriminate.
Qed.

Lemma lefts_In (A B : Type) (l : list (A + B)) a :
  In a (lefts l) <-> In (inl a) l.
Proof.
  induction l as [|[x|y] l IH]; cbn [lefts In]; [easy| |].
  - rewrite IH. split; intros [H|H]; auto; left; congruence.
  - rewrite IH. split; [auto|]. now intros [H|H].
Qed.

Lemma lefts_rights_length (A B : Type) (l : list (A + B)) :
  length (lefts l) + length (rights l) = length l.
Proof.
  induction l as [|[x|y] l IH]; cbn [lefts rights length]; lia.
Qed.

Lemma opens_app a b : opens (a ++ b) = opens a + opens b.
Proof. unfold opens. now rewrite filter_app, length_app. Qed.

Lemma closes_app a b : closes (a ++ b) = closes a + closes b.
Proof. unfold closes. now rewrite filter_app, length_app. Qed.

Lemma spaces_no_brace sp :
  forallb is_space sp = true -> opens sp = 0 /\ closes sp = 0.
Proof.
  induction sp as [|x sp IH]; [easy|]. cbn [forallb]. intros H.
  apply andb_true_iff in H as [Hx H]. destruct (IH H) as [IH1 IH2].
  rewrite opens_cons, closes_cons, IH1, IH2.
  apply is_space_bounds in Hx.
  assert (char_eqb x lbrace = false) as ->.
  { unfold char_eqb, lbrace. apply N.eqb_neq. lia. }
  assert (char_eqb x rbrace = false) as ->.
  { unfold char_eqb, rbrace. apply N.eqb_neq. lia. }
  easy.
Qed.

Lemma trim_braces s : opens (trim s) = opens s /\ closes (trim s) = closes s.
Proof.
  destruct (trim_split s) as (sp1 & sp2 & E & F1 & F2).
  apply spaces_no_brace in F1 as [O1 C1], F2 as [O2 C2].
  rewrite E at 2 4. rewrite !opens_app, !closes_app. lia.
Qed.

Lemma trim_trimmed s :
  head_not is_space (trim s) /\ last_not is_space (trim s).
Proof.
  unfold trim, last_not. rewrite rev_involutive.
  destruct (trimStart_split s) as (sp1 & _ & _ & Hu).
  destruct (trimStart_split (rev (trimStart s))) as (sp2 & E & _ & Ht).
  split; [|exact Ht].
  apply (f_equal (@rev char)) in E. rewrite rev_involutive in E.
  rewrite rev_app_distr in E.
  destruct (rev (trimStart (rev (trimStart s)))) as [|y r]; [exact I|].
  rewrite E in Hu. exact Hu.
Qed.

Lemma firstn_incl (A : Type) n (l : list A) : incl (firstn n l) l.
Proof.
  intros x Hx. rewrite <- (firstn_skipn n l). apply in_or_app. now left.
Qed.

Lemma extractClass_In javaSource d :
  In d (fst (extractClassBodies javaSource)) ->
  exists c rest n,
    In (c, rest) (headers javaSource) /\
    braceLoop rest 1 = Some n /\
    d = mkClassDecl (cap_str 1 c) (cap 2 c) (trim (firstn n rest)).
Proof.
  unfold extractClassBodies. cbn [fst]. intros H.
  apply (proj1 (lefts_In _ _ _ _)) in H.
  apply in_map_iff in H as ([c rest] & H & Hm).
  unfold extractClass in H. exists c, rest.
  destruct (braceLoop rest 1) as [n|]; [|discriminate].
  exists n. injection H as <-. auto.
Qed.

Lemma body_incl javaSource d :
  In d (fst (extractClassBodies javaSource)) -> incl (body d) javaSource.
Proof.
  intros H. apply extractClass_In in H as (c & rest & n & Hm & _ & ->).
  cbn [body]. unfold headers in Hm.
  apply exec_all_In in Hm as (pre & s1 & -> & Hm).
  apply match_at_suffix in Hm as [m ->].
  intros x Hx. apply trim_incl, firstn_incl in Hx.
  apply in_or_app. right. apply in_or_app. now right.
Qed.

(** Every class that [extractClassBodies] returns has a name made of one
    or more word characters, a parent (when there is one) of the same
    kind, and a body without white space at its ends that has as many
    opening as closing braces.  Every header of the source gives either
    a class or a line on the console. *)
Theorem extracted_classes_wellformed (javaSource : jstring) :
  Forall (fun d =>
            word_token (decl_name d) /\
            (forall e, extendsFrom d = Some e -> word_token e) /\
            opens (body d) = closes (body d) /\
            head_not is_space (body d) /\
            last_not is_space (body d))
         (fst (extractClassBodies javaSource)) /\
  length (fst (extractClassBodies javaSource))
  + length (snd (extractClassBodies javaSource))
  = length (headers javaSource).
Proof.
  split.
  - apply Forall_forall. intros d H.
    apply extractClass_In in H as (c & rest & n & Hm & Hn & ->).
    cbn [decl_name extendsFrom body]. unfold headers in Hm.
    apply exec_all_In in Hm as (pre & s1 & _ & Hm).
    apply class_match_shape in Hm as (_ & (nm & Hnm & C1) & C2).
    unfold cap_str. rewrite C1.
    split; [exact Hnm|]. split; [exact C2|].
    apply class_body_balance in Hn.
    destruct (trim_braces (firstn n rest)) as [-> ->].
    split; [exact Hn|apply trim_trimmed].
  - unfold extractClassBodies, headers. cbn [fst snd].
    rewrite lefts_rights_length. apply length_map.
Qed.

(** *** Sources without a class *)

Lemma occurs_cons l x s :
  occurs l (x :: s) = false ->
  prefix_rest l (x :: s) = None /\ occurs l s = false.
Proof.
  cbn [occurs]. intros H. apply orb_false_iff in H as [H1 H2].
  split; [|exact H2]. now destruct (prefix_rest l (x :: s)).
Qed.

Lemma exec_all_no_class s :
  occurs (str "class") s = false ->
  forall skip, exec_all classRegex skip s = [].
Proof.
  induction s as [|x s IH]; intros H skip; [reflexivity|].
  apply occurs_cons in H as [Hp H]. cbn [exec_all].
  destruct skip as [|skip]; [|now apply IH].
  destruct (match_at classRegex (x :: s)) as [[rest c]|] eqn:E;
    [|now apply IH].
  apply class_match_shape in E as ([t E] & _).
  rewrite E, prefix_rest_app_same in Hp. discriminate.
Qed.

(** A source in which, once the comments are removed, the text [class]
    does not occur gives no class, the one error string about class
    declarations, and nothing on the console. *)
Theorem no_class_keyword_no_classes (source : jstring) :
  occurs (str "class") (removeComments source) = false ->
  parseJavaFile source
  = (mkParseResult [] [str "No class declarations found."], []).
Proof.
  intros H. unfold parseJavaFile, parseJavaClasses, extractClassBodies.
  now rewrite (exec_all_no_class _ H 0).
Qed.

Lemma no_class_keyword_no_classes_witness :
  occurs (str "class")
    (removeComments (str "// class A { }")) = false /\
  parseJavaFile (str "// class A { }")
  = (mkParseResult [] [str "No class declarations found."], []).
Proof.
  assert (occurs (str "class")
            (removeComments (str "// class A { }")) = false) as H
      by (vm_compute; reflexivity).
  split; [exact H|].
  exact (no_class_keyword_no_classes (str "// class A { }") H).
Defined.

(** *** The delimiter of the signature strings *)

Lemma Subseq_incl u s : Subseq u s -> incl u s.
Proof.
  induction 1 as [|x u s _ IH|x u s _ IH]; intros y Hy.
  - exact Hy.
  - destruct Hy as [<-|Hy]; [now left|right; now apply IH].
  - right. now apply IH.
Qed.

Lemma removeComments_incl s : incl (removeComments s) s.
Proof.
  apply Subseq_incl. unfold removeComments.
  apply Subseq_trans with (replace_empty lineCommentRegex 0 s);
    apply replace_empty_subseq.
Qed.

(** The classes parsed from a source without the character [|] have no
    [|] in the type of an attribute, in a return type or in the type of a
    parameter: the signature strings of the comparators are then cut at
    their delimiters only. *)
Theorem pipe_free_source_clean_classes (source : jstring) :
  pipe_free source ->
  Forall clean_class (classes (fst (parseJavaFile source))).
Proof.
  intros Hsrc. unfold parseJavaFile, parseJavaClasses.
  pose proof (body_incl (removeComments source)) as Hbody.
  destruct (extractClassBodies (removeComments source)) as [ds console].
  cbn [fst] in Hbody.
  assert (Forall clean_class
            (map (fun classDecl =>
                    mkClass (decl_name classDecl) (extendsFrom classDecl)
                      (parseJavaAttributes (body classDecl))
                      (parseJavaMethods (body classDecl))) ds)) as H.
  { apply Forall_forall. intros c Hc.
    apply in_map_iff in Hc as (d & <- & Hd). split; cbn [attributes methods].
    - apply Forall_forall. intros attr Ha.
      apply parseJavaAttributes_In in Ha as (Ha & _).
      now apply type_token_pipe_free.
    - apply Forall_forall. intros method Hm.
      apply parseJavaMethods_In in Hm as (H1 & _ & H3).
      split; [now apply type_token_pipe_free|].
      apply Forall_forall. intros p Hp.
      destruct (H3 p Hp) as (_ & _ & _ & _ & _ & H6).
      intros Hx. destruct (H6 _ Hx) as [E|Hin]; [discriminate E|].
      apply Hsrc. now apply removeComments_incl, (Hbody d Hd). }
  destruct ds as [|d ds]; [constructor|exact H].
Qed.

Lemma pipe_free_source_clean_classes_witness :
  pipe_free (str "class X { int f(Map<K,V> m) { } }") /\
  Forall clean_class
    (classes (fst (parseJavaFile (str "class X { int f(Map<K,V> m) { } }")))).
Proof.
  assert (pipe_free (str "class X { int f(Map<K,V> m) { } }")) as H.
  { apply forallb_not_In with (fun c => negb (N.eqb c pipe)).
    - vm_compute. reflexivity.
    - intros c Hc ->. discriminate Hc. }
  split; [exact H|].
  exact (pipe_free_source_clean_classes
           (str "class X { int f(Map<K,V> m) { } }") H).
Defined.

(** *** Parameter lists *)

Lemma split_char_app sep a b :
  split_char sep (a ++ sep :: b) = split_char sep a ++ split_char sep b.
Proof.
  induction a as [|c a IH]; cbn [app split_char].
  - unfold char_eqb. now rewrite N.eqb_refl.
  - rewrite IH. destruct (char_eqb c sep); [reflexivity|].
    pose proof (SignatureFacts.split_char_not_nil sep a) as Hne.
    destruct (split_char sep a) as [|w ws]; [contradiction|reflexivity].
Qed.

Lemma parseParameters_unfold paramsStr :
  parseParameters paramsStr
  = flat_map parseParameter
      (filter (fun p => negb (is_empty p))
              (map trim (split_char comma paramsStr))).
Proof.
  unfold parseParameters. now destruct paramsStr.
Qed.

(** The parameter text is cut at every comma, wherever it stands: the
    parameters of a text with a comma are those of the part before it
    followed by those of the part after it (so a generic type with two
    arguments is cut in two). *)
Theorem parameters_cut_at_every_comma (a b : jstring) :
  parseParameters (a ++ comma :: b) = parseParameters a ++ parseParameters b.
Proof.
  rewrite !parseParameters_unfold, split_char_app, map_app, filter_app.
  apply flat_map_app.
Qed.

(** *** The classes of several files *)

Lemma fold_concat (A B : Type) (f : A -> list B) l acc :
  fold_left (fun acc x => acc ++ f x) l acc = acc ++ flat_map f l.
Proof.
  revert acc; induction l as [|x l IH]; intros acc; cbn [fold_left flat_map].
  - now rewrite app_nil_r.
  - now rewrite IH, app_assoc.
Qed.

(** [combineClasses] returns the classes of the files one file after the
    other, in the order of the files and with every repetition kept; the
    file names play no part, and the classes of two lists of files are
    those of the first list followed by those of the second. *)
Theorem combineClasses_in_file_order (files files' : list FileData) :
  combineClasses files
  = flat_map (fun file => classes (fst (parseJavaFile (content file)))) files
  /\ combineClasses (files ++ files')
     = combineClasses files ++ combineClasses files'.
Proof.
  assert (forall fs,
            combineClasses fs
            = flat_map (fun file =>
                          classes (fst (parseJavaFile (content file)))) fs)
    as H.
  { intros fs. unfold combineClasses. rewrite fold_concat. cbn [app].
    induction fs as [|f fs IH]; [reflexivity|].
    cbn [map flat_map]. now rewrite IH. }
  split; [apply H|]. rewrite !H. apply flat_map_app.
Qed.

End ParserExtras.
